(** * Remora: the hybrid memory store

    A shallow embedding of [src/vector/index.ts] (cosine similarity and the
    in-memory [LocalVectorIndex]), of the MCP tools and REST routes of
    [src/server.ts] (add, search, delete) and of [rebuildLocalVectorIndex]
    and [memoryCollection] of the bootstrap and [db/mongo.ts].

    JavaScript numbers are IEEE-754 binary64 values: they are modelled by
    Rocq's primitive floats, whose operations are the same correctly rounded
    binary64 operations, so that [NaN] and overflow behave as they do in the
    program.  The built-ins the program calls ([Array.prototype.sort],
    [Array.prototype.slice], [Map]) and the MongoDB collection are modelled
    next to the code that uses them.  A handler is a function from the state
    of the process (the collection and the index) to an outcome and a new
    state; what a request takes from outside (the fresh uuid, the clock,
    whether the driver call resolves) is an argument.

    The text-embedding handlers that the bootstrap file sets on [/mcp],
    which store and fetch records without scope, are modelled apart from the
    tools of [server.ts].  Not modelled: the transport and the embedding
    model itself.

    The file has three parts: the model, the notions and scenarios the
    properties are stated with, and the properties with their proofs. *)

From Stdlib Require Import List ZArith Lia Bool String Permutation Sorted.
From Stdlib Require Import Floats.
Import ListNotations.

Set Warnings "-inexact-float".

(* ===================================================================== *)
(** ** JavaScript numbers and arrays *)
(* ===================================================================== *)

Module JsNumber.
Local Open Scope float_scope.

(** [Number.isNaN]: NaN is the only number that differs from itself. *)
Definition is_nan (x : float) : bool := negb (x =? x).

(** [Number.isFinite]. *)
Definition is_finite (x : float) : bool := abs x <? infinity.
End JsNumber.

Module JsArray.
Import JsNumber.

(** [Array.prototype.slice(0, end)] for an integral [end]: a negative [end]
    counts from the end of the array. *)
Definition slice0 {A : Type} (l : list A) (final : Z) : list A :=
  let len := Z.of_nat (List.length l) in
  let final' := if (final <? 0)%Z then Z.max (len + final) 0 else Z.min final len in
  firstn (Z.to_nat final') l.

Section Sort.
Context {A : Type}.
Variable comparefn : A -> A -> float.

(** ECMAScript's SortCompare: the comparator's result, NaN read as +0. *)
Definition SortCompare (x y : A) : float :=
  let v := comparefn x y in
  if is_nan v then 0%float else v.

(** [Array.prototype.sort(comparefn)] as the engine of Node runs it (V8,
    [third_party/v8/builtins/array-sort.tq]).  An array of fewer than 64
    elements is one run: [CountAndMakeRun] takes the longest ascending or
    strictly descending run at the start of the array and reverses it when
    it descends, and [BinaryInsertionSort] inserts each later element into
    the sorted part at the place a binary search finds.  Longer arrays are
    cut into such runs, which are then merged; with a consistent comparator
    that returns the same array, the only stable sorted one ([sort_unique]
    below), and the model follows the one-run procedure at every length. *)

(** The loop of [CountAndMakeRun]: the elements that continue the run
    after [previousElement], and the rest of the array. *)
Fixpoint extendRun (isDescending : bool) (previousElement : A) (l : list A)
  : list A * list A :=
  match l with
  | [] => ([], [])
  | currentElement :: l' =>
      let order := SortCompare currentElement previousElement in
      if (if isDescending then 0 <=? order else order <? 0)%float
      then ([], l)
      else
        let (run, rest) := extendRun isDescending currentElement l' in
        (currentElement :: run, rest)
  end.

(** [CountAndMakeRun(0, length)]: the run, reversed if it descends, and the
    elements behind it. *)
Definition countAndMakeRun (l : list A) : list A * list A :=
  match l with
  | elementHigh :: elementLow :: l' =>
      let isDescending := (SortCompare elementLow elementHigh <? 0)%float in
      let (run, rest) := extendRun isDescending elementLow l' in
      let made := elementHigh :: elementLow :: run in
      (if isDescending then rev made else made, rest)
  | _ => (l, [])
  end.

(** The binary search of [BinaryInsertionSort]: [while (left < right)] with
    [mid = left + ((right - left) >> 1)]; [order < 0] continues in the left
    half.  [mid] is below the length of [a], so the default of [nth] is not
    read; the loop ends within [right - left] steps. *)
Fixpoint insertionPoint (steps : nat) (pivot : A) (a : list A) (left right : nat) : nat :=
  match steps with
  | O => left
  | S steps' =>
      if (left <? right)%nat then
        let mid := (left + Nat.div2 (right - left))%nat in
        if (SortCompare pivot (nth mid a pivot) <? 0)%float
        then insertionPoint steps' pivot a left mid
        else insertionPoint steps' pivot a (S mid) right
      else left
  end.

(** One round of [BinaryInsertionSort]: [pivot] goes to [left], the
    elements from [left] on move up by one. *)
Definition insertPivot (a : list A) (pivot : A) : list A :=
  let left := insertionPoint (List.length a) pivot a 0 (List.length a) in
  firstn left a ++ pivot :: skipn left a.

Definition binaryInsertionSort (run rest : list A) : list A :=
  fold_left insertPivot rest run.

Definition sort (l : list A) : list A :=
  let (run, rest) := countAndMakeRun l in
  binaryInsertionSort run rest.
End Sort.
End JsArray.

(** A JavaScript [Map] with string keys, as its entries in iteration order:
    insertion order, [set] on a present key replaces the value in place, a
    key has at most one entry. *)
Module JsMap.
Section Map.
Context {V : Type}.

Definition t := list (string * V).

Fixpoint set (key : string) (value : V) (m : t) : t :=
  match m with
  | [] => [(key, value)]
  | (k, v) :: m' =>
      if String.eqb k key then (k, value) :: m' else (k, v) :: set key value m'
  end.

Definition delete (key : string) (m : t) : t :=
  filter (fun e => negb (String.eqb (fst e) key)) m.

Fixpoint get (key : string) (m : t) : option V :=
  match m with
  | [] => None
  | (k, v) :: m' => if String.eqb k key then Some v else get key m'
  end.

Definition keys (m : t) : list string := List.map fst m.

(** [new Map(entries)] *)
Definition of_entries (entries : list (string * V)) : t :=
  fold_left (fun m e => set (fst e) (snd e) m) entries [].
End Map.
Arguments t : clear implicits.
End JsMap.

(* ===================================================================== *)
(** ** src/vector/index.ts *)
(* ===================================================================== *)

Module Vector.
Import JsNumber JsArray.
Local Open Scope float_scope.

Definition Vec := list float.

(** The loop of [cosine]: the three accumulators after visiting the
    components in index order. *)
Definition accumulate (a b : Vec) : float * float * float :=
  fold_left
    (fun '(dot, na, nb) '(x, y) => (dot + x * y, na + x * x, nb + y * y))
    (combine a b) (0, 0, 0).

Definition cosine (a b : Vec) : float :=
  if negb (Nat.eqb (List.length a) (List.length b)) then 0
  else
    let '(dot, na, nb) := accumulate a b in
    let denom := sqrt na * sqrt nb in
    if denom =? 0 then 0 else dot / denom.

(** The formula of the specification, written with separate sums. *)
Definition dot (a b : Vec) : float :=
  fold_left (fun acc '(x, y) => acc + x * y) (combine a b) 0.

Definition norm (a : Vec) : float :=
  sqrt (fold_left (fun acc x => acc + x * x) a 0).

Record Scored := { memory_id : string; score : float }.

(** The state of a [LocalVectorIndex]: its private [Map<string, Vec>]. *)
Definition LocalVectorIndex := JsMap.t Vec.

Definition clear (map : LocalVectorIndex) : LocalVectorIndex := [].

Definition upsert (memoryId : string) (embedding : Vec) (map : LocalVectorIndex)
  : LocalVectorIndex :=
  JsMap.set memoryId embedding map.

Definition delete (memoryId : string) (map : LocalVectorIndex) : LocalVectorIndex :=
  JsMap.delete memoryId map.

Definition scored (query : Vec) (map : LocalVectorIndex) : list Scored :=
  List.map (fun '(id, vec) => {| memory_id := id; score := cosine query vec |}) map.

(** [(a, b) => b.score - a.score] *)
Definition by_score_desc (a b : Scored) : float := score b - score a.

Definition search (query : Vec) (topK : Z) (map : LocalVectorIndex) : list Scored :=
  slice0 (sort by_score_desc (scored query map)) topK.

(** The methods a client may call on the exported [vectorIndex]. *)
Inductive Op :=
| Upsert (memoryId : string) (embedding : Vec)
| Delete (memoryId : string)
| Clear.

Definition apply (map : LocalVectorIndex) (o : Op) : LocalVectorIndex :=
  match o with
  | Upsert id v => upsert id v map
  | Delete id => delete id map
  | Clear => clear map
  end.

(** The index after a sequence of calls on a new [LocalVectorIndex]. *)
Definition run (ops : list Op) : LocalVectorIndex := fold_left apply ops [].

(** [ranked.map(r => r.memory_id)] *)
Definition ids (r : list Scored) : list string := List.map memory_id r.
End Vector.

(* ===================================================================== *)
(** ** The persistent store: the MongoDB collection "memories" *)
(* ===================================================================== *)

Module Mongo.
Import Vector.

(** A stored document, with the fields [add_memory] and [POST /v1/memories]
    write.  [agent_id] is [None] for [null]; [embedding] is [None] when the
    field is not an array. *)
Module Doc.
Record t := {
  memory_id : string;
  user_id : string;
  agent_id : option string;
  scope : string;
  encrypted_text : string;
  embedding : option Vec;
  embedding_model : string;
  embedding_dim : Z;
  created_at : Z
}.
End Doc.

(** The values the program's filters compare: strings and [null]. *)
Inductive Value := VNull | VString (s : string).

Definition value_eqb (a b : Value) : bool :=
  match a, b with
  | VNull, VNull => true
  | VString x, VString y => String.eqb x y
  | _, _ => false
  end.

Definition of_option (o : option string) : Value :=
  match o with Some s => VString s | None => VNull end.

(** The value of a queried field; a field the document lacks reads [null],
    which is how MongoDB matches [{field: null}]. *)
Definition field (name : string) (d : Doc.t) : Value :=
  if String.eqb name "memory_id" then VString (Doc.memory_id d)
  else if String.eqb name "user_id" then VString (Doc.user_id d)
  else if String.eqb name "agent_id" then of_option (Doc.agent_id d)
  else if String.eqb name "scope" then VString (Doc.scope d)
  else VNull.

(** The query documents the program builds: [{}], [{f: v}], [{f: {$in: vs}}],
    several conditions in one document (a conjunction) and [$or]. *)
Inductive Filter :=
| FAll
| FEq (name : string) (v : Value)
| FIn (name : string) (vs : list Value)
| FAnd (f g : Filter)
| FOr (f g : Filter).

Fixpoint matches (f : Filter) (d : Doc.t) : bool :=
  match f with
  | FAll => true
  | FEq name v => value_eqb (field name d) v
  | FIn name vs => existsb (value_eqb (field name d)) vs
  | FAnd f g => matches f d && matches g d
  | FOr f g => matches f d || matches g d
  end.

(** The collection, in natural (insertion) order. *)
Definition Collection := list Doc.t.

Definition insertOne (doc : Doc.t) (c : Collection) : Collection := c ++ [doc].

(** [deleteOne] removes the first matching document, if there is one. *)
Fixpoint deleteOne (f : Filter) (c : Collection) : Collection :=
  match c with
  | [] => []
  | d :: c' => if matches f d then c' else d :: deleteOne f c'
  end.

Definition find (f : Filter) (c : Collection) : list Doc.t := filter (matches f) c.
End Mongo.

(* ===================================================================== *)
(** ** src/server.ts and the bootstrap of the process *)
(* ===================================================================== *)

Module Server.
Import Vector Mongo.
Local Open Scope string_scope.
Local Open Scope list_scope.

(** What an awaited driver call does: it succeeds, it rejects before the
    write reached the collection, or it rejects (or the request is cut) after
    the write was applied. *)
Inductive DriverFault := Healthy | FailsBeforeWrite | FailsAfterWrite.

(** What a request reads from its environment: the value of [uuidv4()], the
    value of [new Date()] and the behaviour of the driver. *)
Record Env := { uuidv4 : string; now : Z; driver : DriverFault }.

(** The state of the process: [db] of [db/mongo.ts] ([None] until
    [connectMongo] ran) and the exported [vectorIndex]. *)
Record World := { db : option Collection; vectorIndex : LocalVectorIndex }.

Inductive Outcome (A : Type) :=
| Returned (a : A)
| Threw (error : string).
Arguments Returned {A} a.
Arguments Threw {A} error.

(** An async handler: it runs on the state and returns or throws; a rejected
    [await] ends the handler where it stands. *)
Definition Handler (A : Type) := World -> Outcome A * World.

Definition ret {A : Type} (a : A) : Handler A := fun w => (Returned a, w).

Definition throw {A : Type} (error : string) : Handler A := fun w => (Threw error, w).

Definition bind {A B : Type} (m : Handler A) (k : A -> Handler B) : Handler B :=
  fun w =>
    match m w with
    | (Returned a, w') => k a w'
    | (Threw e, w') => (Threw e, w')
    end.

Notation "x <- m ;; k" := (bind m (fun x => k))
  (at level 61, m at next level, right associativity).
Notation "m ;;; k" := (bind m (fun _ => k))
  (at level 61, right associativity).

(** [memoryCollection()] of [db/mongo.ts]. *)
Definition memoryCollection : Handler Collection :=
  fun w =>
    match db w with
    | Some c => (Returned c, w)
    | None => (Threw "Mongo not initialized", w)
    end.

Definition write_collection (c : Collection) : Handler unit :=
  fun w => (Returned tt, {| db := Some c; vectorIndex := vectorIndex w |}).

(** A driver call that writes: [update] is what the call does to the
    collection when it is applied. *)
Definition driver_write (env : Env) (update : Collection -> Collection) : Handler unit :=
  c <- memoryCollection ;;
  match driver env with
  | Healthy => write_collection (update c)
  | FailsBeforeWrite => throw "MongoError"
  | FailsAfterWrite => write_collection (update c) ;;; throw "MongoError"
  end.

(** [await memoryCollection().insertOne(doc)] *)
Definition await_insertOne (env : Env) (doc : Doc.t) : Handler unit :=
  driver_write env (insertOne doc).

(** [await memoryCollection().deleteOne(filter)] *)
Definition await_deleteOne (env : Env) (f : Filter) : Handler unit :=
  driver_write env (deleteOne f).

(** [await memoryCollection().find(filter).toArray()] *)
Definition await_find (env : Env) (f : Filter) : Handler (list Doc.t) :=
  c <- memoryCollection ;;
  match driver env with
  | Healthy => ret (find f c)
  | _ => throw "MongoError"
  end.

Definition modify_index (f : LocalVectorIndex -> LocalVectorIndex) : Handler unit :=
  fun w => (Returned tt, {| db := db w; vectorIndex := f (vectorIndex w) |}).

(** [vectorIndex.upsert], [vectorIndex.delete], [vectorIndex.clear] and
    [vectorIndex.search] on the exported index. *)
Definition vectorIndex_upsert (memoryId : string) (embedding : Vec) : Handler unit :=
  modify_index (upsert memoryId embedding).

Definition vectorIndex_delete (memoryId : string) : Handler unit :=
  modify_index (delete memoryId).

Definition vectorIndex_clear : Handler unit := modify_index clear.

Definition vectorIndex_search (query : Vec) (topK : Z) : Handler (list Scored) :=
  fun w => (Returned (search query topK (vectorIndex w)), w).

(** The JSON values of a reply. *)
Inductive Json := JNull | JString (s : string) | JDate (t : Z).

Definition json_of_option (o : option string) : Json :=
  match o with Some s => JString s | None => JNull end.

(** What a tool or a route answers. *)
Inductive Reply :=
| MemoryId (memory_id : string)
| Memories (memories : list (list (string * Json)))
| Deleted
| ClientError (code : Z) (error : string)
| InvalidParams.

(** The object a search returns for a stored document. *)
Definition project (m : Doc.t) : list (string * Json) :=
  [ ("memory_id", JString (Doc.memory_id m));
    ("encrypted_text", JString (Doc.encrypted_text m));
    ("scope", JString (Doc.scope m));
    ("agent_id", json_of_option (Doc.agent_id m));
    ("created_at", JDate (Doc.created_at m));
    ("embedding_model", JString (Doc.embedding_model m)) ].

(** [x ?? d] *)
Definition nullish {A : Type} (x : option A) (d : A) : A :=
  match x with Some a => a | None => d end.

(** The document both writers build. *)
Definition new_doc (env : Env) (user_id : string) (agent_id : option string)
  (scope encrypted_text : string) (embedding : Vec) (embedding_model : option string)
  : Doc.t :=
  {| Doc.memory_id := uuidv4 env;
     Doc.user_id := user_id;
     Doc.agent_id := agent_id;
     Doc.scope := scope;
     Doc.encrypted_text := encrypted_text;
     Doc.embedding := Some embedding;
     Doc.embedding_model := nullish embedding_model "client";
     Doc.embedding_dim := Z.of_nat (List.length embedding);
     Doc.created_at := now env |}.

(** [scopeFilter] *)
Definition scopeFilter (user_id : string) (agent_id : option string)
  (rankedIds : list string) : Filter :=
  FAnd (FEq "user_id" (VString user_id))
    (FAnd (FIn "memory_id" (List.map VString rankedIds))
       (FOr (FEq "scope" (VString "global"))
          (FAnd (FEq "scope" (VString "agent"))
             (FEq "agent_id" (of_option agent_id))))).

(** [new Map(docs.map(d => [d.memory_id, d]))] *)
Definition docMap (docs : list Doc.t) : JsMap.t Doc.t :=
  JsMap.of_entries (List.map (fun d => (Doc.memory_id d, d)) docs).

(** [.filter(Boolean)] on an array of documents and [undefined]s. *)
Definition filter_Boolean {A : Type} (l : list (option A)) : list A :=
  flat_map (fun o => match o with Some a => [a] | None => [] end) l.

(** [rankedIds.map(id => docMap.get(id)).filter(Boolean)] *)
Definition ordered (rankedIds : list string) (docs : list Doc.t) : list Doc.t :=
  filter_Boolean (List.map (fun id => JsMap.get id (docMap docs)) rankedIds).

(** The body the tool [search_memories] and the route [POST /v1/search]
    share, from the call of the index on. *)
Definition search_body (env : Env) (user_id : string) (agent_id : option string)
  (query_embedding : Vec) (topK : Z) : Handler Reply :=
  ranked <- vectorIndex_search query_embedding topK ;;
  let rankedIds := ids ranked in
  if Nat.eqb (List.length rankedIds) 0 then ret (Memories [])
  else
    docs <- await_find env (scopeFilter user_id agent_id rankedIds) ;;
    ret (Memories (List.map project (ordered rankedIds docs))).

(** The body [add_memory] and [POST /v1/memories] share once the input is
    accepted. *)
Definition add_body (env : Env) (user_id : string) (agent_id : option string)
  (scope encrypted_text : string) (embedding : Vec) (embedding_model : option string)
  : Handler Reply :=
  let doc := new_doc env user_id agent_id scope encrypted_text embedding embedding_model in
  await_insertOne env doc ;;;
  vectorIndex_upsert (Doc.memory_id doc) embedding ;;;
  ret (MemoryId (Doc.memory_id doc)).

Definition delete_body (env : Env) (user_id memory_id : string) : Handler Reply :=
  await_deleteOne env
    (FAnd (FEq "user_id" (VString user_id)) (FEq "memory_id" (VString memory_id))) ;;;
  vectorIndex_delete memory_id ;;;
  ret Deleted.

(** *** The MCP tools of [registerMcpTools]

    The SDK checks the arguments against the tool's zod schema and calls the
    handler only when they pass. *)

Module AddArgs.
Record t := {
  user_id : string;
  agent_id : option string;
  scope : string;
  encrypted_text : string;
  embedding : Vec;
  embedding_model : option string
}.
End AddArgs.

(** [scope: z.enum(["global", "agent"])], [embedding: z.array(z.number()).min(1)] *)
Definition add_schema (args : AddArgs.t) : bool :=
  (String.eqb (AddArgs.scope args) "global" || String.eqb (AddArgs.scope args) "agent")
  && Nat.leb 1 (List.length (AddArgs.embedding args)).

Definition add_memory (env : Env) (args : AddArgs.t) : Handler Reply :=
  if add_schema args then
    add_body env (AddArgs.user_id args) (AddArgs.agent_id args) (AddArgs.scope args)
      (AddArgs.encrypted_text args) (AddArgs.embedding args) (AddArgs.embedding_model args)
  else ret InvalidParams.

Module SearchArgs.
Record t := {
  user_id : string;
  agent_id : option string;
  query_embedding : Vec;
  top_k : option Z
}.
End SearchArgs.

(** [query_embedding: z.array(z.number()).min(1)],
    [top_k: z.number().int().min(1).max(50).optional().default(5)] *)
Definition search_schema (args : SearchArgs.t) : bool :=
  Nat.leb 1 (List.length (SearchArgs.query_embedding args))
  && match SearchArgs.top_k args with
     | Some k => (1 <=? k)%Z && (k <=? 50)%Z
     | None => true
     end.

Definition search_memories (env : Env) (args : SearchArgs.t) : Handler Reply :=
  if search_schema args then
    let topK := nullish (SearchArgs.top_k args) 5%Z in
    search_body env (SearchArgs.user_id args) (SearchArgs.agent_id args)
      (SearchArgs.query_embedding args) topK
  else ret InvalidParams.

Definition delete_memory (env : Env) (user_id memory_id : string) : Handler Reply :=
  delete_body env user_id memory_id.

(** *** The REST routes of [memoryRoutes]

    A body field is [None] when the key is absent; a JSON value given for an
    embedding is an array of numbers or something else. *)

Inductive JsonEmbedding := NotAnArray | NumberArray (v : Vec).

Module AddBody.
Record t := {
  user_id : option string;
  agent_id : option string;
  scope : option string;
  encrypted_text : option string;
  embedding : option JsonEmbedding;
  embedding_model : option string
}.
End AddBody.

(** [POST /v1/memories] *)
Definition post_memories (env : Env) (body : AddBody.t) : Handler Reply :=
  match AddBody.user_id body with
  | None => ret (ClientError 400 "Missing user_id")
  | Some user_id =>
  match AddBody.scope body with
  | None => ret (ClientError 400 "Missing scope")
  | Some scope =>
  match AddBody.encrypted_text body with
  | None => ret (ClientError 400 "Missing encrypted_text")
  | Some encrypted_text =>
  match AddBody.embedding body with
  | None => ret (ClientError 400 "Missing embedding")
  | Some NotAnArray => ret (ClientError 400 "embedding must be number[]")
  | Some (NumberArray embedding) =>
      if Nat.eqb (List.length embedding) 0
      then ret (ClientError 400 "embedding must be number[]")
      else add_body env user_id (AddBody.agent_id body) scope encrypted_text
             embedding (AddBody.embedding_model body)
  end end end end.

Module SearchBody.
Record t := {
  user_id : option string;
  agent_id : option string;
  query_embedding : option JsonEmbedding;
  top_k : option Z
}.
End SearchBody.

(** [!s] for a string that may be absent. *)
Definition falsy (s : option string) : bool :=
  match s with
  | None => true
  | Some x => String.eqb x ""
  end.

(** [POST /v1/search] *)
Definition post_search (env : Env) (body : SearchBody.t) : Handler Reply :=
  if falsy (SearchBody.user_id body) then ret (ClientError 400 "user_id required")
  else
    match SearchBody.query_embedding body with
    | Some (NumberArray query_embedding) =>
        if Nat.eqb (List.length query_embedding) 0
        then ret (ClientError 400 "query_embedding must be number[]")
        else
          let topK := Z.max 1 (Z.min (nullish (SearchBody.top_k body) 5%Z) 50) in
          search_body env (nullish (SearchBody.user_id body) "")
            (SearchBody.agent_id body) query_embedding topK
    | _ => ret (ClientError 400 "query_embedding must be number[]")
    end.

(** [DELETE /v1/memories/:id] *)
Definition delete_memories (env : Env) (id : string) (user_id : option string)
  : Handler Reply :=
  if falsy user_id then ret (ClientError 400 "user_id required in query")
  else delete_body env (nullish user_id "") id.

(** *** [rebuildLocalVectorIndex], run by [main] before the server listens *)

(** [Array.isArray(d.embedding) && d.embedding.length > 0] *)
Definition indexable (d : Doc.t) : bool :=
  match Doc.embedding d with
  | Some v => Nat.ltb 0 (List.length v)
  | None => false
  end.

Fixpoint for_each {A : Type} (body : A -> Handler unit) (l : list A) : Handler unit :=
  match l with
  | [] => ret tt
  | x :: l' => body x ;;; for_each body l'
  end.

Definition rebuildLocalVectorIndex (env : Env) : Handler unit :=
  vectorIndex_clear ;;;
  docs <- await_find env FAll ;;
  for_each
    (fun d =>
       if indexable d
       then vectorIndex_upsert (Doc.memory_id d) (nullish (Doc.embedding d) [])
       else ret tt)
    docs.

End Server.

(* ===================================================================== *)
(** ** The notions the properties are stated with *)
(* ===================================================================== *)

Module Notions.
Import JsNumber JsArray Vector Mongo Server.
Local Open Scope string_scope.
Local Open Scope list_scope.

(** A binary64 value of sign [s] that is not a zero and not NaN. *)
Definition signed (s : bool) (x : spec_float) : Prop :=
  match x with
  | S754_finite s' _ _ | S754_infinity s' => s' = s
  | _ => False
  end.

(** [a] ranks no lower than [b]. *)
Definition score_ge (a b : Scored) : Prop := (score b <=? score a)%float = true.

(** No score of the list is NaN. *)
Definition no_nan (l : list Scored) : Prop :=
  Forall (fun e => is_nan (score e) = false) l.

(** The entries that tie on the score [s]. *)
Definition tied (s : float) (e : Scored) : bool := (score e =? s)%float.

(** No two different entries of the list tie. *)
Definition tie_free (l : list Scored) : Prop :=
  forall a b, In a l -> In b l -> (score a =? score b)%float = true -> a = b.

(** Some [upsert] of [id] is followed by no [delete] of it and no [clear]. *)
Definition live (id : string) (ops : list Op) : Prop :=
  exists before v after,
    ops = before ++ Upsert id v :: after /\
    Forall (fun o => o <> Delete id /\ o <> Clear) after.

(** One [upsert] per entry, in the order of the list. *)
Definition replay (entries : list (string * Vec)) (map : LocalVectorIndex)
  : LocalVectorIndex :=
  fold_left (fun m e => upsert (fst e) (snd e) m) entries map.

(** The collection's record for an id. *)
Definition by_id (id : string) (c : Collection) : option Doc.t :=
  List.find (fun d => String.eqb (Doc.memory_id d) id) c.

Definition option_eqb (a b : option string) : bool :=
  match a, b with
  | None, None => true
  | Some x, Some y => String.eqb x y
  | _, _ => false
  end.

(** The scope rule: the requester's own record, global or of its agent. *)
Definition eligibleb (user_id : string) (agent_id : option string) (d : Doc.t) : bool :=
  String.eqb (Doc.user_id d) user_id
  && (String.eqb (Doc.scope d) "global"
      || (String.eqb (Doc.scope d) "agent" && option_eqb (Doc.agent_id d) agent_id)).

Definition eligible (user_id : string) (agent_id : option string) (d : Doc.t) : Prop :=
  Doc.user_id d = user_id /\
  (Doc.scope d = "global" \/ (Doc.scope d = "agent" /\ Doc.agent_id d = agent_id)).

(** The stored records of the ranked ids, in rank order. *)
Definition candidates (rankedIds : list string) (c : Collection) : list Doc.t :=
  flat_map (fun id => match by_id id c with Some d => [d] | None => [] end) rankedIds.

(** The ranked ids whose stored record is eligible. *)
Definition eligible_id (u : string) (a : option string) (c : Collection) (id : string) : bool :=
  match by_id id c with
  | Some d => eligibleb u a d
  | None => false
  end.

(** [memory_id] is unique across the collection. *)
Definition unique_ids (c : Collection) : Prop := NoDup (List.map Doc.memory_id c).

(** The fields of a returned memory. *)
Definition view_keys : list string :=
  ["memory_id"; "encrypted_text"; "scope"; "agent_id"; "created_at"; "embedding_model"].

Definition owned_by (user_id memory_id : string) (d : Doc.t) : Prop :=
  Doc.user_id d = user_id /\ Doc.memory_id d = memory_id.

(** What an add leaves: on success the record in the collection and its
    vector in the index; on failure the index as it was, the record being in
    the collection or not; and never a changed index without the record in
    the collection. *)
Definition persisted_first (d : Doc.t) (v : Vec) (w : World) (res : Outcome Reply * World) : Prop :=
  match fst res with
  | Returned r =>
      r = MemoryId (Doc.memory_id d) /\
      exists c, db w = Some c /\ db (snd res) = Some (c ++ [d]) /\
        vectorIndex (snd res) = upsert (Doc.memory_id d) v (vectorIndex w)
  | Threw _ =>
      vectorIndex (snd res) = vectorIndex w /\
      (db (snd res) = db w \/ exists c, db w = Some c /\ db (snd res) = Some (c ++ [d]))
  end /\
  (vectorIndex (snd res) <> vectorIndex w -> exists c, db (snd res) = Some c /\ In d c).

(** The index entry of a stored record. *)
Definition entry (d : Doc.t) : string * Vec := (Doc.memory_id d, nullish (Doc.embedding d) []).

(** The index mirrors the collection: the same ids in the same order, each
    with the embedding of its record. *)
Definition mirrors (w : World) : Prop :=
  exists c, db w = Some c /\ unique_ids c /\
    vectorIndex w = List.map entry c /\
    Forall (fun d => indexable d = true) c.
End Notions.

(* ===================================================================== *)
(** ** Scenarios *)
(* ===================================================================== *)

Module Scenario.
Import Vector Mongo Server.
Local Open Scope string_scope.
Local Open Scope list_scope.

(** The scenario of the specification: [A = [1,0]], [B = [0,1]],
    [C = [0.9,0.1]]. *)
Definition scenario_ops : list Op :=
  [Upsert "A" [1; 0]%float; Upsert "B" [0; 1]%float; Upsert "C" [0.9; 0.1]%float].

(** Three vectors of which the second overflows against the query
    [[1e150, 1]]: its dot product and its norm are both infinite. *)
Definition overflow_ops : list Op :=
  [Upsert "v3" [0; -1]%float; Upsert "v1" [1e200; 0]%float; Upsert "v2" [0; 1]%float].

Definition doc (id user : string) (agent : option string) (scope : string) (v : Vec) : Doc.t :=
  {| Doc.memory_id := id; Doc.user_id := user; Doc.agent_id := agent; Doc.scope := scope;
     Doc.encrypted_text := "ciphertext"; Doc.embedding := Some v;
     Doc.embedding_model := "client"; Doc.embedding_dim := Z.of_nat (List.length v);
     Doc.created_at := 0 |}.

Definition healthy (id : string) : Env := {| uuidv4 := id; now := 0; driver := Healthy |}.

(** The process after [connectMongo] on an empty collection. *)
Definition started : World := {| db := Some []; vectorIndex := [] |}.

(** The world after a handler ran. *)
Definition after {A : Type} (h : Handler A) (w : World) : World := snd (h w).

Definition add_args (user : string) (agent : option string) (scope : string) (v : Vec)
  : AddArgs.t :=
  {| AddArgs.user_id := user; AddArgs.agent_id := agent; AddArgs.scope := scope;
     AddArgs.encrypted_text := "ciphertext"; AddArgs.embedding := v;
     AddArgs.embedding_model := None |}.

Definition search_args (user : string) (agent : option string) (q : Vec) (k : Z)
  : SearchArgs.t :=
  {| SearchArgs.user_id := user; SearchArgs.agent_id := agent;
     SearchArgs.query_embedding := q; SearchArgs.top_k := Some k |}.

(** Bob stores one memory, Alice two; Bob's is the closest to [[1,0]]. *)
Definition shared_world : World :=
  after (add_memory (healthy "r2") (add_args "alice" None "global" [0; 1]%float))
    (after (add_memory (healthy "r1") (add_args "alice" None "global" [0.9; 0.1]%float))
       (after (add_memory (healthy "x1") (add_args "bob" None "global" [1; 0]%float))
          started)).

(** Alice's agent "clerk" stores a private memory and two global ones. *)
Definition agents_world : World :=
  after (add_memory (healthy "g2") (add_args "alice" (Some "clerk") "global" [0; 1]%float))
    (after (add_memory (healthy "g1") (add_args "alice" (Some "clerk") "global" [0.9; 0.1]%float))
       (after (add_memory (healthy "p1") (add_args "alice" (Some "clerk") "agent" [1; 0]%float))
          started)).

(** Two entries that tie against the query [[1; 0]], the first of them
    upserted again later, and one entry that scores higher. *)
Definition ties_ops : list Op :=
  [Upsert "x" [0; 2]%float; Upsert "y" [0; 3]%float; Upsert "z" [2; 0]%float;
   Upsert "x" [0; 5]%float].

(** Against the query [[1e150; 1]]: one low score, five equal higher scores,
    and one vector whose products overflow, so that its score is NaN. *)
Definition nan_ties_ops : list Op :=
  [Upsert "M0" [0; -1]%float; Upsert "H1" [0; 1]%float; Upsert "H2" [0; 1]%float;
   Upsert "H3" [0; 1]%float; Upsert "N4" [1e200; 0]%float; Upsert "H5" [0; 1]%float;
   Upsert "H6" [0; 1]%float].
End Scenario.

(* ===================================================================== *)
(** ** The tool logic of the bootstrap file ([/mcp]) *)
(* ===================================================================== *)

(** The request handler that the bootstrap file sets for [CallToolRequest]:
    [add_memory] embeds a text with the local model and stores it,
    [search_memories] embeds the query and fetches the ranked ids.  It
    writes documents of another shape than the tools of [server.ts] into the
    same collection, so the collection is modelled here with both shapes. *)
Module Bootstrap.
Import Vector Mongo Server.
Local Open Scope string_scope.
Local Open Scope list_scope.

(** The document [add_memory] inserts: [{memory_id, user_id, text,
    embedding, created_at}]. *)
Module Plain.
Record t := {
  memory_id : string;
  user_id : string;
  text : string;
  embedding : Vec;
  created_at : Z
}.
End Plain.

Inductive Document :=
| Encrypted (d : Doc.t)
| Plaintext (p : Plain.t).

(** [d.memory_id], [d.text], [d.created_at] *)
Definition document_id (d : Document) : string :=
  match d with
  | Encrypted d => Doc.memory_id d
  | Plaintext p => Plain.memory_id p
  end.

Definition document_owner (d : Document) : string :=
  match d with
  | Encrypted d => Doc.user_id d
  | Plaintext p => Plain.user_id p
  end.

Definition document_text (d : Document) : option string :=
  match d with
  | Encrypted _ => None
  | Plaintext p => Some (Plain.text p)
  end.

Definition document_created_at (d : Document) : Z :=
  match d with
  | Encrypted d => Doc.created_at d
  | Plaintext p => Plain.created_at p
  end.

(** What a call reads from outside: [randomUUID()], [new Date()], the
    driver, and the embedding model ([None] when the awaited call rejects). *)
Record Env := {
  randomUUID : string;
  now : Z;
  driver : DriverFault;
  embedder : string -> option Vec
}.

Record State := { db : option (list Document); vectorIndex : LocalVectorIndex }.

(** [req.params.arguments as any]; a field the caller left out of a call
    is not read by the branch that serves it. *)
Module Args.
Record t := {
  user_id : string;
  text : string;
  scope : string;
  query_text : string;
  top_k : option Z
}.
End Args.

(** [{ fact: d.text, when: d.created_at }] *)
Record FactView := { fact : option string; when : Z }.

Inductive Answer :=
| Saved
| Facts (facts : list FactView).

(** [find({ memory_id: { $in: ids } })] on the collection, in natural
    order. *)
Definition find_ids (ids : list string) (c : list Document) : list Document :=
  filter (fun d => existsb (String.eqb (document_id d)) ids) c.

Definition view (d : Document) : FactView :=
  {| fact := document_text d; when := document_created_at d |}.

(** [args.top_k || 5]: an absent [top_k] and [0] are falsy. *)
Definition top_k_or_5 (top_k : option Z) : Z :=
  match top_k with
  | None => 5
  | Some k => if (k =? 0)%Z then 5 else k
  end.

(** The branch [req.params.name === "add_memory"]. *)
Definition call_add_memory (env : Env) (args : Args.t) (s : State)
  : Outcome Answer * State :=
  match embedder env (Args.text args) with
  | None => (Threw "embedder", s)
  | Some vector =>
      let doc :=
        Plaintext {| Plain.memory_id := randomUUID env;
                     Plain.user_id := Args.user_id args;
                     Plain.text := Args.text args;
                     Plain.embedding := vector;
                     Plain.created_at := now env |} in
      match db s with
      | None => (Threw "Mongo not initialized", s)
      | Some c =>
          match driver env with
          | FailsBeforeWrite => (Threw "MongoError", s)
          | FailsAfterWrite =>
              (Threw "MongoError", {| db := Some (c ++ [doc]); vectorIndex := vectorIndex s |})
          | Healthy =>
              (Returned Saved,
               {| db := Some (c ++ [doc]);
                  vectorIndex := upsert (randomUUID env) vector (vectorIndex s) |})
          end
      end
  end.

(** The branch [req.params.name === "search_memories"]. *)
Definition call_search_memories (env : Env) (args : Args.t) (s : State)
  : Outcome Answer * State :=
  match embedder env (Args.query_text args) with
  | None => (Threw "embedder", s)
  | Some queryVector =>
      let ranked := search queryVector (top_k_or_5 (Args.top_k args)) (vectorIndex s) in
      let ids := Vector.ids ranked in
      match db s with
      | None => (Threw "Mongo not initialized", s)
      | Some c =>
          match driver env with
          | Healthy => (Returned (Facts (List.map view (find_ids ids c))), s)
          | _ => (Threw "MongoError", s)
          end
      end
  end.

(** The handler of [CallToolRequestSchema]. *)
Definition call_tool (env : Env) (name : string) (args : Args.t) (s : State)
  : Outcome Answer * State :=
  if String.eqb name "add_memory" then call_add_memory env args s
  else if String.eqb name "search_memories" then call_search_memories env args s
  else (Threw "Tool not found", s).
End Bootstrap.

(* ===================================================================== *)
(** ** Sequences of requests *)
(* ===================================================================== *)

Module Requests.
Import Vector Mongo Server Notions.
Local Open Scope string_scope.
Local Open Scope list_scope.

(** A call of one of the tools of [registerMcpTools]. *)
Inductive Request :=
| Add (env : Env) (args : AddArgs.t)
| Search (env : Env) (args : SearchArgs.t)
| Delete (env : Env) (user_id memory_id : string).

(** The state a request leaves. *)
Definition serve (w : World) (r : Request) : World :=
  match r with
  | Add env args => snd (add_memory env args w)
  | Search env args => snd (search_memories env args w)
  | Delete env user_id memory_id => snd (delete_memory env user_id memory_id w)
  end.

(** A request of an orderly run: the driver answers, an add draws an id the
    index does not hold, a delete names a memory of the caller or no stored
    memory. *)
Definition orderly (w : World) (r : Request) : Prop :=
  match r with
  | Add env args =>
      driver env = Healthy /\ add_schema args = true /\
      ~ In (uuidv4 env) (JsMap.keys (vectorIndex w))
  | Search _ _ => True
  | Delete env user_id memory_id =>
      driver env = Healthy /\
      forall d, In d (nullish (db w) []) -> Doc.memory_id d = memory_id ->
                Doc.user_id d = user_id
  end.

Fixpoint orderly_run (w : World) (rs : list Request) : Prop :=
  match rs with
  | [] => True
  | r :: rs' => orderly w r /\ orderly_run (serve w r) rs'
  end.

End Requests.

(* ===================================================================== *)
(** * Properties *)
(* ===================================================================== *)

(** ** Binary64 facts

    The primitive operations are specified by [Prim2SF] into [spec_float];
    the facts below are proved on that specification. *)

Module JsNumberFacts.
Import JsNumber Notions.
Local Open Scope Z_scope.

Lemma digits2_pos_bounds (p : positive) :
  2 ^ (Zpos (digits2_pos p) - 1) <= Zpos p < 2 ^ Zpos (digits2_pos p).
Proof.
  induction p as [p IH | p IH |]; cbn [digits2_pos].
  - rewrite Pos2Z.inj_succ, Z.pow_succ_r by lia.
    replace (Z.succ (Z.pos (digits2_pos p)) - 1) with (Z.succ (Z.pos (digits2_pos p) - 1)) by lia.
    rewrite Z.pow_succ_r by lia. lia.
  - rewrite Pos2Z.inj_succ, Z.pow_succ_r by lia.
    replace (Z.succ (Z.pos (digits2_pos p)) - 1) with (Z.succ (Z.pos (digits2_pos p) - 1)) by lia.
    rewrite Z.pow_succ_r by lia. lia.
  - cbn. lia.
Qed.

Lemma iter_pos_nat {A : Type} (f : A -> A) (p : positive) :
  forall x, iter_pos f p x = Nat.iter (Pos.to_nat p) f x.
Proof.
  induction p as [p IH | p IH |]; intro x; cbn [iter_pos].
  - rewrite !IH, Pos2Nat.inj_xI.
    replace (S (2 * Pos.to_nat p)) with (Pos.to_nat p + S (Pos.to_nat p))%nat by lia.
    rewrite Nat.iter_add, Nat.iter_succ_r. reflexivity.
  - rewrite !IH, Pos2Nat.inj_xO.
    replace (2 * Pos.to_nat p)%nat with (Pos.to_nat p + Pos.to_nat p)%nat by lia.
    rewrite Nat.iter_add. reflexivity.
  - reflexivity.
Qed.

Lemma shr_1_m (r : shr_record) : 0 <= shr_m r -> shr_m (shr_1 r) = Z.div2 (shr_m r).
Proof.
  destruct r as [m b s]; cbn [shr_m]; intro H.
  destruct m as [| [p | p |] | p]; try reflexivity; lia.
Qed.

Lemma shr_iter_pos (n : nat) :
  forall r, 2 ^ Z.of_nat n <= shr_m r -> 1 <= shr_m (Nat.iter n shr_1 r).
Proof.
  induction n as [| n IH]; intros r H.
  - cbn in *. lia.
  - rewrite Nat.iter_succ_r. apply IH.
    assert (0 < 2 ^ Z.of_nat n) by (apply Z.pow_pos_nonneg; lia).
    rewrite Nat2Z.inj_succ, Z.pow_succ_r in H by lia.
    rewrite shr_1_m by lia. rewrite Z.div2_div.
    apply Z.div_le_lower_bound; lia.
Qed.

Abbreviation emin64 := (-1074).

Lemma fexp64 (e : Z) : fexp prec emax e = Z.max (e - 53) emin64.
Proof. reflexivity. Qed.

Lemma shr_record_of_loc_m m l : shr_m (shr_record_of_loc m l) = m.
Proof. destruct l as [| []]; reflexivity. Qed.

Lemma shr_fexp_pos (m e : Z) (l : location) :
  0 < m -> emin64 <= e ->
  0 < shr_m (fst (shr_fexp prec emax m e l)) /\ emin64 <= snd (shr_fexp prec emax m e l).
Proof.
  intros Hm He. unfold shr_fexp, shr. rewrite fexp64.
  destruct m as [| p | p]; try lia. cbn [Zdigits2].
  pose proof (digits2_pos_bounds p) as Hd.
  set (d := Z.pos (digits2_pos p)) in *.
  destruct (Z.max (d + e - 53) emin64 - e) as [| n | n] eqn:En; cbn [fst snd];
    rewrite ?shr_record_of_loc_m; try lia.
  split; [| lia].
  rewrite iter_pos_nat.
  enough (1 <= shr_m (Nat.iter (Pos.to_nat n) shr_1 (shr_record_of_loc (Z.pos p) l))) by lia.
  apply shr_iter_pos. rewrite shr_record_of_loc_m, positive_nat_Z.
  assert (Z.pos n = d - 53) by lia.
  transitivity (2 ^ (d - 1)); [| lia].
  apply Z.pow_le_mono_r; lia.
Qed.

Lemma round_nearest_even_ge m l : m <= round_nearest_even m l.
Proof. destruct l as [| []]; cbn; try lia. destruct (Z.even m); lia. Qed.

Lemma binary_round_aux_signed (s : bool) (m e : Z) (l : location) :
  0 < m -> emin64 <= e -> signed s (binary_round_aux prec emax s m e l).
Proof.
  intros Hm He. unfold binary_round_aux.
  pose proof (shr_fexp_pos m e l Hm He) as [H1 H2].
  destruct (shr_fexp prec emax m e l) as [r1 e1]. cbn [fst snd] in *.
  pose proof (round_nearest_even_ge (shr_m r1) (loc_of_shr_record r1)) as Hr.
  assert (Hm2 : 0 < round_nearest_even (shr_m r1) (loc_of_shr_record r1)) by lia.
  pose proof (shr_fexp_pos _ e1 loc_Exact Hm2 H2) as [H3 _].
  destruct (shr_fexp prec emax _ e1 loc_Exact) as [r2 e2]. cbn [fst snd] in *.
  destruct (shr_m r2); try lia.
  destruct (e2 <=? emax - prec); reflexivity.
Qed.

Lemma binary_round_signed (s : bool) (m : positive) (e : Z) :
  emin64 <= e -> signed s (binary_round prec emax s m e).
Proof.
  intro He. unfold binary_round, shl_align. rewrite fexp64.
  destruct (Z.max (Z.pos (digits2_pos m) + e - 53) emin64 - e) eqn:E;
    apply binary_round_aux_signed; lia.
Qed.

Lemma iter_xO_val (d m : positive) : Zpos (Pos.iter xO m d) = Zpos m * 2 ^ Zpos d.
Proof.
  induction d as [| d IH] using Pos.peano_ind.
  - cbn. lia.
  - rewrite Pos.iter_succ, Pos2Z.inj_xO, IH, Pos2Z.inj_succ, Z.pow_succ_r by lia. lia.
Qed.

Lemma shl_align_val (m : positive) (e ez : Z) :
  ez <= e -> Zpos (fst (shl_align m e ez)) = Zpos m * 2 ^ (e - ez).
Proof.
  intro H. unfold shl_align.
  destruct (ez - e) as [| d | d] eqn:E; cbn [fst]; try lia.
  - replace (e - ez) with 0 by lia. lia.
  - rewrite iter_xO_val. f_equal. f_equal. lia.
Qed.

Lemma bounded_canonical (m : positive) (e : Z) :
  bounded prec emax m e = true ->
  emin64 <= e /\ Zpos m < 2 ^ 53 /\ (emin64 < e -> 2 ^ 52 <= Zpos m).
Proof.
  unfold bounded, canonical_mantissa. rewrite fexp64.
  intro H. apply andb_true_iff in H as [H _]. apply Z.eqb_eq in H.
  pose proof (digits2_pos_bounds m) as Hd.
  set (d := Z.pos (digits2_pos m)) in *.
  assert (Hd53 : d <= 53) by lia.
  repeat split; try lia.
  - eapply Z.lt_le_trans; [apply Hd |]. apply Z.pow_le_mono_r; lia.
  - intro He. assert (d = 53) by lia. subst d. rewrite H0 in Hd. apply Hd.
Qed.

(** Magnitudes of two canonical binary64 numbers, aligned on the smaller
    exponent, compare like (exponent, mantissa) pairs. *)
Lemma aligned_compare (mx my : positive) (ex ey : Z) :
  bounded prec emax mx ex = true -> bounded prec emax my ey = true ->
  let ez := Z.min ey ex in
  (Zpos (fst (shl_align mx ex ez)) ?= Zpos (fst (shl_align my ey ez))) =
  match ex ?= ey with
  | Lt => Lt
  | Gt => Gt
  | Eq => Pos.compare_cont Eq mx my
  end.
Proof.
  intros Hx Hy ez. subst ez.
  apply bounded_canonical in Hx as (Hx1 & Hx2 & Hx3).
  apply bounded_canonical in Hy as (Hy1 & Hy2 & Hy3).
  rewrite !shl_align_val by lia.
  destruct (Z.compare_spec ex ey) as [E | E | E].
  - subst ey. rewrite Z.min_id, Z.sub_diag. cbn [Z.pow]. rewrite !Z.mul_1_r. reflexivity.
  - rewrite Z.min_r by lia. rewrite Z.sub_diag, Z.pow_0_r, Z.mul_1_r.
    apply Z.compare_lt_iff.
    assert (2 ^ 1 <= 2 ^ (ey - ex)) by (apply Z.pow_le_mono_r; lia).
    specialize (Hy3 ltac:(lia)). change (2 ^ 1) with 2 in *. nia.
  - rewrite Z.min_l by lia. rewrite Z.sub_diag, Z.pow_0_r, Z.mul_1_r.
    apply Z.compare_gt_iff.
    assert (2 ^ 1 <= 2 ^ (ex - ey)) by (apply Z.pow_le_mono_r; lia).
    specialize (Hx3 ltac:(lia)). change (2 ^ 1) with 2 in *. nia.
Qed.

Lemma binary_normalize_ltb0 (M e : Z) :
  emin64 <= e ->
  SFltb (S754_zero false) (binary_normalize prec emax M e false) = (0 <? M).
Proof.
  intro He. destruct M as [| p | p]; cbn [binary_normalize].
  - reflexivity.
  - pose proof (binary_round_signed false p e He) as H.
    destruct (binary_round prec emax false p e); cbn in H; try contradiction; subst; reflexivity.
  - pose proof (binary_round_signed true p e He) as H.
    destruct (binary_round prec emax true p e); cbn in H; try contradiction; subst; reflexivity.
Qed.

(** The specification-level fact behind the sort comparator: the sign test
    [0 < y - x] agrees with [x < y], NaN and equal infinities included. *)
Lemma SFsub_pos_ltb (x y : spec_float) :
  valid_binary x = true -> valid_binary y = true ->
  SFltb (S754_zero false) (SF64sub y x) = SFltb x y.
Proof.
  intros Hx Hy.
  destruct x as [sx | sx | | sx mx ex], y as [sy | sy | | sy my ey];
    try reflexivity;
    try (destruct sx; try destruct sy; reflexivity);
    try (destruct sy; reflexivity).
  cbn [valid_binary] in Hx, Hy.
  unfold SF64sub, SFsub.
  pose proof (bounded_canonical _ _ Hx) as (Hx1 & _).
  pose proof (bounded_canonical _ _ Hy) as (Hy1 & _).
  rewrite binary_normalize_ltb0 by lia.
  pose proof (aligned_compare mx my ex ey Hx Hy) as Hc. cbn zeta in Hc.
  set (ax := Z.pos (fst (shl_align mx ex (Z.min ey ex)))) in *.
  set (ay := Z.pos (fst (shl_align my ey (Z.min ey ex)))) in *.
  assert (0 < ax) by (subst ax; lia). assert (0 < ay) by (subst ay; lia).
  unfold SFltb, SFcompare.
  destruct sx, sy; cbn [cond_Zopp];
    match goal with
    | |- (0 <? ?M) = _ => destruct (Z.ltb_spec 0 M)
    end;
    try (exfalso; lia); try reflexivity;
    revert Hc; destruct (Z.compare_spec ex ey); intro Hc;
    rewrite ?Z.compare_lt_iff, ?Z.compare_gt_iff in Hc;
    try (exfalso; lia); try reflexivity;
    rewrite <- Hc; destruct (Z.compare_spec ax ay); cbn [CompOpp];
    try reflexivity; exfalso; lia.
Qed.

Lemma binary_normalize_ltb0_neg (M e : Z) :
  emin64 <= e ->
  SFltb (binary_normalize prec emax M e false) (S754_zero false) = (M <? 0).
Proof.
  intro He. destruct M as [| p | p]; cbn [binary_normalize].
  - reflexivity.
  - pose proof (binary_round_signed false p e He) as H.
    destruct (binary_round prec emax false p e); cbn in H; try contradiction; subst; reflexivity.
  - pose proof (binary_round_signed true p e He) as H.
    destruct (binary_round prec emax true p e); cbn in H; try contradiction; subst; reflexivity.
Qed.

(** The other sign test of the sort: [y - x < 0] agrees with [y < x]. *)
Lemma SFsub_neg_ltb (x y : spec_float) :
  valid_binary x = true -> valid_binary y = true ->
  SFltb (SF64sub y x) (S754_zero false) = SFltb y x.
Proof.
  intros Hx Hy.
  destruct x as [sx | sx | | sx mx ex], y as [sy | sy | | sy my ey];
    try reflexivity;
    try (destruct sx; try destruct sy; reflexivity);
    try (destruct sy; reflexivity).
  cbn [valid_binary] in Hx, Hy.
  unfold SF64sub, SFsub.
  pose proof (bounded_canonical _ _ Hx) as (Hx1 & _).
  pose proof (bounded_canonical _ _ Hy) as (Hy1 & _).
  rewrite binary_normalize_ltb0_neg by lia.
  pose proof (aligned_compare my mx ey ex Hy Hx) as Hc. cbn zeta in Hc.
  rewrite (Z.min_comm ex ey) in Hc.
  set (ax := Z.pos (fst (shl_align mx ex (Z.min ey ex)))) in *.
  set (ay := Z.pos (fst (shl_align my ey (Z.min ey ex)))) in *.
  assert (0 < ax) by (subst ax; lia). assert (0 < ay) by (subst ay; lia).
  unfold SFltb, SFcompare.
  destruct sx, sy; cbn [cond_Zopp];
    match goal with
    | |- (?M <? 0) = _ => destruct (Z.ltb_spec M 0)
    end;
    try (exfalso; lia); try reflexivity;
    revert Hc; destruct (Z.compare_spec ey ex); intro Hc;
    rewrite ?Z.compare_lt_iff, ?Z.compare_gt_iff in Hc;
    try (exfalso; lia); try reflexivity;
    rewrite <- Hc; destruct (Z.compare_spec ay ax); cbn [CompOpp];
    try reflexivity; exfalso; lia.
Qed.

Ltac sf_cases :=
  repeat match goal with
  | x : spec_float |- _ => destruct x as [[] | [] | | [] ? ?]
  end;
  unfold SFleb, SFltb, SFeqb, SFcompare in *;
  try rewrite !Pos.compare_cont_spec in *; cbn [Pos.switch_Eq] in *;
  repeat match goal with
  | H : context [Z.compare ?a ?b] |- _ => revert H
  end;
  repeat match goal with
  | |- context [Z.compare ?a ?b] => destruct (Z.compare_spec a b)
  end;
  repeat match goal with
  | |- context [Pos.compare ?a ?b] => destruct (Pos.compare_spec a b)
  end;
  cbn [CompOpp]; intros; subst; try reflexivity; try discriminate; try lia.

Lemma SFleb_trans (x y z : spec_float) :
  SFleb x y = true -> SFleb y z = true -> SFleb x z = true.
Proof. sf_cases. Qed.

Local Open Scope float_scope.

Theorem sub_pos_ltb (x y : float) : (0 <? y - x) = (x <? y).
Proof.
  rewrite !ltb_spec, sub_spec.
  apply SFsub_pos_ltb; apply Prim2SF_valid.
Qed.

Theorem sub_neg_ltb (x y : float) : (y - x <? 0) = (y <? x).
Proof.
  rewrite !ltb_spec, sub_spec.
  apply SFsub_neg_ltb; apply Prim2SF_valid.
Qed.

Lemma SFltb_trans (x y z : spec_float) :
  SFltb x y = true -> SFltb y z = true -> SFltb x z = true.
Proof. sf_cases. Qed.

Lemma ltb_trans (x y z : float) :
  (x <? y) = true -> (y <? z) = true -> (x <? z) = true.
Proof. rewrite !ltb_spec. apply SFltb_trans. Qed.

Lemma SFleb_ltb_trans (x y z : spec_float) :
  SFleb x y = true -> SFltb y z = true -> SFltb x z = true.
Proof. sf_cases. Qed.

Lemma leb_ltb_trans (x y z : float) :
  (x <=? y) = true -> (y <? z) = true -> (x <? z) = true.
Proof. rewrite leb_spec, !ltb_spec. apply SFleb_ltb_trans. Qed.

Lemma ltb_leb (x y : float) : (x <? y) = true -> (x <=? y) = true.
Proof.
  rewrite ltb_spec, leb_spec. generalize (Prim2SF x) (Prim2SF y).
  intros a b. unfold SFltb, SFleb. destruct (SFcompare a b) as [[] |]; easy.
Qed.

Lemma leb_trans (x y z : float) :
  (x <=? y) = true -> (y <=? z) = true -> (x <=? z) = true.
Proof. rewrite !leb_spec. apply SFleb_trans. Qed.

Lemma SFeqb_refl (x : spec_float) : x <> S754_nan -> SFeqb x x = true.
Proof.
  destruct x as [[] | [] | | [] m e]; try easy; intros _;
    unfold SFeqb, SFcompare; rewrite Z.compare_refl, Pos.compare_cont_refl; reflexivity.
Qed.

Lemma is_nan_spec (x : float) : is_nan x = true <-> Prim2SF x = S754_nan.
Proof.
  unfold is_nan. rewrite eqb_spec. split.
  - intro H. destruct (Prim2SF x) eqn:E; try reflexivity;
      rewrite SFeqb_refl in H by discriminate; discriminate.
  - intros ->. reflexivity.
Qed.

(** For a number that is not NaN, [0 <= v] is the negation of [v < 0]. *)
Lemma zero_leb_ltb (v : float) : is_nan v = false -> (0 <=? v) = negb (v <? 0).
Proof.
  intro H. assert (N : Prim2SF v <> S754_nan)
    by (intro E; apply is_nan_spec in E; congruence).
  rewrite leb_spec, ltb_spec. change (Prim2SF 0) with (S754_zero false).
  destruct (Prim2SF v) as [[] | [] | | [] m e]; try congruence; reflexivity.
Qed.

Lemma SFcompare_flip (x y : spec_float) :
  SFcompare y x = option_map CompOpp (SFcompare x y).
Proof.
  destruct x as [[] | [] | | [] mx ex], y as [[] | [] | | [] my ey]; try reflexivity;
    unfold SFcompare; rewrite (Z.compare_antisym ex ey);
    destruct (ex ?= ey)%Z eqn:E; cbn [CompOpp option_map]; try reflexivity;
    rewrite (Pos.compare_cont_antisym mx my Eq); cbn [CompOpp];
    rewrite ?CompOpp_involutive; reflexivity.
Qed.

Lemma not_ltb_leb (x y : float) :
  is_nan x = false -> is_nan y = false -> (x <? y) = false -> (y <=? x) = true.
Proof.
  intros Hx Hy. rewrite ltb_spec, leb_spec.
  assert (Prim2SF x <> S754_nan) as Nx
    by (intro E; apply is_nan_spec in E; congruence).
  assert (Prim2SF y <> S754_nan) as Ny
    by (intro E; apply is_nan_spec in E; congruence).
  unfold SFltb, SFleb. rewrite (SFcompare_flip (Prim2SF x) (Prim2SF y)).
  destruct (Prim2SF x) as [[] | [] | | [] mx ex], (Prim2SF y) as [[] | [] | | [] my ey];
    try congruence; try (cbn; congruence);
    destruct (SFcompare _ _) as [[] |] eqn:E; cbn; try congruence;
    cbn in E; discriminate.
Qed.

Lemma SFeqb_ltb_class (x y s : spec_float) :
  SFltb x y = true -> SFeqb x s = true -> SFeqb y s = false.
Proof. sf_cases. Qed.

(** An element that [x] is strictly below is not tied with [x]. *)
Lemma ltb_eqb_class (x y s : float) :
  (x <? y) = true -> (x =? s) = true -> (y =? s) = false.
Proof. rewrite ltb_spec, !eqb_spec. apply SFeqb_ltb_class. Qed.

Lemma SFleb_antisym (x y : spec_float) :
  SFleb x y = true -> SFleb y x = true -> SFeqb x y = true.
Proof. sf_cases. Qed.

Lemma leb_antisym (x y : float) :
  (x <=? y) = true -> (y <=? x) = true -> (x =? y) = true.
Proof. rewrite !leb_spec, eqb_spec. apply SFleb_antisym. Qed.

Lemma leb_nan_l (x y : float) : (x <=? y) = true -> is_nan x = false.
Proof.
  rewrite leb_spec. intro H. destruct (is_nan x) eqn:E; [| reflexivity].
  apply is_nan_spec in E. rewrite E in H. discriminate.
Qed.

Lemma leb_nan_r (x y : float) : (x <=? y) = true -> is_nan y = false.
Proof.
  rewrite leb_spec. intro H. destruct (is_nan y) eqn:E; [| reflexivity].
  apply is_nan_spec in E. rewrite E in H.
  destruct (Prim2SF x) as [[] | [] | | [] ? ?]; discriminate.
Qed.

End JsNumberFacts.

(* ===================================================================== *)
(** ** Facts on [slice], [sort] and [Map] *)
(* ===================================================================== *)

Module JsArrayFacts.
Import JsNumber JsArray JsNumberFacts.

Section Slice.
Context {A : Type}.

Lemma slice0_firstn (l : list A) (k : Z) : exists n, slice0 l k = firstn n l.
Proof. unfold slice0. eexists. reflexivity. Qed.

Lemma slice0_length_le (l : list A) (k : Z) :
  (0 <= k)%Z -> (Z.of_nat (List.length (slice0 l k)) <= k)%Z.
Proof.
  intro Hk. unfold slice0.
  destruct (Z.ltb_spec k 0) as [H | H]; [lia |].
  rewrite length_firstn. lia.
Qed.

Lemma slice0_all (l : list A) (k : Z) :
  (Z.of_nat (List.length l) <= k)%Z -> slice0 l k = l.
Proof.
  intro Hk. unfold slice0.
  destruct (Z.ltb_spec k 0) as [H | H]; [lia |].
  apply firstn_all2. lia.
Qed.

Lemma slice0_prefix (l : list A) (k : Z) : exists rest, l = slice0 l k ++ rest.
Proof.
  destruct (slice0_firstn l k) as [n ->].
  exists (skipn n l). symmetry. apply firstn_skipn.
Qed.

Lemma slice0_In (l : list A) (k : Z) (x : A) : In x (slice0 l k) -> In x l.
Proof.
  destruct (slice0_prefix l k) as [rest E]. intro H.
  rewrite E. apply in_or_app. now left.
Qed.

Lemma StronglySorted_app_l (R : A -> A -> Prop) (l1 l2 : list A) :
  StronglySorted R (l1 ++ l2) -> StronglySorted R l1.
Proof.
  induction l1 as [| x l1 IH]; cbn; intro H.
  - constructor.
  - inversion H as [| ? ? Hs Hf]; subst. constructor.
    + now apply IH.
    + apply Forall_app in Hf. apply Hf.
Qed.

Lemma slice0_sorted (R : A -> A -> Prop) (l : list A) (k : Z) :
  StronglySorted R l -> StronglySorted R (slice0 l k).
Proof.
  destruct (slice0_prefix l k) as [rest E]. intro H.
  rewrite E in H. now apply StronglySorted_app_l in H.
Qed.

Lemma filter_prefix (f : A -> bool) (l1 l2 : list A) :
  (exists rest, l2 = l1 ++ rest) -> exists rest, filter f l2 = filter f l1 ++ rest.
Proof. intros [rest ->]. exists (filter f rest). apply filter_app. Qed.
End Slice.

Section Sort.
Context {A : Type}.
Variable comparefn : A -> A -> float.

Lemma nan_not_positive (v : float) : is_nan v = true -> (0 <? v)%float = false.
Proof.
  intro H. apply is_nan_spec in H. rewrite ltb_spec, H. reflexivity.
Qed.

(** Reading NaN as +0 does not change the test [v > 0]. *)
Lemma SortCompare_positive (x y : A) :
  (0 <? SortCompare comparefn x y)%float = (0 <? comparefn x y)%float.
Proof.
  unfold SortCompare. destruct (is_nan (comparefn x y)) eqn:E; [| reflexivity].
  rewrite (nan_not_positive _ E). reflexivity.
Qed.

Lemma nan_not_negative (v : float) : is_nan v = true -> (v <? 0)%float = false.
Proof.
  intro H. apply is_nan_spec in H. rewrite ltb_spec, H. reflexivity.
Qed.

(** Reading NaN as +0 does not change the test [v < 0] either, and makes
    [v >= 0] its negation. *)
Lemma SortCompare_negative (x y : A) :
  (SortCompare comparefn x y <? 0)%float = (comparefn x y <? 0)%float.
Proof.
  unfold SortCompare. destruct (is_nan (comparefn x y)) eqn:E; [| reflexivity].
  rewrite (nan_not_negative _ E). reflexivity.
Qed.

Lemma SortCompare_nonnegative (x y : A) :
  (0 <=? SortCompare comparefn x y)%float = negb (comparefn x y <? 0)%float.
Proof.
  unfold SortCompare. destruct (is_nan (comparefn x y)) eqn:E.
  - rewrite (nan_not_negative _ E). reflexivity.
  - now apply zero_leb_ltb.
Qed.

(** [CountAndMakeRun] cuts the array in two. *)
Lemma extendRun_app (d : bool) (l : list A) :
  forall p, l = fst (extendRun comparefn d p l) ++ snd (extendRun comparefn d p l).
Proof.
  induction l as [| c l IH]; intro p; cbn [extendRun]; [reflexivity |].
  destruct (if d then _ else _); [reflexivity |].
  specialize (IH c). destruct (extendRun comparefn d c l) as [run rest].
  cbn [fst snd app] in *. now f_equal.
Qed.

Lemma countAndMakeRun_perm (l : list A) :
  exists prefix,
    l = prefix ++ snd (countAndMakeRun comparefn l) /\
    Permutation (fst (countAndMakeRun comparefn l)) prefix.
Proof.
  destruct l as [| x [| y l]]; cbn [countAndMakeRun].
  - exists []. split; reflexivity.
  - exists [x]. split; reflexivity.
  - pose proof (extendRun_app (SortCompare comparefn y x <? 0)%float l y) as E.
    destruct (extendRun comparefn _ y l) as [run rest]. cbn [fst snd] in *.
    exists (x :: y :: run). split; [now rewrite E at 1 |].
    destruct (SortCompare comparefn y x <? 0)%float; [| reflexivity].
    symmetry. apply Permutation_rev.
Qed.

(** The binary search stops by itself: more steps than [right - left]
    change nothing. *)
Lemma insertionPoint_steps (pivot : A) (a : list A) (n : nat) :
  forall m left right,
    (right - left <= n)%nat -> (right - left <= m)%nat ->
    insertionPoint comparefn n pivot a left right =
    insertionPoint comparefn m pivot a left right.
Proof.
  induction n as [| n IH]; intros m left right Hn Hm.
  - destruct m as [| m]; [reflexivity |]. cbn [insertionPoint].
    destruct (Nat.ltb_spec left right); [lia | reflexivity].
  - destruct m as [| m]; cbn [insertionPoint].
    + destruct (Nat.ltb_spec left right); [lia | reflexivity].
    + destruct (Nat.ltb_spec left right) as [Hlt | Hge]; [| reflexivity].
      assert (Hd : (Nat.div2 (right - left) < right - left)%nat)
        by (apply Nat.lt_div2; lia).
      set (half := Nat.div2 (right - left)) in *.
      destruct (SortCompare comparefn pivot _ <? 0)%float; apply IH; lia.
Qed.

(** On an array whose first part holds the elements that [pivot] does not
    go before, the search finds the end of that part. *)
Lemma insertionPoint_partition (pivot : A) (a1 a2 : list A) :
  Forall (fun e => (SortCompare comparefn pivot e <? 0)%float = false) a1 ->
  Forall (fun e => (SortCompare comparefn pivot e <? 0)%float = true) a2 ->
  forall steps left right,
    (left <= List.length a1 <= right)%nat -> (right <= List.length (a1 ++ a2))%nat ->
    (right - left <= steps)%nat ->
    insertionPoint comparefn steps pivot (a1 ++ a2) left right = List.length a1.
Proof.
  intros H1 H2. induction steps as [| steps IH]; intros left right Hl Hr Hs.
  - cbn [insertionPoint]. lia.
  - cbn [insertionPoint].
    destruct (Nat.ltb_spec left right) as [Hlt | Hge]; [| lia].
    assert (Hd : (Nat.div2 (right - left) < right - left)%nat)
      by (apply Nat.lt_div2; lia).
    set (half := Nat.div2 (right - left)) in *.
    set (mid := (left + half)%nat) in *.
    destruct (Nat.lt_ge_cases mid (List.length a1)) as [Hm | Hm].
    + rewrite app_nth1 by assumption.
      rewrite Forall_forall in H1. rewrite (H1 (nth mid a1 pivot)) by now apply nth_In.
      apply IH; lia.
    + rewrite app_nth2 by assumption.
      rewrite length_app in Hr.
      rewrite Forall_forall in H2.
      rewrite (H2 (nth (mid - List.length a1) a2 pivot)) by (apply nth_In; lia).
      apply IH; rewrite ?length_app; lia.
Qed.

Lemma insertPivot_partition (pivot : A) (a1 a2 : list A) :
  Forall (fun e => (SortCompare comparefn pivot e <? 0)%float = false) a1 ->
  Forall (fun e => (SortCompare comparefn pivot e <? 0)%float = true) a2 ->
  insertPivot comparefn (a1 ++ a2) pivot = a1 ++ pivot :: a2.
Proof.
  intros H1 H2. unfold insertPivot.
  rewrite (insertionPoint_partition pivot a1 a2 H1 H2) by (rewrite ?length_app; lia).
  rewrite firstn_app, skipn_app, Nat.sub_diag, firstn_all, skipn_all.
  cbn. now rewrite app_nil_r.
Qed.

Lemma insertPivot_perm (a : list A) (pivot : A) :
  Permutation (insertPivot comparefn a pivot) (a ++ [pivot]).
Proof.
  unfold insertPivot. set (left := insertionPoint _ _ _ _ _ _).
  rewrite <- (firstn_skipn left a) at 3. rewrite <- app_assoc.
  apply Permutation_app_head. cbn. apply Permutation_cons_append.
Qed.

Lemma binaryInsertionSort_perm (rest : list A) :
  forall run, Permutation (binaryInsertionSort comparefn run rest) (run ++ rest).
Proof.
  induction rest as [| p rest IH]; intro run; cbn [binaryInsertionSort fold_left].
  - now rewrite app_nil_r.
  - fold (binaryInsertionSort comparefn (insertPivot comparefn run p) rest).
    rewrite IH, insertPivot_perm, <- app_assoc. reflexivity.
Qed.

Lemma sort_perm (l : list A) : Permutation (sort comparefn l) l.
Proof.
  unfold sort. destruct (countAndMakeRun_perm l) as (prefix & E & Hp).
  destruct (countAndMakeRun comparefn l) as [run rest]. cbn [fst snd] in *.
  rewrite binaryInsertionSort_perm, Hp, <- E. reflexivity.
Qed.

Lemma sort_length (l : list A) : List.length (sort comparefn l) = List.length l.
Proof. apply Permutation_length, sort_perm. Qed.

Lemma Forall_perm (P : A -> Prop) (l l' : list A) :
  Permutation l l' -> Forall P l -> Forall P l'.
Proof.
  intros Hp Hf. apply Forall_forall. intros x Hx.
  rewrite Forall_forall in Hf. apply Hf.
  apply (Permutation_in _ (Permutation_sym Hp) Hx).
Qed.
End Sort.
End JsArrayFacts.

Module JsMapFacts.
Section Map.
Context {V : Type}.
Implicit Types (m : JsMap.t V) (k : string) (v : V).

Lemma keys_set m k v k' :
  In k' (JsMap.keys (JsMap.set k v m)) <-> k' = k \/ In k' (JsMap.keys m).
Proof.
  induction m as [| [k0 v0] m IH]; cbn.
  - intuition.
  - destruct (String.eqb_spec k0 k) as [-> | Hne]; cbn.
    + intuition.
    + rewrite IH. intuition.
Qed.

Lemma keys_delete m k k' :
  In k' (JsMap.keys (JsMap.delete k m)) <-> k' <> k /\ In k' (JsMap.keys m).
Proof.
  unfold JsMap.keys, JsMap.delete. rewrite in_map_iff. split.
  - intros [[k0 v0] [<- H]]. apply filter_In in H as [H1 H2]. cbn in *.
    split.
    + destruct (String.eqb_spec k0 k); [discriminate | assumption].
    + apply in_map_iff. now exists (k0, v0).
  - intros [Hne H]. apply in_map_iff in H as [[k0 v0] [<- H]]. cbn in *.
    exists (k0, v0). split; [reflexivity |]. apply filter_In. split; [assumption |].
    cbn. destruct (String.eqb_spec k0 k); [contradiction | reflexivity].
Qed.

Lemma set_absent m k v : ~ In k (JsMap.keys m) -> JsMap.set k v m = m ++ [(k, v)].
Proof.
  induction m as [| [k0 v0] m IH]; cbn; intro H.
  - reflexivity.
  - destruct (String.eqb_spec k0 k) as [-> | Hne].
    + exfalso. apply H. now left.
    + rewrite IH; [reflexivity |]. intro Hin. apply H. now right.
Qed.

Lemma keys_set_present m k v :
  In k (JsMap.keys m) -> JsMap.keys (JsMap.set k v m) = JsMap.keys m.
Proof.
  induction m as [| [k0 v0] m IH]; cbn; intro H.
  - contradiction.
  - destruct (String.eqb_spec k0 k) as [-> | Hne]; cbn.
    + reflexivity.
    + f_equal. apply IH. destruct H; [contradiction | assumption].
Qed.

Lemma NoDup_keys_set m k v : NoDup (JsMap.keys m) -> NoDup (JsMap.keys (JsMap.set k v m)).
Proof.
  intro H. destruct (in_dec string_dec k (JsMap.keys m)) as [Hin | Hout].
  - now rewrite keys_set_present.
  - rewrite set_absent by assumption. unfold JsMap.keys in *. rewrite map_app. cbn.
    apply NoDup_app; [assumption | repeat constructor; intros [] |].
    intros x Hx Hx'. destruct Hx' as [<- | []]. contradiction.
Qed.

Lemma NoDup_keys_delete m k : NoDup (JsMap.keys m) -> NoDup (JsMap.keys (JsMap.delete k m)).
Proof.
  unfold JsMap.keys, JsMap.delete. induction m as [| [k0 v0] m IH]; cbn; intro H.
  - constructor.
  - inversion H as [| ? ? Hn Hd]; subst.
    destruct (String.eqb_spec k0 k); cbn.
    + now apply IH.
    + constructor; [| now apply IH].
      intro Hin. apply Hn. apply in_map_iff in Hin as [e [E He]].
      apply filter_In in He as [He _]. apply in_map_iff. now exists e.
Qed.

Lemma get_set m k v k' :
  JsMap.get k' (JsMap.set k v m) = if String.eqb k k' then Some v else JsMap.get k' m.
Proof.
  induction m as [| [k0 v0] m IH]; cbn.
  - reflexivity.
  - destruct (String.eqb_spec k0 k) as [-> | Hne]; cbn.
    + destruct (String.eqb k k'); reflexivity.
    + rewrite IH. destruct (String.eqb_spec k0 k') as [-> | Hne'].
      * destruct (String.eqb_spec k k'); [congruence | reflexivity].
      * reflexivity.
Qed.

(** Setting the entries of a map again, in iteration order, after the
    entries already present, changes nothing. *)
Lemma replay_app (m acc : JsMap.t V) :
  NoDup (JsMap.keys (acc ++ m)) ->
  fold_left (fun a e => JsMap.set (fst e) (snd e) a) m acc = acc ++ m.
Proof.
  revert acc. induction m as [| [k v] m IH]; intros acc H; cbn.
  - now rewrite app_nil_r.
  - assert (Hout : ~ In k (JsMap.keys acc)).
    { unfold JsMap.keys in *. rewrite map_app in H. cbn in H.
      apply NoDup_remove_2 in H. intro Hin. apply H, in_or_app. now left. }
    rewrite set_absent by assumption.
    rewrite IH; rewrite <- app_assoc; [reflexivity | exact H].
Qed.

Lemma In_get m k v : NoDup (JsMap.keys m) -> In (k, v) m -> JsMap.get k m = Some v.
Proof.
  unfold JsMap.keys. induction m as [| [k0 v0] m IH]; cbn; intros Hn Hin; [contradiction |].
  inversion Hn as [| ? ? Hout Hn']; subst.
  destruct Hin as [E | Hin].
  - injection E as -> ->. now rewrite String.eqb_refl.
  - destruct (String.eqb_spec k0 k) as [-> | _]; [| now apply IH].
    exfalso. apply Hout. apply in_map_iff. now exists (k, v).
Qed.

Lemma of_entries_id m : NoDup (JsMap.keys m) -> JsMap.of_entries m = m.
Proof. intro H. unfold JsMap.of_entries. now rewrite replay_app. Qed.
End Map.
End JsMapFacts.

(* ===================================================================== *)
(** ** The vector index *)
(* ===================================================================== *)

Module VectorFacts.
Import JsNumber JsArray Vector Notions JsNumberFacts JsArrayFacts JsMapFacts.
Local Open Scope float_scope.

(** *** The comparator orders by score *)

(** [b.score - a.score > 0] says exactly that [a] scores below [b]. *)
Lemma by_score_desc_positive (a b : Scored) :
  (0 <? SortCompare by_score_desc a b) = (score a <? score b).
Proof. rewrite SortCompare_positive. apply sub_pos_ltb. Qed.

(** [b.score - a.score < 0] says exactly that [b] scores below [a]. *)
Lemma by_score_desc_negative (a b : Scored) :
  (SortCompare by_score_desc a b <? 0) = (score b <? score a).
Proof. rewrite SortCompare_negative. apply sub_neg_ltb. Qed.

Lemma by_score_desc_nonnegative (a b : Scored) :
  (0 <=? SortCompare by_score_desc a b) = negb (score b <? score a).
Proof. rewrite SortCompare_nonnegative. unfold by_score_desc. now rewrite sub_neg_ltb. Qed.

Lemma StronglySorted_app_intro {A : Type} (R : A -> A -> Prop) (l1 l2 : list A) :
  StronglySorted R l1 -> StronglySorted R l2 ->
  (forall x y, In x l1 -> In y l2 -> R x y) -> StronglySorted R (l1 ++ l2).
Proof.
  intros H1 H2 Hc. induction l1 as [| x l1 IH]; [exact H2 |].
  inversion H1 as [| ? ? Hs Hf]; subst. cbn. constructor.
  - apply IH; [assumption |]. intros a b Ha Hb. apply Hc; [now right | assumption].
  - apply Forall_app. split; [assumption |].
    apply Forall_forall. intros b Hb. apply Hc; [now left | assumption].
Qed.

Lemma StronglySorted_app_cross {A : Type} (R : A -> A -> Prop) (l1 l2 : list A) (x y : A) :
  StronglySorted R (l1 ++ l2) -> In x l1 -> In y l2 -> R x y.
Proof.
  induction l1 as [| z l1 IH]; cbn; intros Hs Hx Hy; [contradiction |].
  inversion Hs as [| ? ? Hs' Hf]; subst. destruct Hx as [-> | Hx].
  - rewrite Forall_forall in Hf. apply Hf. apply in_or_app. now right.
  - now apply IH.
Qed.

Lemma StronglySorted_app_r {A : Type} (R : A -> A -> Prop) (l1 l2 : list A) :
  StronglySorted R (l1 ++ l2) -> StronglySorted R l2.
Proof.
  induction l1 as [| x l1 IH]; [trivial |]. cbn. intro H.
  inversion H; subst. now apply IH.
Qed.

Lemma filter_none {A : Type} (f : A -> bool) (l : list A) :
  (forall x, In x l -> f x = false) -> filter f l = [].
Proof.
  induction l as [| x l IH]; intro H; cbn [filter]; [reflexivity |].
  rewrite (H x) by now left. apply IH. intros y Hy. apply H. now right.
Qed.

(** **** The run at the start of the array *)

(** Along the run the test [previous.score < current.score] keeps the value
    it had on the first pair: false on an ascending run, true on a
    descending one. *)
Lemma extendRun_chain (d : bool) (l : list Scored) :
  forall p, Sorted (fun a b => (score a <? score b) = d)
              (p :: fst (extendRun by_score_desc d p l)).
Proof.
  induction l as [| c l IH]; intro p; cbn [extendRun].
  - repeat constructor.
  - rewrite by_score_desc_negative, by_score_desc_nonnegative.
    specialize (IH c).
    destruct (extendRun by_score_desc d c l) as [run rest]. cbn [fst] in *.
    destruct d, (score p <? score c) eqn:E; cbn [negb fst];
      try (constructor; [exact IH | constructor; exact E]);
      repeat constructor.
Qed.

Lemma ascending_sorted (l : list Scored) :
  no_nan l -> Sorted (fun a b => (score a <? score b) = false) l ->
  StronglySorted score_ge l.
Proof.
  intros Hn Hs. apply Sorted_StronglySorted.
  - intros a b c Hab Hbc. unfold score_ge in *. eapply leb_trans; eassumption.
  - induction Hs as [| x l Hs IH Hh]; [constructor |].
    inversion Hn as [| ? ? Hx Hn']; subst.
    constructor; [now apply IH |].
    destruct Hh as [| y l E]; constructor.
    inversion Hn' as [| ? ? Hy _]; subst. now apply not_ltb_leb.
Qed.

(** A strictly descending run holds no two entries of one score, so that
    reversing it is stable. *)
Lemma descending_reversed (l : list Scored) :
  Sorted (fun a b => (score a <? score b) = true) l ->
  StronglySorted score_ge (rev l) /\
  forall s, filter (tied s) (rev l) = filter (tied s) l.
Proof.
  intro Hs. apply Sorted_StronglySorted in Hs;
    [| intros a b c Hab Hbc; eapply ltb_trans; eassumption].
  induction Hs as [| x l Hs [IH1 IH2] Hf]; [split; [constructor | reflexivity] |].
  rewrite Forall_forall in Hf. cbn [rev]. split.
  - apply StronglySorted_app_intro; [assumption | repeat constructor |].
    intros a b Ha [<- | []]. apply in_rev in Ha. apply ltb_leb. now apply Hf.
  - intro s. rewrite filter_app, IH2. cbn [filter].
    destruct (tied s x) eqn:E; [| now rewrite app_nil_r].
    rewrite (filter_none (tied s) l); [reflexivity |]. intros y Hy.
    unfold tied in *. apply (ltb_eqb_class (score x)); [now apply Hf | assumption].
Qed.

Lemma countAndMakeRun_sorted (l : list Scored) :
  no_nan l ->
  exists prefix,
    l = prefix ++ snd (countAndMakeRun by_score_desc l) /\
    StronglySorted score_ge (fst (countAndMakeRun by_score_desc l)) /\
    forall s, filter (tied s) (fst (countAndMakeRun by_score_desc l)) = filter (tied s) prefix.
Proof.
  intro Hn. destruct l as [| x [| y l]]; cbn [countAndMakeRun].
  - exists []. repeat split. constructor.
  - exists [x]. repeat split. repeat constructor.
  - rewrite by_score_desc_negative.
    pose proof (extendRun_app by_score_desc (score x <? score y) l y) as E.
    pose proof (extendRun_chain (score x <? score y) l y) as Hc.
    destruct (extendRun by_score_desc _ y l) as [run rest]. cbn [fst snd] in *.
    exists (x :: y :: run). split; [now rewrite E at 1 |].
    assert (Hs : Sorted (fun a b => (score a <? score b) = (score x <? score y))
                   (x :: y :: run)) by (constructor; [exact Hc | constructor; reflexivity]).
    destruct (score x <? score y).
    + now apply descending_reversed.
    + split; [| reflexivity]. apply ascending_sorted; [| assumption].
      rewrite E in Hn. unfold no_nan in *.
      change (x :: y :: run ++ rest) with ((x :: y :: run) ++ rest) in Hn.
      now apply Forall_app in Hn.
Qed.

(** **** The insertions *)

(** In a sorted array the entries that score below [pivot] are at the end. *)
Lemma sorted_split (pivot : Scored) (a : list Scored) :
  StronglySorted score_ge a ->
  exists a1 a2, a = a1 ++ a2 /\
    Forall (fun e => (score e <? score pivot) = false) a1 /\
    Forall (fun e => (score e <? score pivot) = true) a2.
Proof.
  induction 1 as [| x a Hs (a1 & a2 & E & H1 & H2) Hf].
  - exists [], []. repeat split; constructor.
  - destruct (score x <? score pivot) eqn:Ex.
    + exists [], (x :: a). repeat split; [constructor |].
      constructor; [assumption |].
      eapply Forall_impl; [| exact Hf]. intros y Hy.
      eapply leb_ltb_trans; eassumption.
    + exists (x :: a1), a2. subst a. repeat split; [| assumption].
      now constructor.
Qed.

Lemma insertPivot_sorted (a : list Scored) (pivot : Scored) :
  no_nan a -> is_nan (score pivot) = false -> StronglySorted score_ge a ->
  StronglySorted score_ge (insertPivot by_score_desc a pivot) /\
  forall s, filter (tied s) (insertPivot by_score_desc a pivot) =
            filter (tied s) (a ++ [pivot]).
Proof.
  intros Hn Hp Hs. destruct (sorted_split pivot a Hs) as (a1 & a2 & -> & H1 & H2).
  rewrite insertPivot_partition;
    try (eapply Forall_impl; [| eassumption]; intros e He;
         now rewrite by_score_desc_negative).
  apply Forall_app in Hn as [Hn1 Hn2]. rewrite Forall_forall in H1, H2, Hn1. split.
  - apply StronglySorted_app_intro.
    + now apply StronglySorted_app_l in Hs.
    + constructor; [now apply StronglySorted_app_r in Hs |].
      apply Forall_forall. intros e He. apply ltb_leb. now apply H2.
    + intros x y Hx [<- | Hy].
      * apply not_ltb_leb; auto.
      * eapply StronglySorted_app_cross; eassumption.
  - intro s. rewrite !filter_app. cbn [filter]. rewrite <- app_assoc. f_equal.
    destruct (tied s pivot) eqn:E; [| now rewrite app_nil_r].
    rewrite (filter_none (tied s) a2); [reflexivity |]. intros y Hy.
    unfold tied in *.
    destruct (score y =? s) eqn:Ey; [| reflexivity].
    now rewrite (ltb_eqb_class _ _ _ (H2 y Hy) Ey) in E.
Qed.

Lemma binaryInsertionSort_sorted (rest : list Scored) :
  forall run, no_nan run -> no_nan rest -> StronglySorted score_ge run ->
    StronglySorted score_ge (binaryInsertionSort by_score_desc run rest) /\
    forall s, filter (tied s) (binaryInsertionSort by_score_desc run rest) =
              filter (tied s) (run ++ rest).
Proof.
  induction rest as [| p rest IH]; intros run Hn Hr Hs;
    cbn [binaryInsertionSort fold_left].
  - rewrite app_nil_r. now split.
  - fold (binaryInsertionSort by_score_desc (insertPivot by_score_desc run p) rest).
    inversion Hr as [| ? ? Hp Hr']; subst.
    destruct (insertPivot_sorted run p Hn Hp Hs) as [Hs' Ht].
    destruct (IH (insertPivot by_score_desc run p)) as [IH1 IH2]; try assumption.
    { apply (Forall_perm _ (run ++ [p])); [symmetry; apply insertPivot_perm |].
      apply Forall_app. split; [assumption | now constructor]. }
    split; [assumption |]. intro s.
    rewrite IH2, filter_app, Ht, <- filter_app, <- app_assoc. reflexivity.
Qed.

Lemma sort_stable_sorted (l : list Scored) :
  no_nan l ->
  StronglySorted score_ge (sort by_score_desc l) /\
  forall s, filter (tied s) (sort by_score_desc l) = filter (tied s) l.
Proof.
  intro Hn. unfold sort.
  destruct (countAndMakeRun_sorted l Hn) as (prefix & E & Hs & Ht).
  destruct (countAndMakeRun_perm by_score_desc l) as (prefix' & E' & Hp).
  destruct (countAndMakeRun by_score_desc l) as [run rest]. cbn [fst snd] in *.
  assert (prefix' = prefix) by (rewrite E in E' at 1; now apply app_inv_tail in E').
  subst prefix'.
  assert (Hn' : no_nan prefix /\ no_nan rest)
    by (rewrite E in Hn; now apply Forall_app in Hn).
  destruct Hn' as [Hn1 Hn2].
  destruct (binaryInsertionSort_sorted rest run) as [H1 H2]; try assumption.
  { apply (Forall_perm _ prefix); [now symmetry | assumption]. }
  split; [assumption |]. intro s.
  rewrite H2, filter_app, Ht, <- filter_app, <- E. reflexivity.
Qed.

Lemma sort_sorted (l : list Scored) :
  no_nan l -> StronglySorted score_ge (sort by_score_desc l).
Proof. intro H. now apply sort_stable_sorted. Qed.

(** *** Stability: entries with one score keep their order *)

Lemma sort_tied (s : float) (l : list Scored) :
  no_nan l -> filter (tied s) (sort by_score_desc l) = filter (tied s) l.
Proof. intro H. now apply sort_stable_sorted. Qed.

(** [sort] is the only stable sort: a list without NaN scores has one
    arrangement that is sorted and keeps the order of the entries of each
    score.  An engine's [Array.prototype.sort], which must be such an
    arrangement, returns what [sort] returns. *)
Lemma stable_sorted_unique (l1 l2 : list Scored) :
  no_nan l1 -> Permutation l1 l2 ->
  StronglySorted score_ge l1 -> StronglySorted score_ge l2 ->
  (forall s, filter (tied s) l1 = filter (tied s) l2) -> l1 = l2.
Proof.
  revert l2. induction l1 as [| x t1 IH]; intros l2 Hn Hp H1 H2 Hst.
  - apply Permutation_nil in Hp. now subst.
  - destruct l2 as [| y t2]; [symmetry in Hp; now apply Permutation_nil in Hp |].
    inversion H1 as [| ? ? Hs1 Hf1]; subst. inversion H2 as [| ? ? Hs2 Hf2]; subst.
    inversion Hn as [| ? ? Hx Hn']; subst.
    assert (Hxx : tied (score x) x = true).
    { unfold tied. unfold is_nan in Hx. now apply negb_false_iff in Hx. }
    assert (Hyx : tied (score x) y = true).
    { unfold tied. rewrite Forall_forall in Hf1, Hf2.
      assert (Hy : In y (x :: t1))
        by (apply (Permutation_in _ (Permutation_sym Hp)); now left).
      assert (Hx' : In x (y :: t2)) by (apply (Permutation_in _ Hp); now left).
      destruct Hy as [<- | Hy]; [exact Hxx |].
      destruct Hx' as [-> | Hx']; [exact Hxx |].
      apply leb_antisym; [apply (Hf1 y Hy) | apply (Hf2 x Hx')]. }
    pose proof (Hst (score x)) as E. cbn [filter] in E. rewrite Hxx, Hyx in E.
    injection E as -> _. f_equal. apply IH; try assumption.
    + now apply Permutation_cons_inv in Hp.
    + intro s. specialize (Hst s). cbn [filter] in Hst.
      destruct (tied s y); [now injection Hst | exact Hst].
Qed.

Lemma sort_unique (l l' : list Scored) :
  no_nan l -> Permutation l' l -> StronglySorted score_ge l' ->
  (forall s, filter (tied s) l' = filter (tied s) l) -> l' = sort by_score_desc l.
Proof.
  intros Hn Hp Hs Hst. apply stable_sorted_unique.
  - apply (Forall_perm _ l); [now symmetry | assumption].
  - rewrite Hp. symmetry. apply sort_perm.
  - assumption.
  - now apply sort_sorted.
  - intro s. now rewrite Hst, sort_tied.
Qed.

(** *** The entries of the index *)

Lemma ids_scored (query : Vec) (map : LocalVectorIndex) :
  ids (scored query map) = JsMap.keys map.
Proof.
  unfold ids, scored, JsMap.keys. rewrite map_map. apply map_ext. now intros [k v].
Qed.

Lemma search_ids_In (query : Vec) (k : Z) (map : LocalVectorIndex) (id : string) :
  In id (ids (search query k map)) -> In id (JsMap.keys map).
Proof.
  unfold search, ids. intro H. apply in_map_iff in H as [e [<- He]].
  apply slice0_In in He.
  apply (Permutation_in _ (sort_perm by_score_desc _)) in He.
  rewrite <- (ids_scored query). now apply in_map.
Qed.

Lemma search_In_scored (query : Vec) (k : Z) (map : LocalVectorIndex) (e : Scored) :
  In e (search query k map) -> In e (scored query map).
Proof.
  unfold search. intro H. apply slice0_In in H.
  now apply (Permutation_in _ (sort_perm by_score_desc _)) in H.
Qed.

Lemma run_snoc (ops : list Op) (o : Op) : run (ops ++ [o]) = apply (run ops) o.
Proof. unfold run. now rewrite fold_left_app. Qed.

Lemma run_NoDup (ops : list Op) : NoDup (JsMap.keys (run ops)).
Proof.
  induction ops as [| o ops IH] using rev_ind.
  - constructor.
  - rewrite run_snoc. destruct o; cbn [apply].
    + now apply NoDup_keys_set.
    + now apply NoDup_keys_delete.
    + constructor.
Qed.

Lemma run_live (ops : list Op) (id : string) :
  In id (JsMap.keys (run ops)) -> live id ops.
Proof.
  induction ops as [| o ops IH] using rev_ind; intro H.
  - contradiction.
  - rewrite run_snoc in H. destruct o as [id' v' | id' |]; cbn [apply] in H.
    + apply keys_set in H as [-> | H].
      * exists ops, v', []. split; [reflexivity | constructor].
      * destruct (IH H) as (before & v & after & -> & Hf).
        exists before, v, (after ++ [Upsert id' v']). split.
        -- now rewrite <- app_assoc.
        -- apply Forall_app. split; [assumption |]. repeat constructor; discriminate.
    + apply keys_delete in H as [Hne H].
      destruct (IH H) as (before & v & after & -> & Hf).
      exists before, v, (after ++ [Delete id']). split.
      * now rewrite <- app_assoc.
      * apply Forall_app. split; [assumption |]. repeat constructor; congruence.
    + contradiction.
Qed.

Lemma live_run (ops : list Op) (id : string) :
  live id ops -> In id (JsMap.keys (run ops)).
Proof.
  intros (before & v & after & -> & Hf).
  induction after as [| o after IH] using rev_ind.
  - rewrite run_snoc. cbn [apply]. apply keys_set. now left.
  - apply Forall_app in Hf as [Hf Ho]. inversion Ho as [| ? ? [Hd Hc] _]; subst.
    replace (before ++ Upsert id v :: after ++ [o])
      with ((before ++ Upsert id v :: after) ++ [o]) by now rewrite <- app_assoc.
    rewrite run_snoc. destruct o as [id' v' | id' |]; cbn [apply].
    + apply keys_set. right. now apply IH.
    + apply keys_delete. split; [congruence | now apply IH].
    + congruence.
Qed.

(** *** Replaying the entries *)

Lemma replay_clear (map : LocalVectorIndex) :
  NoDup (JsMap.keys map) -> replay map (clear map) = map.
Proof. intro H. unfold replay, clear. now apply (replay_app map []). Qed.

(** Two sorted arrangements of the same tie-free pairs are one list. *)
Lemma sorted_perm_unique (l1 l2 : list Scored) :
  tie_free l1 -> Permutation l1 l2 ->
  StronglySorted score_ge l1 -> StronglySorted score_ge l2 -> l1 = l2.
Proof.
  revert l2. induction l1 as [| x t1 IH]; intros l2 Ht Hp H1 H2.
  - apply Permutation_nil in Hp. now subst.
  - destruct l2 as [| y t2]; [symmetry in Hp; now apply Permutation_nil in Hp |].
    inversion H1 as [| ? ? Hs1 Hf1]; subst. inversion H2 as [| ? ? Hs2 Hf2]; subst.
    assert (Hy : In y (x :: t1))
      by (apply (Permutation_in _ (Permutation_sym Hp)); now left).
    assert (Hx : In x (y :: t2)) by (apply (Permutation_in _ Hp); now left).
    assert (E : x = y).
    { destruct Hy as [E | Hy]; [assumption |].
      destruct Hx as [E | Hx]; [now symmetry |].
      rewrite Forall_forall in Hf1, Hf2.
      apply Ht; [now left | now right |].
      apply leb_antisym; [apply (Hf2 x Hx) | apply (Hf1 y Hy)]. }
    subst y. f_equal. apply IH.
    + intros a b Ha Hb. apply Ht; now right.
    + now apply Permutation_cons_inv in Hp.
    + assumption.
    + assumption.
Qed.

Lemma sort_perm_eq (l1 l2 : list Scored) :
  no_nan l1 -> tie_free l1 -> Permutation l1 l2 ->
  sort by_score_desc l1 = sort by_score_desc l2.
Proof.
  intros Hn Ht Hp. apply sorted_perm_unique.
  - intros a b Ha Hb. apply Ht; apply (Permutation_in _ (sort_perm by_score_desc l1)); assumption.
  - rewrite (sort_perm by_score_desc l1), Hp. symmetry. apply sort_perm.
  - now apply sort_sorted.
  - apply sort_sorted. apply (Forall_perm _ l1); assumption.
Qed.

Lemma replay_entries (entries : list (string * Vec)) :
  NoDup (JsMap.keys entries) -> replay entries [] = entries.
Proof. intro H. unfold replay. now apply (replay_app entries []). Qed.

(** *** Cosine *)

Lemma accumulate_sums (a b : Vec) :
  List.length a = List.length b ->
  accumulate a b = (dot a b, fold_left (fun acc x => acc + x * x) a 0,
                    fold_left (fun acc y => acc + y * y) b 0).
Proof.
  unfold accumulate, dot. generalize 0 at 1 4 as d. generalize 0 at 1 3 as na.
  generalize 0 as nb. revert b.
  induction a as [| x a IH]; intros [| y b] nb na d H; try discriminate.
  - reflexivity.
  - cbn [combine fold_left]. apply IH. now injection H.
Qed.

Lemma eqb_zero_spec (x : float) : (x =? 0) = true -> exists s, Prim2SF x = S754_zero s.
Proof.
  rewrite eqb_spec. change (Prim2SF 0) with (S754_zero false).
  destruct (Prim2SF x) as [s | [] | | [] m e]; try discriminate. now exists s.
Qed.

Lemma is_finite_spec (x : float) :
  is_finite x = true ->
  (exists s, Prim2SF x = S754_zero s) \/ (exists s m e, Prim2SF x = S754_finite s m e).
Proof.
  unfold is_finite. rewrite ltb_spec, abs_spec.
  change (Prim2SF infinity) with (S754_infinity false).
  destruct (Prim2SF x) as [s | [] | | s m e]; try discriminate; eauto.
Qed.

Lemma mul_zero_l (x y : float) :
  (x =? 0) = true -> is_finite y = true -> (x * y =? 0) = true.
Proof.
  intros Hx Hy. apply eqb_zero_spec in Hx as [s Hx].
  rewrite eqb_spec, mul_spec, Hx. change (Prim2SF 0) with (S754_zero false).
  apply is_finite_spec in Hy as [[s' ->] | (s' & m & e & ->)]; reflexivity.
Qed.

Lemma mul_zero_r (x y : float) :
  is_finite x = true -> (y =? 0) = true -> (x * y =? 0) = true.
Proof.
  intros Hx Hy. apply eqb_zero_spec in Hy as [s Hy].
  rewrite eqb_spec, mul_spec, Hy. change (Prim2SF 0) with (S754_zero false).
  apply is_finite_spec in Hx as [[s' ->] | (s' & m & e & ->)]; reflexivity.
Qed.

Lemma cosine_unfold (a b : Vec) :
  List.length a = List.length b ->
  cosine a b = if norm a * norm b =? 0 then 0 else dot a b / (norm a * norm b).
Proof.
  intro H. unfold cosine. rewrite H, Nat.eqb_refl. cbn [negb].
  rewrite accumulate_sums by assumption. reflexivity.
Qed.

End VectorFacts.

(* ===================================================================== *)
(** ** The tools and routes *)
(* ===================================================================== *)

Module ServerFacts.
Import Vector Mongo Server Notions JsMapFacts VectorFacts.
Local Open Scope string_scope.
Local Open Scope list_scope.

Lemma option_eqb_spec (a b : option string) : option_eqb a b = true <-> a = b.
Proof.
  destruct a as [x |], b as [y |]; cbn; try (split; congruence).
  rewrite String.eqb_eq. split; congruence.
Qed.

Lemma eligibleb_spec (u : string) (a : option string) (d : Doc.t) :
  eligibleb u a d = true <-> eligible u a d.
Proof.
  unfold eligibleb, eligible.
  rewrite andb_true_iff, orb_true_iff, andb_true_iff, !String.eqb_eq, option_eqb_spec.
  reflexivity.
Qed.

Lemma value_eqb_of_option (a b : option string) :
  value_eqb (of_option a) (of_option b) = option_eqb a b.
Proof. destruct a, b; reflexivity. Qed.

Lemma matches_scopeFilter (u : string) (a : option string) (ids : list string) (d : Doc.t) :
  matches (scopeFilter u a ids) d =
  eligibleb u a d && existsb (String.eqb (Doc.memory_id d)) ids.
Proof.
  unfold scopeFilter, eligibleb. cbn [matches field String.eqb Ascii.eqb Bool.eqb value_eqb].
  rewrite value_eqb_of_option.
  replace (existsb (value_eqb (VString (Doc.memory_id d))) (List.map VString ids))
    with (existsb (String.eqb (Doc.memory_id d)) ids).
  - destruct (String.eqb (Doc.user_id d) u), (existsb _ ids),
      (String.eqb (Doc.scope d) "global"), (String.eqb (Doc.scope d) "agent"),
      (option_eqb _ _); reflexivity.
  - induction ids as [| i ids IH]; cbn; [reflexivity | now rewrite IH].
Qed.

Lemma existsb_eqb_In (id : string) (ids : list string) :
  In id ids -> existsb (String.eqb id) ids = true.
Proof.
  intro H. apply existsb_exists. exists id. split; [assumption | apply String.eqb_refl].
Qed.

Lemma by_id_In (id : string) (c : Collection) (d : Doc.t) :
  by_id id c = Some d -> In d c /\ Doc.memory_id d = id.
Proof.
  unfold by_id. intro H. apply find_some in H as [H1 H2].
  now apply String.eqb_eq in H2.
Qed.

Lemma by_id_absent (id : string) (c : Collection) :
  ~ In id (List.map Doc.memory_id c) -> by_id id c = None.
Proof.
  intro H. unfold by_id. destruct (List.find _ c) as [d |] eqn:E; [| reflexivity].
  apply find_some in E as [H1 H2]. apply String.eqb_eq in H2.
  exfalso. apply H. rewrite <- H2. now apply in_map.
Qed.

Lemma by_id_unique (c : Collection) (d : Doc.t) :
  unique_ids c -> In d c -> by_id (Doc.memory_id d) c = Some d.
Proof.
  unfold unique_ids, by_id. induction c as [| d0 c IH]; cbn; intros Hn Hin.
  - contradiction.
  - inversion Hn as [| ? ? Hout Hn']; subst.
    destruct Hin as [-> | Hin].
    + now rewrite String.eqb_refl.
    + destruct (String.eqb_spec (Doc.memory_id d0) (Doc.memory_id d)) as [E | _].
      * exfalso. apply Hout. rewrite E. now apply in_map.
      * now apply IH.
Qed.

Lemma unique_ids_filter (f : Doc.t -> bool) (c : Collection) :
  unique_ids c -> unique_ids (filter f c).
Proof.
  unfold unique_ids. induction c as [| d c IH]; cbn; intro H.
  - constructor.
  - inversion H as [| ? ? Hout Hn]; subst. destruct (f d); cbn.
    + constructor; [| now apply IH]. intro Hin. apply Hout.
      apply in_map_iff in Hin as [d' [E Hd']]. apply filter_In in Hd' as [Hd' _].
      rewrite <- E. now apply in_map.
    + now apply IH.
Qed.

Lemma by_id_filter (f : Doc.t -> bool) (id : string) (c : Collection) :
  unique_ids c ->
  by_id id (filter f c) =
  match by_id id c with
  | Some d => if f d then Some d else None
  | None => None
  end.
Proof.
  unfold unique_ids. induction c as [| d c IH]; cbn; intro H.
  - reflexivity.
  - inversion H as [| ? ? Hout Hn]; subst.
    destruct (f d) eqn:Ef; cbn; destruct (String.eqb_spec (Doc.memory_id d) id) as [E | Hne].
    + now rewrite Ef.
    + now apply IH.
    + rewrite Ef. apply by_id_absent. subst id. intro Hin. apply Hout.
      apply in_map_iff in Hin as [d' [E Hd']]. apply filter_In in Hd' as [Hd' _].
      rewrite <- E. now apply in_map.
    + now apply IH.
Qed.

Lemma docMap_get (docs : list Doc.t) (id : string) :
  unique_ids docs -> JsMap.get id (docMap docs) = by_id id docs.
Proof.
  intro H. unfold docMap. rewrite of_entries_id.
  - unfold by_id. induction docs as [| d docs IH]; cbn; [reflexivity |].
    inversion H; subst. destruct (String.eqb (Doc.memory_id d) id); [reflexivity |].
    now apply IH.
  - unfold JsMap.keys. rewrite map_map. exact H.
Qed.

Lemma filter_flat_map {A B : Type} (f : B -> bool) (g : A -> list B) (l : list A) :
  filter f (flat_map g l) = flat_map (fun x => filter f (g x)) l.
Proof.
  induction l as [| x l IH]; cbn; [reflexivity |]. now rewrite filter_app, IH.
Qed.

Lemma flat_map_ext_In {A B : Type} (f g : A -> list B) (l : list A) :
  (forall x, In x l -> f x = g x) -> flat_map f l = flat_map g l.
Proof.
  induction l as [| x l IH]; cbn; intro H; [reflexivity |].
  rewrite H by now left. f_equal. apply IH. intros y Hy. apply H. now right.
Qed.

(** The documents a search keeps: the eligible candidates, in rank order. *)
Lemma ordered_find (u : string) (a : option string) (rankedIds : list string) (c : Collection) :
  unique_ids c ->
  ordered rankedIds (find (scopeFilter u a rankedIds) c) =
  filter (eligibleb u a) (candidates rankedIds c).
Proof.
  intro H. unfold ordered, candidates, filter_Boolean, find.
  rewrite filter_flat_map, flat_map_concat_map, map_map, <- flat_map_concat_map.
  apply flat_map_ext_In. intros id Hid.
  rewrite docMap_get by now apply unique_ids_filter.
  rewrite by_id_filter by assumption.
  destruct (by_id id c) as [d |] eqn:E; [| reflexivity].
  apply by_id_In in E as [_ <-].
  rewrite matches_scopeFilter, existsb_eqb_In, andb_true_r by assumption.
  cbn [filter]. destruct (eligibleb u a d); reflexivity.
Qed.

Lemma candidates_In (rankedIds : list string) (c : Collection) (d : Doc.t) :
  unique_ids c ->
  In d (candidates rankedIds c) <-> In d c /\ In (Doc.memory_id d) rankedIds.
Proof.
  intro H. unfold candidates. rewrite in_flat_map. split.
  - intros [id [Hid Hd]]. destruct (by_id id c) as [d' |] eqn:E; [| contradiction].
    destruct Hd as [<- | []]. apply by_id_In in E as [E1 <-]. now split.
  - intros [Hd Hid]. exists (Doc.memory_id d). split; [assumption |].
    rewrite by_id_unique by assumption. now left.
Qed.

Lemma for_each_upserts (c : list Doc.t) (w : World) :
  for_each
    (fun d =>
       if indexable d
       then vectorIndex_upsert (Doc.memory_id d) (nullish (Doc.embedding d) [])
       else ret tt) c w =
  (Returned tt,
   {| db := db w;
      vectorIndex :=
        fold_left apply
          (List.map (fun d => Upsert (Doc.memory_id d) (nullish (Doc.embedding d) []))
             (filter indexable c))
          (vectorIndex w) |}).
Proof.
  revert w. induction c as [| d c IH]; intro w; cbn [for_each filter].
  - destruct w. reflexivity.
  - unfold bind. destruct (indexable d); cbn [List.map fold_left apply].
    + unfold vectorIndex_upsert, modify_index. rewrite IH. reflexivity.
    + unfold ret. apply IH.
Qed.

Lemma fold_apply_upserts (es : list (string * Vec)) (m : LocalVectorIndex) :
  fold_left apply (List.map (fun e => Upsert (fst e) (snd e)) es) m = replay es m.
Proof.
  unfold replay. revert m. induction es as [| e es IH]; intro m; cbn; [reflexivity | apply IH].
Qed.

Lemma rebuild_healthy (env : Env) (w : World) (c : Collection) :
  db w = Some c -> driver env = Healthy ->
  rebuildLocalVectorIndex env w =
  (Returned tt,
   {| db := Some c;
      vectorIndex :=
        fold_left apply
          (Clear :: List.map (fun d => Upsert (Doc.memory_id d) (nullish (Doc.embedding d) []))
                      (filter indexable c))
          (vectorIndex w) |}).
Proof.
  intros Hdb Hdr.
  unfold rebuildLocalVectorIndex, bind, vectorIndex_clear, modify_index, await_find, bind,
    memoryCollection, ret.
  cbn [db vectorIndex]. rewrite Hdb, Hdr. unfold find. cbn [matches].
  replace (filter (fun _ : Doc.t => true) c) with c
    by (symmetry; apply forallb_filter_id, forallb_forall; reflexivity).
  rewrite for_each_upserts. reflexivity.
Qed.

(** *** An index that mirrors the collection *)

Lemma keys_entries (c : Collection) : JsMap.keys (List.map entry c) = List.map Doc.memory_id c.
Proof. unfold JsMap.keys. rewrite map_map. reflexivity. Qed.

Lemma filter_indexable_all (c : Collection) :
  Forall (fun d => indexable d = true) c -> filter indexable c = c.
Proof.
  intro H. apply forallb_filter_id, forallb_forall. now rewrite Forall_forall in H.
Qed.

(** A rebuild of a mirroring index changes nothing. *)
Lemma rebuild_mirrors (env : Env) (w : World) :
  mirrors w -> driver env = Healthy -> rebuildLocalVectorIndex env w = (Returned tt, w).
Proof.
  intros (c & Hdb & Hu & Hix & Hall) Hdr.
  rewrite (rebuild_healthy env w c Hdb Hdr). f_equal.
  destruct w as [d ix]. cbn [db vectorIndex] in *. subst d. f_equal.
  cbn [fold_left apply clear]. rewrite filter_indexable_all by assumption.
  rewrite <- (map_map entry (fun e => Upsert (fst e) (snd e))).
  rewrite fold_apply_upserts, replay_entries by now rewrite keys_entries.
  now rewrite Hix.
Qed.

(** An add with a new id keeps the index mirroring the collection. *)
Lemma add_memory_mirrors (env : Env) (args : AddArgs.t) (w : World) :
  mirrors w -> driver env = Healthy -> add_schema args = true ->
  ~ In (uuidv4 env) (JsMap.keys (vectorIndex w)) ->
  mirrors (snd (add_memory env args w)).
Proof.
  intros (c & Hdb & Hu & Hix & Hall) Hdr Hs Hnew.
  unfold add_memory. rewrite Hs.
  unfold add_body, await_insertOne, driver_write, bind, memoryCollection, write_collection,
    vectorIndex_upsert, modify_index, ret.
  rewrite Hdb, Hdr. cbn [snd db vectorIndex new_doc Doc.memory_id].
  set (d := new_doc env _ _ _ _ _ _).
  exists (insertOne d c). unfold insertOne. split; [reflexivity |].
  rewrite Hix, keys_entries in Hnew.
  split; [| split].
  - unfold unique_ids. rewrite map_app. cbn.
    apply NoDup_app; [assumption | repeat constructor; intros [] |].
    intros x Hx [<- | []]. contradiction.
  - unfold upsert. rewrite set_absent by (rewrite Hix, keys_entries; exact Hnew).
    rewrite Hix, map_app. reflexivity.
  - apply Forall_app. split; [assumption |]. constructor; [| constructor].
    unfold indexable. cbn. unfold add_schema in Hs. apply andb_true_iff in Hs as [_ Hs].
    destruct (AddArgs.embedding args); [discriminate | reflexivity].
Qed.

Lemma deleteOne_by_id (u id : string) (c : Collection) :
  unique_ids c ->
  (forall d, In d c -> Doc.memory_id d = id -> Doc.user_id d = u) ->
  deleteOne (FAnd (FEq "user_id" (VString u)) (FEq "memory_id" (VString id))) c =
  filter (fun d => negb (String.eqb (Doc.memory_id d) id)) c.
Proof.
  unfold unique_ids. induction c as [| d c IH]; intros Hu Hown; [reflexivity |].
  inversion Hu as [| ? ? Hout Hu']; subst.
  cbn [deleteOne filter matches field String.eqb Ascii.eqb Bool.eqb value_eqb].
  destruct (String.eqb_spec (Doc.memory_id d) id) as [E | Hne]; cbn [negb].
  - rewrite (Hown d (or_introl eq_refl) E), String.eqb_refl. cbn [andb].
    symmetry. apply forallb_filter_id, forallb_forall. intros x Hx.
    destruct (String.eqb_spec (Doc.memory_id x) id) as [E' | _]; [| reflexivity].
    exfalso. apply Hout. rewrite E, <- E'. now apply in_map.
  - rewrite andb_false_r. f_equal. apply IH; [assumption |].
    intros x Hx. apply Hown. now right.
Qed.

(** A delete by the owner, or of an id the collection does not hold, keeps
    the index mirroring the collection. *)
Lemma delete_memory_mirrors (env : Env) (u id : string) (w : World) :
  mirrors w -> driver env = Healthy ->
  (forall d, In d (nullish (db w) []) -> Doc.memory_id d = id -> Doc.user_id d = u) ->
  mirrors (snd (delete_memory env u id w)).
Proof.
  intros (c & Hdb & Hu & Hix & Hall) Hdr Hown. rewrite Hdb in Hown. cbn [nullish] in Hown.
  unfold delete_memory, delete_body, await_deleteOne, driver_write, bind, memoryCollection,
    write_collection, vectorIndex_delete, modify_index, ret.
  rewrite Hdb, Hdr. cbn [snd db vectorIndex].
  rewrite (deleteOne_by_id u id c Hu Hown).
  exists (filter (fun d => negb (String.eqb (Doc.memory_id d) id)) c).
  split; [reflexivity |]. split; [| split].
  - now apply unique_ids_filter.
  - cbn [vectorIndex]. rewrite Hix. unfold delete, JsMap.delete. clear.
    induction c as [| d c IH]; cbn [List.map filter entry fst]; [reflexivity |].
    destruct (String.eqb (Doc.memory_id d) id); cbn [negb List.map]; now rewrite IH.
  - rewrite Forall_forall in *. intros d Hd. apply filter_In in Hd as [Hd _]. now apply Hall.
Qed.

Lemma search_body_healthy (env : Env) (w : World) (c : Collection)
  (u : string) (a : option string) (q : Vec) (topK : Z) :
  db w = Some c -> driver env = Healthy -> unique_ids c ->
  search_body env u a q topK w =
  (Returned (Memories (List.map project
     (filter (eligibleb u a) (candidates (ids (search q topK (vectorIndex w))) c)))), w).
Proof.
  intros Hdb Hdr Hu. unfold search_body, bind, vectorIndex_search, await_find, bind,
    memoryCollection, ret.
  destruct (ids (search q topK (vectorIndex w))) as [| i r] eqn:E.
  - reflexivity.
  - cbn [List.length Nat.eqb]. rewrite Hdb, Hdr. now rewrite ordered_find.
Qed.

End ServerFacts.

(* ===================================================================== *)
(** * The claims *)
(* ===================================================================== *)

Import JsNumber JsArray Vector Mongo Server Notions Scenario.
Import JsNumberFacts JsArrayFacts JsMapFacts VectorFacts ServerFacts.
Local Open Scope string_scope.
Local Open Scope list_scope.

Example scenario_search :
  search [1; 0]%float 2 (run scenario_ops) =
  [ {| memory_id := "A"; score := 1 |};
    {| memory_id := "C"; score := cosine [1; 0]%float [0.9; 0.1]%float |} ].
Proof. vm_compute. reflexivity. Qed.

Lemma nan_neq_zero (x : float) : is_nan x = true -> x <> 0%float.
Proof. intros H ->. vm_compute in H. discriminate. Qed.

(** C2, as stated, fails twice: a negative [k] makes [slice] drop elements
    from the end, so more than [k] pairs come back; and a score that is NaN
    cannot stand in a list sorted by score, wherever the engine's sort puts
    it. *)
Lemma search_bound_and_order_counterexample :
  ~ (forall (ops : list Op) (query : Vec) (k : Z),
       (Z.of_nat (List.length (search query k (run ops))) <= k)%Z) /\
  ~ (forall (ops : list Op) (query : Vec) (k : Z),
       StronglySorted score_ge (search query k (run ops))).
Proof.
  split.
  - intro H. specialize (H scenario_ops [1; 0]%float (-1)%Z). vm_compute in H.
    now apply H.
  - intro H. specialize (H overflow_ops [1e150; 1]%float 3%Z).
    vm_compute in H. inversion H as [| ? ? _ Hf]. inversion Hf as [| ? ? Hge _].
    vm_compute in Hge. discriminate.
Qed.

(** C2 (amended): every id that [search] returns was upserted and neither
    deleted nor cleared afterwards, and its score is the cosine of the query
    and the vector the index holds for it; for [k >= 0] at most [k] pairs
    are returned; and when no stored vector scores NaN against the query the
    pairs are sorted by non-increasing score. *)
Theorem search_at_most_k_sorted_live (ops : list Op) (query : Vec) (k : Z) :
  ((0 <= k)%Z -> (Z.of_nat (List.length (search query k (run ops))) <= k)%Z) /\
  (no_nan (scored query (run ops)) -> StronglySorted score_ge (search query k (run ops))) /\
  (forall e, In e (search query k (run ops)) ->
     live (memory_id e) ops /\
     exists v, JsMap.get (memory_id e) (run ops) = Some v /\ score e = cosine query v).
Proof.
  split; [| split].
  - intro Hk. unfold search. now apply slice0_length_le.
  - intro Hn. unfold search. apply slice0_sorted. now apply sort_sorted.
  - intros e He. split.
    + apply run_live. apply (search_ids_In query k). unfold ids. now apply in_map.
    + apply search_In_scored in He. unfold scored in He.
      apply in_map_iff in He as [[id v] [<- Hin]]. exists v. split; [| reflexivity].
      apply In_get; [apply run_NoDup | exact Hin].
Qed.

Lemma search_at_most_k_sorted_live_witness :
  (Z.of_nat (List.length (search [1; 0]%float 2 (run scenario_ops))) <= 2)%Z /\
  StronglySorted score_ge (search [1; 0]%float 2 (run scenario_ops)) /\
  live "C" scenario_ops.
Proof.
  destruct (search_at_most_k_sorted_live scenario_ops [1; 0]%float 2) as (H1 & H2 & H3).
  split; [| split].
  - apply H1. lia.
  - apply H2. repeat constructor.
  - apply (H3 {| memory_id := "C"; score := cosine [1; 0]%float [0.9; 0.1]%float |}).
    vm_compute. right. left. reflexivity.
Defined.

(** [upsert(id, v)] then [delete(id)]: no search returns [id]. *)
Lemma upsert_delete_never_returned (ops : list Op) (id : string) (v query : Vec) (k : Z) :
  ~ In id (ids (search query k (run (ops ++ [Upsert id v; Delete id])))).
Proof.
  intro H. apply search_ids_In in H.
  replace (ops ++ [Upsert id v; Delete id]) with ((ops ++ [Upsert id v]) ++ [Delete id]) in H
    by now rewrite <- app_assoc.
  rewrite run_snoc in H. cbn [apply] in H. apply keys_delete in H as [Hne _]. congruence.
Qed.

(** C4, as stated, fails for a zero vector against a vector whose squared
    norm overflows: the denominator is [0 * Infinity = NaN], which is not
    [=== 0], and the result is [0 / NaN = NaN]. *)
Lemma cosine_zero_norm_counterexample :
  (norm [0]%float =? 0)%float = true /\
  List.length [0]%float = List.length [1e200]%float /\
  is_nan (cosine [0]%float [1e200]%float) = true /\
  cosine [0]%float [1e200]%float <> 0%float.
Proof.
  repeat split; try (vm_compute; reflexivity).
  apply nan_neq_zero. vm_compute. reflexivity.
Qed.

(** C4 (amended): in binary64 arithmetic the similarity is 0 when the lengths
    differ or the computed denominator [norm a * norm b] is zero, and
    [dot a b / (norm a * norm b)] otherwise; the denominator is zero, and the
    similarity 0, whenever one computed norm is zero and the other is
    finite; an empty vector scores 0 against every vector. *)
Theorem cosine_formula_and_zero_cases (a b : Vec) :
  (List.length a <> List.length b -> cosine a b = 0%float) /\
  (List.length a = List.length b -> (norm a * norm b =? 0)%float = false ->
     cosine a b = (dot a b / (norm a * norm b))%float) /\
  (List.length a = List.length b -> (norm a * norm b =? 0)%float = true ->
     cosine a b = 0%float) /\
  ((norm a =? 0)%float = true -> is_finite (norm b) = true -> cosine a b = 0%float) /\
  (is_finite (norm a) = true -> (norm b =? 0)%float = true -> cosine a b = 0%float) /\
  cosine [] b = 0%float /\ cosine a [] = 0%float.
Proof.
  assert (Hne : List.length a <> List.length b -> cosine a b = 0%float).
  { intro H. unfold cosine. apply Nat.eqb_neq in H. now rewrite H. }
  assert (Hz : (norm a * norm b =? 0)%float = true -> cosine a b = 0%float).
  { intro H. destruct (Nat.eq_dec (List.length a) (List.length b)) as [E | E].
    - rewrite cosine_unfold by assumption. now rewrite H.
    - now apply Hne. }
  repeat split.
  - exact Hne.
  - intros E H. rewrite cosine_unfold by assumption. now rewrite H.
  - intros _. exact Hz.
  - intros H1 H2. apply Hz. now apply mul_zero_l.
  - intros H1 H2. apply Hz. now apply mul_zero_r.
  - destruct b; reflexivity.
  - destruct a; reflexivity.
Qed.

Lemma cosine_formula_and_zero_cases_witness :
  cosine [3; 4]%float [4; 3]%float =
    (dot [3; 4]%float [4; 3]%float / (norm [3; 4]%float * norm [4; 3]%float))%float /\
  cosine [0; 0]%float [4; 3]%float = 0%float /\
  cosine [1]%float [4; 3]%float = 0%float.
Proof.
  split; [| split].
  - destruct (cosine_formula_and_zero_cases [3; 4]%float [4; 3]%float) as (_ & H & _).
    apply H; reflexivity.
  - destruct (cosine_formula_and_zero_cases [0; 0]%float [4; 3]%float) as (_ & _ & _ & H & _).
    apply H; reflexivity.
  - destruct (cosine_formula_and_zero_cases [1]%float [4; 3]%float) as (H & _).
    apply H. simpl. lia.
Defined.

(** The tested property [cosine(v, v)] close to 1, on two vectors where it holds
    exactly. *)
Example cosine_self :
  cosine [1; 0]%float [1; 0]%float = 1%float /\ cosine [3; 4]%float [3; 4]%float = 1%float.
Proof. split; vm_compute; reflexivity. Qed.

(** C9: the list [search] returns is fixed by the entries of the index in
    iteration order, the query and [k].  Every call, whatever its [k], cuts
    one and the same arrangement of the entries.  When no score is NaN that
    arrangement does not depend on the engine either: any array that is a
    sorted, stable arrangement of the scored entries, which is what
    [Array.prototype.sort] has to produce, gives the list [search] returns;
    and ties are broken by insertion order: for each score, the returned
    entries with that score are the first entries of the index with that
    score, in iteration order. *)
Theorem search_deterministic_stable (query : Vec) (map : LocalVectorIndex) :
  (exists arrangement,
     Permutation arrangement (scored query map) /\
     forall k, search query k map = slice0 arrangement k) /\
  (no_nan (scored query map) ->
   (forall sorted k,
      Permutation sorted (scored query map) ->
      StronglySorted score_ge sorted ->
      (forall s, filter (tied s) sorted = filter (tied s) (scored query map)) ->
      slice0 sorted k = search query k map) /\
   (forall s k, exists rest,
      filter (tied s) (scored query map) =
      filter (tied s) (search query k map) ++ rest)).
Proof.
  split.
  - exists (sort by_score_desc (scored query map)). split.
    + apply sort_perm.
    + reflexivity.
  - intro Hn. split.
    + intros sorted k Hp Hs Ht. unfold search. f_equal.
      now apply sort_unique.
    + intros s k. rewrite <- (sort_tied s (scored query map) Hn).
      apply filter_prefix. unfold search. apply slice0_prefix.
Qed.

Lemma search_deterministic_stable_witness :
  exists rest,
    filter (tied 0) (scored [1; 0]%float (run ties_ops)) =
    filter (tied 0) (search [1; 0]%float 2 (run ties_ops)) ++ rest.
Proof.
  destruct (search_deterministic_stable [1; 0]%float (run ties_ops)) as [_ H].
  apply H. repeat constructor.
Defined.

(** With a NaN score the comparator is not consistent, and the order is the
    one the engine's procedure leaves: the list is still the same on every
    call, but "H6" comes before "H5", which was inserted first and has the
    same score, and "M0" before "H5", which scores higher. *)
Example ties_with_a_nan_score :
  ids (search [1e150; 1]%float 7 (run nan_ties_ops)) =
    ["H1"; "H2"; "H3"; "H6"; "M0"; "N4"; "H5"] /\
  List.map (fun e => is_nan (score e)) (search [1e150; 1]%float 7 (run nan_ties_ops)) =
    [false; false; false; false; false; true; false] /\
  ids (filter (tied 1e-150) (scored [1e150; 1]%float (run nan_ties_ops))) =
    ["H1"; "H2"; "H3"; "H5"; "H6"] /\
  ids (filter (tied 1e-150) (search [1e150; 1]%float 7 (run nan_ties_ops))) =
    ["H1"; "H2"; "H3"; "H6"; "H5"].
Proof. repeat split; vm_compute; reflexivity. Qed.

(** Two entries with the same vector tie; the one inserted first is ranked
    first, also when it was upserted again later. *)
Example ties_follow_insertion_order :
  ids (search [1; 0]%float 5
         (run [Upsert "x" [0; 2]%float; Upsert "y" [0; 3]%float; Upsert "z" [2; 0]%float;
               Upsert "x" [0; 5]%float])) = ["z"; "x"; "y"].
Proof. vm_compute. reflexivity. Qed.

(** ** The store and the index together *)

Example shared_world_value :
  shared_world =
  {| db := Some [doc "x1" "bob" None "global" [1; 0]%float;
                 doc "r1" "alice" None "global" [0.9; 0.1]%float;
                 doc "r2" "alice" None "global" [0; 1]%float];
     vectorIndex := [("x1", [1; 0]%float); ("r1", [0.9; 0.1]%float); ("r2", [0; 1]%float)] |}.
Proof. reflexivity. Qed.

(** C8: with the store reachable, the rebuild leaves in the index what
    [clear] followed by one [upsert] per stored record with a non-empty
    embedding array leaves, in the order of the scan, and nothing else.
    Clearing any index and replaying its entries in iteration order gives
    the index back, so every search returns what it returned before;
    replayed in any other order the entries give the same searches when no
    score is NaN and no two entries tie.  The rebuild itself changes nothing
    when the index mirrors the collection. *)
Theorem rebuild_clears_and_replays :
  (forall (env : Env) (w : World) (c : Collection),
     db w = Some c -> driver env = Healthy ->
     rebuildLocalVectorIndex env w =
     (Returned tt,
      {| db := Some c;
         vectorIndex :=
           fold_left apply
             (Clear :: List.map (fun d => Upsert (Doc.memory_id d) (nullish (Doc.embedding d) []))
                         (filter indexable c))
             (vectorIndex w) |})) /\
  (forall (ops : list Op) (query : Vec) (k : Z),
     replay (run ops) (clear (run ops)) = run ops /\
     search query k (replay (run ops) (clear (run ops))) = search query k (run ops)) /\
  (forall (ops : list Op) (entries : list (string * Vec)) (query : Vec) (k : Z),
     Permutation (run ops) entries ->
     no_nan (scored query (run ops)) -> tie_free (scored query (run ops)) ->
     search query k (replay entries (clear (run ops))) = search query k (run ops)) /\
  (forall (env : Env) (w : World),
     mirrors w -> driver env = Healthy -> rebuildLocalVectorIndex env w = (Returned tt, w)).
Proof.
  split; [| split; [| split]].
  - apply rebuild_healthy.
  - intros ops query k. rewrite replay_clear by apply run_NoDup. split; reflexivity.
  - intros ops entries query k Hp Hn Ht. unfold clear.
    rewrite replay_entries.
    + unfold search. f_equal. symmetry. apply sort_perm_eq; try assumption.
      unfold scored. now apply Permutation_map.
    + apply (Permutation_NoDup (l := JsMap.keys (run ops))); [| apply run_NoDup].
      unfold JsMap.keys. now apply Permutation_map.
  - apply rebuild_mirrors.
Qed.

Lemma unique_ids_shared_world : unique_ids
  [doc "x1" "bob" None "global" [1; 0]%float;
   doc "r1" "alice" None "global" [0.9; 0.1]%float;
   doc "r2" "alice" None "global" [0; 1]%float].
Proof.
  unfold unique_ids. cbn. repeat constructor; cbn; intuition discriminate.
Qed.

Lemma mirrors_shared_world : mirrors shared_world.
Proof.
  eexists. split; [reflexivity |]. split; [exact unique_ids_shared_world |].
  split; [reflexivity | repeat constructor].
Qed.

Lemma rebuild_clears_and_replays_witness :
  rebuildLocalVectorIndex (healthy "")
    {| db := db shared_world; vectorIndex := [("stale", [1]%float)] |} =
  (Returned tt, shared_world) /\
  search [1; 0]%float 2 (replay (rev (run scenario_ops)) (clear (run scenario_ops))) =
  search [1; 0]%float 2 (run scenario_ops) /\
  rebuildLocalVectorIndex (healthy "") shared_world = (Returned tt, shared_world).
Proof.
  destruct rebuild_clears_and_replays as (H1 & _ & H3 & H4).
  split; [| split].
  - apply (H1 (healthy "") {| db := db shared_world; vectorIndex := [("stale", [1]%float)] |}
             [doc "x1" "bob" None "global" [1; 0]%float;
              doc "r1" "alice" None "global" [0.9; 0.1]%float;
              doc "r2" "alice" None "global" [0; 1]%float]); reflexivity.
  - apply H3.
    + apply Permutation_rev.
    + repeat constructor.
    + intros a b Ha Hb. vm_compute in Ha, Hb.
      destruct Ha as [<- | [<- | [<- | []]]], Hb as [<- | [<- | [<- | []]]];
        vm_compute; intro E; try reflexivity; discriminate.
  - apply H4; [exact mirrors_shared_world | reflexivity].
Defined.

(** Replaying in another order than the index's own can change how ties are
    broken. *)
Example replay_in_another_order :
  ids (search [1; 0]%float 2 (run [Upsert "x" [1; 0]%float; Upsert "y" [1; 0]%float]))
    = ["x"; "y"] /\
  ids (search [1; 0]%float 2 (run [Upsert "y" [1; 0]%float; Upsert "x" [1; 0]%float]))
    = ["y"; "x"].
Proof. split; vm_compute; reflexivity. Qed.

(** ** Search *)

Lemma unique_ids_inj (c : Collection) (d d' : Doc.t) :
  unique_ids c -> In d c -> In d' c -> Doc.memory_id d = Doc.memory_id d' -> d = d'.
Proof.
  intros Hu Hd Hd' E. apply (by_id_unique c d Hu) in Hd. apply (by_id_unique c d' Hu) in Hd'.
  rewrite E in Hd. congruence.
Qed.

Lemma project_memory_id (d d' : Doc.t) : project d = project d' -> Doc.memory_id d = Doc.memory_id d'.
Proof. unfold project. intro H. now injection H. Qed.

Lemma search_memories_healthy (env : Env) (w : World) (c : Collection) (args : SearchArgs.t) :
  db w = Some c -> driver env = Healthy -> unique_ids c -> search_schema args = true ->
  search_memories env args w =
  (Returned (Memories (List.map project
     (filter (eligibleb (SearchArgs.user_id args) (SearchArgs.agent_id args))
        (candidates
           (ids (search (SearchArgs.query_embedding args)
                   (nullish (SearchArgs.top_k args) 5%Z) (vectorIndex w))) c)))), w).
Proof.
  intros Hdb Hdr Hu Hs. unfold search_memories. rewrite Hs.
  now apply search_body_healthy.
Qed.

(** The route runs the same search as the tool once it accepted the body,
    with [top_k] clamped to [1..50]. *)
Lemma post_search_healthy (env : Env) (w : World) (c : Collection) (body : SearchBody.t)
  (u : string) (q : Vec) :
  db w = Some c -> driver env = Healthy -> unique_ids c ->
  SearchBody.user_id body = Some u -> u <> "" ->
  SearchBody.query_embedding body = Some (NumberArray q) -> q <> [] ->
  post_search env body w =
  (Returned (Memories (List.map project
     (filter (eligibleb u (SearchBody.agent_id body))
        (candidates
           (ids (search q (Z.max 1 (Z.min (nullish (SearchBody.top_k body) 5%Z) 50))
                   (vectorIndex w))) c)))), w).
Proof.
  intros Hdb Hdr Hu Huser Hne Hq Hq'. unfold post_search, falsy. rewrite Huser, Hq.
  apply String.eqb_neq in Hne. rewrite Hne.
  destruct q as [| x q]; [contradiction |]. cbn [List.length Nat.eqb nullish].
  now apply search_body_healthy.
Qed.

(** A global memory stored by agent "clerk" is returned to agent "brain" of
    the same user; the agent-scoped one is returned to "clerk" and not to
    "brain". *)
Example scope_across_agents :
  search_memories (healthy "") (search_args "alice" (Some "brain") [1; 0]%float 3) agents_world
    = (Returned (Memories
         [project (doc "g1" "alice" (Some "clerk") "global" [0.9; 0.1]%float);
          project (doc "g2" "alice" (Some "clerk") "global" [0; 1]%float)]), agents_world) /\
  search_memories (healthy "") (search_args "alice" (Some "clerk") [1; 0]%float 3) agents_world
    = (Returned (Memories
         [project (doc "p1" "alice" (Some "clerk") "agent" [1; 0]%float);
          project (doc "g1" "alice" (Some "clerk") "global" [0.9; 0.1]%float);
          project (doc "g2" "alice" (Some "clerk") "global" [0; 1]%float)]), agents_world).
Proof. split; reflexivity. Qed.

(** C1: among the stored records whose id the index ranked in the top
    [top_k], a record is in the result exactly when it is the requester's
    and global, or the requester's and agent-scoped with the requester's
    [agent_id], an absent [agent_id] being [null] on both sides; so an
    agent-scoped record stored without [agent_id] is returned only to a
    requester without [agent_id]. *)
Theorem search_scope_iff (env : Env) (w : World) (c : Collection) (args : SearchArgs.t)
  (d : Doc.t) :
  db w = Some c -> driver env = Healthy -> unique_ids c -> search_schema args = true ->
  In d c ->
  In (Doc.memory_id d)
     (ids (search (SearchArgs.query_embedding args) (nullish (SearchArgs.top_k args) 5%Z)
             (vectorIndex w))) ->
  exists memories,
    search_memories env args w = (Returned (Memories memories), w) /\
    (In (project d) memories <->
     eligible (SearchArgs.user_id args) (SearchArgs.agent_id args) d) /\
    (Doc.scope d = "agent" -> Doc.agent_id d = None ->
     (In (project d) memories <->
      Doc.user_id d = SearchArgs.user_id args /\ SearchArgs.agent_id args = None)).
Proof.
  intros Hdb Hdr Hu Hs Hd Hrank. eexists. split; [eapply search_memories_healthy; eassumption |].
  set (u := SearchArgs.user_id args). set (a := SearchArgs.agent_id args).
  set (r := ids _) in *.
  assert (Hiff : In (project d) (List.map project (filter (eligibleb u a) (candidates r c)))
                 <-> eligible u a d).
  { rewrite in_map_iff. split.
    - intros [d' [E Hd']]. apply filter_In in Hd' as [Hd' He].
      apply candidates_In in Hd' as [Hd' _]; [| assumption].
      apply project_memory_id in E.
      rewrite <- (unique_ids_inj c d' d Hu Hd' Hd E). now apply eligibleb_spec.
    - intro He. exists d. split; [reflexivity |]. apply filter_In. split.
      + now apply candidates_In.
      + now apply eligibleb_spec. }
  split; [exact Hiff |].
  intros Hscope Hagent. rewrite Hiff. unfold eligible. rewrite Hscope, Hagent.
  split.
  - intros [Hu' [Hg | [_ Ha]]]; [discriminate | now split].
  - intros [Hu' Ha]. split; [assumption |]. right. now split.
Qed.

Lemma search_scope_iff_witness :
  exists memories,
    search_memories (healthy "") (search_args "alice" None [1; 0]%float 2) shared_world
      = (Returned (Memories memories), shared_world) /\
    (In (project (doc "r1" "alice" None "global" [0.9; 0.1]%float)) memories <->
     eligible "alice" None (doc "r1" "alice" None "global" [0.9; 0.1]%float)) /\
    (Doc.scope (doc "r1" "alice" None "global" [0.9; 0.1]%float) = "agent" ->
     Doc.agent_id (doc "r1" "alice" None "global" [0.9; 0.1]%float) = None ->
     (In (project (doc "r1" "alice" None "global" [0.9; 0.1]%float)) memories <->
      Doc.user_id (doc "r1" "alice" None "global" [0.9; 0.1]%float) = "alice" /\
      @None string = None)).
Proof.
  apply (search_scope_iff (healthy "") shared_world
           [doc "x1" "bob" None "global" [1; 0]%float;
            doc "r1" "alice" None "global" [0.9; 0.1]%float;
            doc "r2" "alice" None "global" [0; 1]%float]
           (search_args "alice" None [1; 0]%float 2)
           (doc "r1" "alice" None "global" [0.9; 0.1]%float)).
  - reflexivity.
  - reflexivity.
  - exact unique_ids_shared_world.
  - reflexivity.
  - simpl. tauto.
  - vm_compute. tauto.
Defined.

Lemma kept_ids (u : string) (a : option string) (c : Collection) (r : list string) :
  List.map Doc.memory_id (filter (eligibleb u a) (candidates r c)) =
  filter (eligible_id u a c) r.
Proof.
  unfold candidates, eligible_id. induction r as [| id r IH]; cbn; [reflexivity |].
  rewrite filter_app, map_app, IH.
  destruct (by_id id c) as [d |] eqn:E; cbn; [| reflexivity].
  apply by_id_In in E as [_ <-]. destruct (eligibleb u a d); reflexivity.
Qed.

(** With [top_k = 2], "brain" gets one record: "clerk"'s private memory took
    the first candidate slot, and the eligible third-ranked record "g2" does
    not move up. *)
Example no_backfill :
  search_memories (healthy "") (search_args "alice" (Some "brain") [1; 0]%float 2) agents_world
    = (Returned (Memories [project (doc "g1" "alice" (Some "clerk") "global" [0.9; 0.1]%float)]),
       agents_world) /\
  eligible "alice" (Some "brain") (doc "g2" "alice" (Some "clerk") "global" [0; 1]%float) /\
  In (doc "g2" "alice" (Some "clerk") "global" [0; 1]%float) (nullish (db agents_world) []) /\
  In "g2" (JsMap.keys (vectorIndex agents_world)).
Proof.
  repeat split; try reflexivity; vm_compute; tauto.
Qed.

(** C3: the result is the projection of the eligible candidates, in the
    order the index ranked them: the returned ids are the ranked ids whose
    record is eligible, in rank order; nothing ranked after [top_k] is taken
    in, so fewer than [top_k] records can come back; every returned object
    has the six fields of [view_keys], with the record's values, and no
    [embedding]. *)
Theorem search_keeps_eligible_candidates_in_rank_order
  (env : Env) (w : World) (c : Collection) (args : SearchArgs.t) :
  db w = Some c -> driver env = Healthy -> unique_ids c -> search_schema args = true ->
  let u := SearchArgs.user_id args in
  let a := SearchArgs.agent_id args in
  let topK := nullish (SearchArgs.top_k args) 5%Z in
  let rankedIds := ids (search (SearchArgs.query_embedding args) topK (vectorIndex w)) in
  let kept := filter (eligibleb u a) (candidates rankedIds c) in
  search_memories env args w = (Returned (Memories (List.map project kept)), w) /\
  List.map Doc.memory_id kept = filter (eligible_id u a c) rankedIds /\
  (Z.of_nat (List.length kept) <= Z.of_nat (List.length rankedIds) <= topK)%Z /\
  Forall (fun m => List.map fst m = view_keys /\ ~ In "embedding" (List.map fst m))
    (List.map project kept) /\
  (exists env' args' w' m,
     search_memories env' args' w' = (Returned (Memories [m]), w') /\
     SearchArgs.top_k args' = Some 2%Z /\
     exists d, In d (nullish (db w') []) /\
       eligible (SearchArgs.user_id args') (SearchArgs.agent_id args') d /\
       In (Doc.memory_id d) (JsMap.keys (vectorIndex w')) /\ project d <> m).
Proof.
  intros Hdb Hdr Hu Hs u a topK rankedIds kept.
  split; [now apply search_memories_healthy |].
  split; [apply kept_ids |].
  split.
  - split.
    + subst kept. rewrite <- (length_map Doc.memory_id), kept_ids.
      apply inj_le, filter_length_le.
    + subst rankedIds. unfold ids. rewrite length_map. unfold search.
      apply slice0_length_le. subst topK. unfold search_schema in Hs.
      apply andb_true_iff in Hs as [_ Hs].
      destruct (SearchArgs.top_k args) as [k |]; cbn [nullish]; lia.
  - split.
    + apply Forall_forall. intros m Hm. apply in_map_iff in Hm as [d [<- _]].
      split; [reflexivity |]. cbn. intuition discriminate.
    + exists (healthy ""), (search_args "alice" (Some "brain") [1; 0]%float 2), agents_world,
        (project (doc "g1" "alice" (Some "clerk") "global" [0.9; 0.1]%float)).
      destruct no_backfill as (H1 & H2 & H3 & H4).
      split; [exact H1 |]. split; [reflexivity |].
      exists (doc "g2" "alice" (Some "clerk") "global" [0; 1]%float).
      repeat split; try assumption; try apply H2. discriminate.
Qed.

Lemma search_keeps_eligible_candidates_in_rank_order_witness :
  search_memories (healthy "") (search_args "alice" None [1; 0]%float 2) shared_world
    = (Returned (Memories [project (doc "r1" "alice" None "global" [0.9; 0.1]%float)]),
       shared_world).
Proof.
  apply (search_keeps_eligible_candidates_in_rank_order (healthy "") shared_world
           [doc "x1" "bob" None "global" [1; 0]%float;
            doc "r1" "alice" None "global" [0.9; 0.1]%float;
            doc "r2" "alice" None "global" [0; 1]%float]
           (search_args "alice" None [1; 0]%float 2)).
  - reflexivity.
  - reflexivity.
  - exact unique_ids_shared_world.
  - reflexivity.
Defined.

Lemma get_In {V : Type} (m : JsMap.t V) (k : string) (v : V) :
  JsMap.get k m = Some v -> In (k, v) m.
Proof.
  induction m as [| [k0 v0] m IH]; cbn; [discriminate |].
  destruct (String.eqb_spec k0 k) as [-> | _].
  - intro H. injection H as ->. now left.
  - intro H. right. now apply IH.
Qed.

Lemma set_In {V : Type} (m : JsMap.t V) (k k' : string) (v v' : V) :
  In (k', v') (JsMap.set k v m) -> (k', v') = (k, v) \/ In (k', v') m.
Proof.
  induction m as [| [k0 v0] m IH]; cbn.
  - intuition.
  - destruct (String.eqb_spec k0 k) as [-> | _]; cbn; intuition.
Qed.

Lemma of_entries_In {V : Type} (es : list (string * V)) (e : string * V) :
  In e (JsMap.of_entries es) -> In e es.
Proof.
  unfold JsMap.of_entries.
  enough (forall acc, In e (fold_left (fun m x => JsMap.set (fst x) (snd x) m) es acc) ->
                      In e es \/ In e acc) as H
    by (intro Hin; destruct (H [] Hin) as [? | []]; assumption).
  induction es as [| [k v] es IH]; intros acc Hin; cbn in *.
  - now right.
  - destruct (IH _ Hin) as [H | H]; [now left; right |].
    destruct e as [k' v']. apply set_In in H as [-> | H]; [now left; left | now right].
Qed.

(** Whatever the collection holds, a record a search returns matched the
    scope filter. *)
Lemma ordered_matches (r : list string) (docs : list Doc.t) (d : Doc.t) :
  In d (ordered r docs) -> In d docs.
Proof.
  unfold ordered, filter_Boolean. rewrite in_flat_map.
  intros [o [Ho Hd]]. apply in_map_iff in Ho as [id [<- _]].
  destruct (JsMap.get id (docMap docs)) as [d' |] eqn:E; [| contradiction].
  destruct Hd as [<- | []]. apply get_In, of_entries_In, in_map_iff in E as [d0 [E Hd0]].
  now injection E as _ <-.
Qed.

(** Alice owns two eligible records and asks for two; Bob's record takes the
    first of the two candidate slots and Alice gets one record. *)
Example other_user_takes_a_slot :
  ids (search [1; 0]%float 2 (vectorIndex shared_world)) = ["x1"; "r1"] /\
  search_memories (healthy "") (search_args "alice" None [1; 0]%float 2) shared_world
    = (Returned (Memories [project (doc "r1" "alice" None "global" [0.9; 0.1]%float)]),
       shared_world) /\
  filter (eligibleb "alice" None) (nullish (db shared_world) []) =
    [doc "r1" "alice" None "global" [0.9; 0.1]%float;
     doc "r2" "alice" None "global" [0; 1]%float].
Proof. repeat split; vm_compute; reflexivity. Qed.

(** C10: the candidates are ranked over the whole index, whoever owns the
    vectors: the ranking does not read the requester; another user's record
    can take a candidate slot, so that a requester owning [top_k] eligible
    records gets fewer; and every returned record is a stored record of the
    requester. *)
Theorem search_ranks_all_users_returns_own :
  (forall (env : Env) (args : SearchArgs.t) (w w' : World) (memories : list (list (string * Json))),
     search_memories env args w = (Returned (Memories memories), w') ->
     forall m, In m memories ->
       exists c d, db w = Some c /\ In d c /\
         Doc.user_id d = SearchArgs.user_id args /\ m = project d) /\
  (exists (env : Env) (args : SearchArgs.t) (w : World) (memories : list (list (string * Json))),
     search_memories env args w = (Returned (Memories memories), w) /\
     SearchArgs.top_k args = Some 2%Z /\
     List.length memories = 1 /\
     List.length
       (filter (eligibleb (SearchArgs.user_id args) (SearchArgs.agent_id args))
          (nullish (db w) [])) = 2 /\
     exists d, In d (nullish (db w) []) /\ Doc.user_id d <> SearchArgs.user_id args /\
       In (Doc.memory_id d)
          (ids (search (SearchArgs.query_embedding args) 2 (vectorIndex w)))).
Proof.
  split.
  - intros env args w w' memories H m Hm.
    unfold search_memories in H. destruct (search_schema args); [| discriminate].
    unfold search_body, bind, vectorIndex_search, await_find, bind, memoryCollection, ret in H.
    destruct (Nat.eqb _ 0).
    + injection H as <- _. contradiction.
    + destruct (db w) as [c |] eqn:Hdb; [| discriminate].
      destruct (driver env); try discriminate.
      injection H as <- _. apply in_map_iff in Hm as [d [<- Hd]].
      apply ordered_matches in Hd. apply filter_In in Hd as [Hd Hf].
      rewrite matches_scopeFilter in Hf. apply andb_true_iff in Hf as [Hf _].
      apply eligibleb_spec in Hf as [Hf _].
      exists c, d. repeat split; assumption.
  - exists (healthy ""), (search_args "alice" None [1; 0]%float 2), shared_world,
      [project (doc "r1" "alice" None "global" [0.9; 0.1]%float)].
    destruct other_user_takes_a_slot as (H1 & H2 & H3).
    split; [exact H2 |]. split; [reflexivity |]. split; [reflexivity |].
    split; [cbn [SearchArgs.user_id SearchArgs.agent_id search_args]; now rewrite H3 |].
    exists (doc "x1" "bob" None "global" [1; 0]%float).
    split; [vm_compute; tauto |]. split; [discriminate |].
    cbn [SearchArgs.query_embedding search_args]. rewrite H1. now left.
Qed.

Lemma search_ranks_all_users_returns_own_witness :
  exists c d, db shared_world = Some c /\ In d c /\
    Doc.user_id d = "alice" /\
    project (doc "r1" "alice" None "global" [0.9; 0.1]%float) = project d.
Proof.
  destruct search_ranks_all_users_returns_own as [H _].
  apply (H (healthy "") (search_args "alice" None [1; 0]%float 2) shared_world shared_world
           [project (doc "r1" "alice" None "global" [0.9; 0.1]%float)]).
  - vm_compute. reflexivity.
  - simpl. tauto.
Defined.

(** ** Add and delete *)

(** C5: an empty embedding is refused by the tool's schema and by the
    route's guard, with a client error, before the store or the index is
    touched: the state is the one before the call. *)
Theorem add_empty_embedding_rejected (env : Env) (w : World)
  (user_id scope encrypted_text : string) (agent_id embedding_model : option string)
  (b_user_id b_scope b_encrypted_text : option string) :
  add_memory env
    {| AddArgs.user_id := user_id; AddArgs.agent_id := agent_id; AddArgs.scope := scope;
       AddArgs.encrypted_text := encrypted_text; AddArgs.embedding := [];
       AddArgs.embedding_model := embedding_model |} w
  = (Returned InvalidParams, w) /\
  exists error,
    post_memories env
      {| AddBody.user_id := b_user_id; AddBody.agent_id := agent_id;
         AddBody.scope := b_scope; AddBody.encrypted_text := b_encrypted_text;
         AddBody.embedding := Some (NumberArray []);
         AddBody.embedding_model := embedding_model |} w
    = (Returned (ClientError 400 error), w).
Proof.
  split.
  - unfold add_memory, add_schema. cbn [AddArgs.embedding List.length Nat.leb].
    now rewrite andb_false_r.
  - unfold post_memories. cbn.
    destruct b_user_id, b_scope, b_encrypted_text; eexists; reflexivity.
Qed.

Lemma matches_owned (user_id memory_id : string) (d : Doc.t) :
  matches (FAnd (FEq "user_id" (VString user_id)) (FEq "memory_id" (VString memory_id))) d = true
  <-> owned_by user_id memory_id d.
Proof.
  cbn [matches field String.eqb Ascii.eqb Bool.eqb value_eqb].
  rewrite andb_true_iff, !String.eqb_eq. reflexivity.
Qed.

Lemma deleteOne_spec (f : Filter) (c : Collection) :
  (deleteOne f c = c /\ forall d, In d c -> matches f d = false) \/
  (exists pre d post, c = pre ++ d :: post /\ deleteOne f c = pre ++ post /\
     matches f d = true /\ forall x, In x pre -> matches f x = false).
Proof.
  induction c as [| d c IH]; cbn [deleteOne].
  - left. split; [reflexivity | intros d []].
  - destruct (matches f d) eqn:E.
    + right. exists [], d, c. repeat split; try assumption. intros x [].
    + destruct IH as [[H1 H2] | (pre & d0 & post & H1 & H2 & H3 & H4)].
      * left. split; [now rewrite H1 |]. intros x [<- | Hx]; [assumption | now apply H2].
      * right. exists (d :: pre), d0, post. cbn. rewrite H1 at 1. rewrite H2.
        repeat split; try assumption. intros x [<- | Hx]; [assumption | now apply H4].
Qed.

(** C6: with the store reachable, [delete_memory] answers [{deleted: true}];
    the collection loses at most one record, one that has both the given
    [user_id] and the given [memory_id], and is unchanged when there is
    none; the index loses [memory_id] whatever the collection held, and
    keeps every other key. *)
Theorem delete_memory_store_and_index
  (env : Env) (w : World) (c : Collection) (user_id memory_id : string) :
  db w = Some c -> driver env = Healthy ->
  exists c',
    delete_memory env user_id memory_id w =
      (Returned Deleted, {| db := Some c'; vectorIndex := delete memory_id (vectorIndex w) |}) /\
    ((c' = c /\ forall d, In d c -> ~ owned_by user_id memory_id d) \/
     (exists pre d post, c = pre ++ d :: post /\ c' = pre ++ post /\
        owned_by user_id memory_id d)) /\
    ~ In memory_id (JsMap.keys (delete memory_id (vectorIndex w))) /\
    (forall k, k <> memory_id ->
       (In k (JsMap.keys (delete memory_id (vectorIndex w))) <-> In k (JsMap.keys (vectorIndex w)))).
Proof.
  intros Hdb Hdr.
  exists (deleteOne (FAnd (FEq "user_id" (VString user_id)) (FEq "memory_id" (VString memory_id))) c).
  split; [| split; [| split]].
  - unfold delete_memory, delete_body, await_deleteOne, driver_write, bind, memoryCollection.
    rewrite Hdb, Hdr. reflexivity.
  - destruct (deleteOne_spec
                (FAnd (FEq "user_id" (VString user_id)) (FEq "memory_id" (VString memory_id))) c)
      as [[H1 H2] | (pre & d & post & H1 & H2 & H3 & _)].
    + left. split; [assumption |]. intros d Hd Ho. apply matches_owned in Ho.
      rewrite (H2 d Hd) in Ho. discriminate.
    + right. exists pre, d, post. apply matches_owned in H3.
      split; [exact H1 | split; [exact H2 | exact H3]].
  - unfold delete. rewrite keys_delete. tauto.
  - intros k Hk. unfold delete. rewrite keys_delete. tauto.
Qed.

(** Bob deletes Alice's memory "r1": the collection keeps the record, the
    index loses the key, the answer is [{deleted: true}]. *)
Example delete_other_users_memory :
  delete_memory (healthy "") "bob" "r1" shared_world =
  (Returned Deleted,
   {| db := db shared_world;
      vectorIndex := [("x1", [1; 0]%float); ("r2", [0; 1]%float)] |}).
Proof. reflexivity. Qed.

Lemma delete_memory_store_and_index_witness :
  exists c',
    delete_memory (healthy "") "alice" "r1" shared_world =
      (Returned Deleted,
       {| db := Some c'; vectorIndex := delete "r1" (vectorIndex shared_world) |}) /\
    ((c' = nullish (db shared_world) [] /\
      forall d, In d (nullish (db shared_world) []) -> ~ owned_by "alice" "r1" d) \/
     (exists pre d post, nullish (db shared_world) [] = pre ++ d :: post /\ c' = pre ++ post /\
        owned_by "alice" "r1" d)) /\
    ~ In "r1" (JsMap.keys (delete "r1" (vectorIndex shared_world))) /\
    (forall k, k <> "r1" ->
       (In k (JsMap.keys (delete "r1" (vectorIndex shared_world))) <->
        In k (JsMap.keys (vectorIndex shared_world)))).
Proof.
  apply (delete_memory_store_and_index (healthy "") shared_world
           (nullish (db shared_world) []) "alice" "r1"); reflexivity.
Defined.

(** The route answers as the tool does when [user_id] is given and not
    empty, and refuses the request otherwise. *)
Lemma delete_memories_route (env : Env) (w : World) (id : string) (user_id : option string) :
  delete_memories env id user_id w =
  match user_id with
  | None => (Returned (ClientError 400 "user_id required in query"), w)
  | Some u =>
      if String.eqb u "" then (Returned (ClientError 400 "user_id required in query"), w)
      else delete_memory env u id w
  end.
Proof.
  unfold delete_memories, falsy. destruct user_id as [u |]; [| reflexivity].
  destruct (String.eqb u ""); reflexivity.
Qed.

Lemma add_body_persisted_first (env : Env) (w : World) (user_id : string)
  (agent_id : option string) (scope encrypted_text : string) (embedding : Vec)
  (embedding_model : option string) :
  persisted_first (new_doc env user_id agent_id scope encrypted_text embedding embedding_model)
    embedding w
    (add_body env user_id agent_id scope encrypted_text embedding embedding_model w).
Proof.
  unfold persisted_first, add_body, await_insertOne, driver_write, bind, memoryCollection,
    vectorIndex_upsert, modify_index, write_collection, throw, ret, insertOne.
  destruct (db w) as [c |] eqn:Hdb; cbn [fst snd].
  - destruct (driver env); cbn [fst snd db vectorIndex].
    + split; [split; [reflexivity | exists c; repeat split] |].
      intros _. exists (c ++ [new_doc env user_id agent_id scope encrypted_text embedding
                                embedding_model]).
      split; [reflexivity | apply in_or_app; right; now left].
    + split; [split; [reflexivity | now left] | intro H; now contradiction H].
    + split; [split; [reflexivity | right; exists c; now split] | intro H; now contradiction H].
  - split; [split; [reflexivity | now left] | intro H; now contradiction H].
Qed.

(** C7: in the tool and in the route the insert is awaited before the
    upsert runs: when the insert throws (the store is not connected, the
    driver rejects before or after the write took effect) the handler ends
    there and the index is the one before the call; whenever the index
    changed, the record is in the collection. *)
Theorem add_persists_before_indexing (env : Env) (w : World) :
  (forall args : AddArgs.t,
     add_schema args = true ->
     persisted_first
       (new_doc env (AddArgs.user_id args) (AddArgs.agent_id args) (AddArgs.scope args)
          (AddArgs.encrypted_text args) (AddArgs.embedding args) (AddArgs.embedding_model args))
       (AddArgs.embedding args) w (add_memory env args w)) /\
  (forall (body : AddBody.t) (user_id scope encrypted_text : string) (embedding : Vec),
     AddBody.user_id body = Some user_id -> AddBody.scope body = Some scope ->
     AddBody.encrypted_text body = Some encrypted_text ->
     AddBody.embedding body = Some (NumberArray embedding) -> embedding <> [] ->
     persisted_first
       (new_doc env user_id (AddBody.agent_id body) scope encrypted_text embedding
          (AddBody.embedding_model body))
       embedding w (post_memories env body w)).
Proof.
  split.
  - intros args Hs. unfold add_memory. rewrite Hs. apply add_body_persisted_first.
  - intros body user_id scope encrypted_text embedding Hu Hs He Hv Hne.
    unfold post_memories. rewrite Hu, Hs, He, Hv.
    destruct embedding as [| x v]; [contradiction |]. cbn [List.length Nat.eqb].
    apply add_body_persisted_first.
Qed.

(** The insert was applied and then the request was cut: the record is
    durable and not indexed. *)
Example add_cut_after_insert :
  add_memory {| uuidv4 := "m1"; now := 7; driver := FailsAfterWrite |}
    (add_args "alice" None "global" [1; 0]%float) started =
  (Threw "MongoError",
   {| db := Some [new_doc {| uuidv4 := "m1"; now := 7; driver := FailsAfterWrite |}
                    "alice" None "global" "ciphertext" [1; 0]%float None];
      vectorIndex := [] |}).
Proof. reflexivity. Qed.

Lemma add_persists_before_indexing_witness :
  persisted_first
    (new_doc {| uuidv4 := "m1"; now := 7; driver := FailsAfterWrite |}
       "alice" None "global" "ciphertext" [1; 0]%float None)
    [1; 0]%float started
    (add_memory {| uuidv4 := "m1"; now := 7; driver := FailsAfterWrite |}
       (add_args "alice" None "global" [1; 0]%float) started) /\
  persisted_first
    (new_doc (healthy "m2") "alice" None "global" "ciphertext" [1; 0]%float None)
    [1; 0]%float started
    (post_memories (healthy "m2")
       {| AddBody.user_id := Some "alice"; AddBody.agent_id := None;
          AddBody.scope := Some "global"; AddBody.encrypted_text := Some "ciphertext";
          AddBody.embedding := Some (NumberArray [1; 0]%float);
          AddBody.embedding_model := None |} started).
Proof.
  split.
  - destruct (add_persists_before_indexing
                {| uuidv4 := "m1"; now := 7; driver := FailsAfterWrite |} started) as [H _].
    apply (H (add_args "alice" None "global" [1; 0]%float)). reflexivity.
  - destruct (add_persists_before_indexing (healthy "m2") started) as [_ H].
    apply (H {| AddBody.user_id := Some "alice"; AddBody.agent_id := None;
                AddBody.scope := Some "global"; AddBody.encrypted_text := Some "ciphertext";
                AddBody.embedding := Some (NumberArray [1; 0]%float);
                AddBody.embedding_model := None |}
             "alice" "global" "ciphertext" [1; 0]%float);
      try reflexivity. discriminate.
Defined.

(* ===================================================================== *)
(** * Further properties of the code *)
(* ===================================================================== *)

(** ** The vector index *)

Lemma SFmul_comm (x y : spec_float) : SF64mul x y = SF64mul y x.
Proof.
  unfold SF64mul.
  destruct x as [sx | sx | | sx mx ex], y as [sy | sy | | sy my ey]; cbn [SFmul];
    rewrite ?(xorb_comm sx sy); try reflexivity.
  now rewrite (Pos.mul_comm mx my), (Z.add_comm ex ey).
Qed.

Lemma float_mul_comm (x y : float) : (x * y)%float = (y * x)%float.
Proof. apply Prim2SF_inj. rewrite !mul_spec. apply SFmul_comm. Qed.

Lemma accumulate_swap (a b : Vec) (d na nb : float) :
  fold_left
    (fun '(dot, na, nb) '(x, y) => (dot + x * y, na + x * x, nb + y * y)%float)
    (combine b a) (d, nb, na) =
  (let '(d', na', nb') :=
     fold_left
       (fun '(dot, na, nb) '(x, y) => (dot + x * y, na + x * x, nb + y * y)%float)
       (combine a b) (d, na, nb) in
   (d', nb', na')).
Proof.
  revert b d na nb. induction a as [| x a IH]; intros [| y b] d na nb; try reflexivity.
  cbn [combine fold_left]. rewrite (float_mul_comm y x). apply IH.
Qed.

(** X1. The similarity does not depend on which vector is the query:
    [cosine(a, b)] and [cosine(b, a)] are the same number, bit for bit. *)
Theorem cosine_symmetric (a b : Vec) : cosine a b = cosine b a.
Proof.
  unfold cosine, accumulate. rewrite (Nat.eqb_sym (List.length b) (List.length a)).
  destruct (Nat.eqb (List.length a) (List.length b)); [| reflexivity]. cbn [negb].
  rewrite (accumulate_swap a b 0 0 0).
  destruct (fold_left _ (combine a b) _) as [[d na] nb].
  now rewrite (float_mul_comm (sqrt nb) (sqrt na)).
Qed.

Lemma slice0_length {A : Type} (l : list A) (k : Z) :
  Z.of_nat (List.length (slice0 l k)) =
  if (k <? 0)%Z then Z.max (Z.of_nat (List.length l) + k) 0
  else Z.min k (Z.of_nat (List.length l)).
Proof.
  unfold slice0. rewrite length_firstn.
  destruct (Z.ltb_spec k 0); lia.
Qed.

Lemma scored_length (query : Vec) (map : LocalVectorIndex) :
  List.length (sort by_score_desc (scored query map)) = List.length map.
Proof. rewrite sort_length. unfold scored. apply length_map. Qed.

(** X2. [search] returns [min(k, n)] pairs of an index of [n] entries when
    [k >= 0], none when [k = 0], and all but the last [-k] (none when
    [-k >= n]) when [k] is negative. *)
Theorem search_length (query : Vec) (k : Z) (map : LocalVectorIndex) :
  Z.of_nat (List.length (search query k map)) =
  (if (k <? 0)%Z then Z.max (Z.of_nat (List.length map) + k) 0
   else Z.min k (Z.of_nat (List.length map))) /\
  search query 0 map = [].
Proof.
  split.
  - unfold search. now rewrite slice0_length, scored_length.
  - unfold search, slice0. cbn. destruct (Z.of_nat _); reflexivity.
Qed.

(** X3. What [search] returns is the best of the index: when no score is
    NaN, every returned pair scores at least as high as every entry that was
    left out. *)
Theorem search_returns_the_best (query : Vec) (k : Z) (map : LocalVectorIndex) (e e' : Scored) :
  no_nan (scored query map) ->
  In e (search query k map) -> In e' (scored query map) -> ~ In e' (search query k map) ->
  score_ge e e'.
Proof.
  intros Hn He He' Hout. unfold search in *.
  destruct (slice0_prefix (sort by_score_desc (scored query map)) k) as [rest E].
  pose proof (sort_sorted _ Hn) as Hs. rewrite E in Hs.
  apply (StronglySorted_app_cross _ _ _ _ _ Hs He).
  apply (Permutation_in _ (Permutation_sym (sort_perm by_score_desc _))) in He'.
  rewrite E in He'. apply in_app_or in He' as [H | H]; [contradiction | exact H].
Qed.

Lemma search_returns_the_best_witness :
  score_ge {| memory_id := "C"; score := cosine [1; 0]%float [0.9; 0.1]%float |}
           {| memory_id := "B"; score := cosine [1; 0]%float [0; 1]%float |}.
Proof.
  apply (search_returns_the_best [1; 0]%float 2 (run scenario_ops)).
  - repeat constructor.
  - vm_compute. right. left. reflexivity.
  - vm_compute. right. left. reflexivity.
  - vm_compute. intros [H | [H | []]]; discriminate.
Defined.

Lemma ids_sort_perm (query : Vec) (map : LocalVectorIndex) :
  Permutation (ids (sort by_score_desc (scored query map))) (JsMap.keys map).
Proof.
  rewrite <- (ids_scored query). unfold ids. apply Permutation_map, sort_perm.
Qed.

Lemma NoDup_prefix {A : Type} (l1 l2 : list A) : NoDup (l1 ++ l2) -> NoDup l1.
Proof. apply NoDup_app_remove_r. Qed.

(** X4. The ids [search] returns are pairwise different, and with [k] at
    least the number of entries they are exactly the ids that were upserted
    and not deleted or cleared since. *)
Theorem search_ids_distinct_and_complete (ops : list Op) (query : Vec) (k : Z) :
  NoDup (ids (search query k (run ops))) /\
  ((Z.of_nat (List.length (run ops)) <= k)%Z ->
   forall id, In id (ids (search query k (run ops))) <-> live id ops).
Proof.
  split.
  - unfold search.
    destruct (slice0_prefix (sort by_score_desc (scored query (run ops))) k) as [rest E].
    pose proof (run_NoDup ops) as Hn.
    apply (Permutation_NoDup (Permutation_sym (ids_sort_perm query (run ops)))) in Hn.
    rewrite E in Hn. unfold ids in *. rewrite map_app in Hn. now apply NoDup_prefix in Hn.
  - intros Hk id. unfold search. rewrite slice0_all by now rewrite scored_length.
    split.
    + intro H. apply run_live. now apply (Permutation_in _ (ids_sort_perm query (run ops))).
    + intro H. apply live_run in H.
      now apply (Permutation_in _ (Permutation_sym (ids_sort_perm query (run ops)))).
Qed.

Lemma search_ids_distinct_and_complete_witness :
  In "C" (ids (search [1; 0]%float 3 (run scenario_ops))) <-> live "C" scenario_ops.
Proof.
  destruct (search_ids_distinct_and_complete scenario_ops [1; 0]%float 3) as [_ H].
  apply H. vm_compute. discriminate.
Defined.

(** X5. A larger [k] only appends: for [0 <= k <= k'] the result for [k] is
    the beginning of the result for [k']. *)
Theorem search_grows_with_k (query : Vec) (k k' : Z) (map : LocalVectorIndex) :
  (0 <= k <= k')%Z ->
  exists rest, search query k' map = search query k map ++ rest.
Proof.
  intros [H0 Hk]. unfold search, slice0.
  destruct (Z.ltb_spec k 0); [lia |]. destruct (Z.ltb_spec k' 0); [lia |].
  set (l := sort by_score_desc (scored query map)).
  set (n := Z.to_nat (Z.min k (Z.of_nat (List.length l)))).
  set (n' := Z.to_nat (Z.min k' (Z.of_nat (List.length l)))).
  exists (skipn n (firstn n' l)).
  rewrite <- (firstn_skipn n (firstn n' l)) at 1. f_equal.
  rewrite firstn_firstn. f_equal. subst n n'. lia.
Qed.

Lemma search_grows_with_k_witness :
  exists rest,
    search [1; 0]%float 3 (run scenario_ops) = search [1; 0]%float 2 (run scenario_ops) ++ rest.
Proof. apply search_grows_with_k. lia. Defined.

Lemma filter_idem {A : Type} (f : A -> bool) (l : list A) :
  filter f (filter f l) = filter f l.
Proof.
  induction l as [| x l IH]; cbn; [reflexivity |].
  destruct (f x) eqn:E; cbn; [rewrite E; now f_equal | assumption].
Qed.

(** X6. Calls that change nothing: [delete] of an id the index does not
    hold, a second [delete] of an id, and a second [upsert] of an id with
    the same vector leave the index, hence every search, as it was; an
    [upsert] of a held id keeps the id's place in the iteration order. *)
Theorem index_calls_without_effect (map : LocalVectorIndex) (id : string) (v v' : Vec) :
  (~ In id (JsMap.keys map) -> delete id map = map) /\
  delete id (delete id map) = delete id map /\
  upsert id v (upsert id v map) = upsert id v map /\
  upsert id v (upsert id v' map) = upsert id v map /\
  (In id (JsMap.keys map) -> JsMap.keys (upsert id v map) = JsMap.keys map).
Proof.
  assert (Hup : forall u u' : Vec, upsert id u (upsert id u' map) = upsert id u map).
  { intros u u'. unfold upsert. induction map as [| [k0 v0] m IH]; cbn.
    - now rewrite String.eqb_refl.
    - destruct (String.eqb k0 id) eqn:E; cbn; rewrite E; [reflexivity | now rewrite IH]. }
  repeat split.
  - intro H. unfold delete, JsMap.delete. apply forallb_filter_id, forallb_forall.
    intros [k0 v0] Hin. cbn. destruct (String.eqb_spec k0 id) as [-> | _]; [| reflexivity].
    exfalso. apply H. unfold JsMap.keys. apply in_map_iff. now exists (id, v0).
  - unfold delete, JsMap.delete. apply filter_idem.
  - apply Hup.
  - apply Hup.
  - apply keys_set_present.
Qed.

Lemma index_calls_without_effect_witness :
  delete "Z" (run scenario_ops) = run scenario_ops /\
  JsMap.keys (upsert "A" [7]%float (run scenario_ops)) = JsMap.keys (run scenario_ops).
Proof.
  destruct (index_calls_without_effect (run scenario_ops) "Z" [] []) as (H & _).
  destruct (index_calls_without_effect (run scenario_ops) "A" [7]%float []) as (_ & _ & _ & _ & H').
  split.
  - apply H. vm_compute. intuition discriminate.
  - apply H'. vm_compute. tauto.
Defined.

(** ** The tools and routes of [server.ts] *)

Lemma ordered_nil (r : list string) : ordered r [] = [].
Proof. unfold ordered, filter_Boolean. induction r as [| id r IH]; cbn; [reflexivity | exact IH]. Qed.

Lemma ordered_ranked (r : list string) (docs : list Doc.t) (d : Doc.t) :
  In d (ordered r docs) -> In (Doc.memory_id d) r.
Proof.
  unfold ordered, filter_Boolean. rewrite in_flat_map.
  intros [o [Ho Hd]]. apply in_map_iff in Ho as [id [<- Hid]].
  destruct (JsMap.get id (docMap docs)) as [d' |] eqn:E; [| contradiction].
  destruct Hd as [<- | []]. apply get_In, of_entries_In, in_map_iff in E as [d0 [E _]].
  injection E as <- <-. exact Hid.
Qed.

Lemma ordered_length (r : list string) (docs : list Doc.t) :
  List.length (ordered r docs) <= List.length r.
Proof.
  unfold ordered, filter_Boolean. induction r as [| id r IH]; cbn; [lia |].
  rewrite length_app. destruct (JsMap.get id (docMap docs)); cbn; lia.
Qed.

(** What a search that answered with memories did: it left the state as it
    was and returned the projections of documents that matched the scope
    filter, picked by the ranked ids. *)
Lemma search_body_returned (env : Env) (u : string) (a : option string) (q : Vec) (k : Z)
  (w w' : World) (ms : list (list (string * Json))) :
  search_body env u a q k w = (Returned (Memories ms), w') ->
  w' = w /\
  exists docs,
    ms = List.map project (ordered (ids (search q k (vectorIndex w))) docs) /\
    forall d, In d docs -> In d (nullish (db w) []) /\ eligibleb u a d = true.
Proof.
  unfold search_body, bind, vectorIndex_search, await_find, bind, memoryCollection, ret.
  destruct (Nat.eqb _ 0).
  - intro H. injection H as <- <-. split; [reflexivity |]. exists []. split.
    + now rewrite ordered_nil.
    + intros d [].
  - destruct (db w) as [c |] eqn:Hdb; [| discriminate].
    destruct (driver env); try discriminate.
    intro H. injection H as <- <-. split; [reflexivity |].
    eexists. split; [reflexivity |]. intros d Hd. unfold find in Hd.
    apply filter_In in Hd as [Hd Hf]. rewrite matches_scopeFilter in Hf.
    apply andb_true_iff in Hf as [Hf _]. now split.
Qed.

Lemma search_body_state (env : Env) (u : string) (a : option string) (q : Vec) (k : Z)
  (w : World) : snd (search_body env u a q k w) = w.
Proof.
  unfold search_body, bind, vectorIndex_search, await_find, bind, memoryCollection, ret, throw.
  destruct (Nat.eqb _ 0); [reflexivity |].
  destruct (db w); [| reflexivity]. destruct (driver env); reflexivity.
Qed.

Lemma search_memories_state (env : Env) (args : SearchArgs.t) (w : World) :
  snd (search_memories env args w) = w.
Proof.
  unfold search_memories. destruct (search_schema args); [| reflexivity].
  apply search_body_state.
Qed.

(** X7. A search never writes: whatever the arguments, the state of the
    store, the index and the driver, and whether it answers, refuses or
    throws, the tool and the route leave the collection and the index as
    they were. *)
Theorem search_never_writes (env : Env) (w : World) :
  (forall args : SearchArgs.t, snd (search_memories env args w) = w) /\
  (forall body : SearchBody.t, snd (post_search env body w) = w).
Proof.
  split.
  - intro args. unfold search_memories. destruct (search_schema args); [| reflexivity].
    apply search_body_state.
  - intro body. unfold post_search. destruct (falsy _); [reflexivity |].
    destruct (SearchBody.query_embedding body) as [[| q] |]; try reflexivity.
    destruct (Nat.eqb _ 0); [reflexivity |]. apply search_body_state.
Qed.

(** X8. "Same behavior as tools": on an input that both accept, a route and
    its tool return the same reply and leave the same state, whatever the
    state and the driver: [POST /v1/search] with [top_k] absent or in
    [1..50], [POST /v1/memories] with a scope of the enum, and
    [DELETE /v1/memories/:id] with a non-empty [user_id]. *)
Theorem routes_agree_with_tools (env : Env) (w : World) :
  (forall (body : SearchBody.t) (u : string) (q : Vec),
     SearchBody.user_id body = Some u -> u <> "" ->
     SearchBody.query_embedding body = Some (NumberArray q) -> q <> [] ->
     (forall k, SearchBody.top_k body = Some k -> (1 <= k <= 50)%Z) ->
     post_search env body w =
     search_memories env
       {| SearchArgs.user_id := u; SearchArgs.agent_id := SearchBody.agent_id body;
          SearchArgs.query_embedding := q; SearchArgs.top_k := SearchBody.top_k body |} w) /\
  (forall (body : AddBody.t) (u s t : string) (v : Vec),
     AddBody.user_id body = Some u -> AddBody.scope body = Some s ->
     AddBody.encrypted_text body = Some t ->
     AddBody.embedding body = Some (NumberArray v) -> v <> [] ->
     s = "global" \/ s = "agent" ->
     post_memories env body w =
     add_memory env
       {| AddArgs.user_id := u; AddArgs.agent_id := AddBody.agent_id body;
          AddArgs.scope := s; AddArgs.encrypted_text := t; AddArgs.embedding := v;
          AddArgs.embedding_model := AddBody.embedding_model body |} w) /\
  (forall (id u : string), u <> "" ->
     delete_memories env id (Some u) w = delete_memory env u id w).
Proof.
  split; [| split].
  - intros body u q Hu Hne Hq Hq' Hk.
    unfold post_search, search_memories, search_schema, falsy.
    cbn [SearchArgs.user_id SearchArgs.agent_id SearchArgs.query_embedding SearchArgs.top_k].
    rewrite Hu, Hq. apply String.eqb_neq in Hne. rewrite Hne.
    destruct q as [| x q]; [contradiction |]. cbn [List.length Nat.eqb Nat.leb andb nullish].
    destruct (SearchBody.top_k body) as [k |]; cbn [nullish].
    + specialize (Hk k eq_refl).
      replace ((1 <=? k)%Z && (k <=? 50)%Z) with true
        by (symmetry; apply andb_true_iff; split; apply Z.leb_le; lia).
      now replace (Z.max 1 (Z.min k 50)) with k by lia.
    + reflexivity.
  - intros body u s t v Hu Hs Ht Hv Hne Hscope.
    unfold post_memories, add_memory, add_schema.
    cbn [AddArgs.user_id AddArgs.agent_id AddArgs.scope AddArgs.encrypted_text
         AddArgs.embedding AddArgs.embedding_model].
    rewrite Hu, Hs, Ht, Hv. destruct v as [| x v]; [contradiction |].
    cbn [List.length Nat.eqb Nat.leb]. rewrite andb_true_r.
    destruct Hscope as [-> | ->]; reflexivity.
  - intros id u Hne. unfold delete_memories, falsy, delete_memory. cbn [nullish].
    apply String.eqb_neq in Hne. now rewrite Hne.
Qed.

Lemma routes_agree_with_tools_witness :
  post_search (healthy "")
    {| SearchBody.user_id := Some "alice"; SearchBody.agent_id := None;
       SearchBody.query_embedding := Some (NumberArray [1; 0]%float);
       SearchBody.top_k := Some 2%Z |} shared_world =
  search_memories (healthy "") (search_args "alice" None [1; 0]%float 2) shared_world /\
  delete_memories (healthy "") "r1" (Some "alice") shared_world =
  delete_memory (healthy "") "alice" "r1" shared_world.
Proof.
  destruct (routes_agree_with_tools (healthy "") shared_world) as (H1 & _ & H3).
  split.
  - apply (H1 {| SearchBody.user_id := Some "alice"; SearchBody.agent_id := None;
                 SearchBody.query_embedding := Some (NumberArray [1; 0]%float);
                 SearchBody.top_k := Some 2%Z |} "alice" [1; 0]%float);
      try reflexivity; try discriminate.
    intros k E. injection E as <-. lia.
  - apply H3. discriminate.
Defined.

(** X9. [POST /v1/search] clamps [top_k] into [1..50]: whatever [top_k] the
    body carries (negative, zero, huge or none) and whatever the collection
    holds, an answer has at most 50 memories and at most [max(1, top_k)]
    ([top_k] read as 5 when absent). *)
Theorem post_search_at_most_50 (env : Env) (body : SearchBody.t) (w w' : World)
  (ms : list (list (string * Json))) :
  post_search env body w = (Returned (Memories ms), w') ->
  (Z.of_nat (List.length ms) <= 50)%Z /\
  (Z.of_nat (List.length ms) <= Z.max 1 (nullish (SearchBody.top_k body) 5))%Z.
Proof.
  unfold post_search. destruct (falsy _); [discriminate |].
  destruct (SearchBody.query_embedding body) as [[| q] |]; try discriminate.
  destruct (Nat.eqb _ 0); [discriminate |].
  intro H. apply search_body_returned in H as (_ & docs & -> & _).
  rewrite length_map.
  pose proof (ordered_length
                (ids (search q (Z.max 1 (Z.min (nullish (SearchBody.top_k body) 5) 50))%Z
                        (vectorIndex w))) docs) as Hl.
  assert (Hi : List.length
                 (ids (search q (Z.max 1 (Z.min (nullish (SearchBody.top_k body) 5) 50))%Z
                         (vectorIndex w))) =
               List.length
                 (search q (Z.max 1 (Z.min (nullish (SearchBody.top_k body) 5) 50))%Z
                    (vectorIndex w)))
    by (unfold ids; apply length_map).
  assert (Hs : (Z.of_nat (List.length
                   (search q (Z.max 1 (Z.min (nullish (SearchBody.top_k body) 5) 50))
                      (vectorIndex w)))
                <= Z.max 1 (Z.min (nullish (SearchBody.top_k body) 5) 50))%Z)
    by (unfold search; apply slice0_length_le; lia).
  lia.
Qed.

Lemma post_search_at_most_50_witness :
  (Z.of_nat (List.length [project (doc "r1" "alice" None "global" [0.9; 0.1]%float);
                          project (doc "r2" "alice" None "global" [0; 1]%float)]) <= 50)%Z /\
  (Z.of_nat (List.length [project (doc "r1" "alice" None "global" [0.9; 0.1]%float);
                          project (doc "r2" "alice" None "global" [0; 1]%float)])
   <= Z.max 1 (nullish (Some 1000%Z) 5))%Z.
Proof.
  apply (post_search_at_most_50 (healthy "")
           {| SearchBody.user_id := Some "alice"; SearchBody.agent_id := None;
              SearchBody.query_embedding := Some (NumberArray [1; 0]%float);
              SearchBody.top_k := Some 1000%Z |} shared_world shared_world).
  reflexivity.
Defined.

Lemma returned_scope (env : Env) (u : string) (a : option string) (q : Vec) (k : Z)
  (w w' : World) (ms : list (list (string * Json))) (d : Doc.t) :
  search_body env u a q k w = (Returned (Memories ms), w') ->
  In (project d) ms -> Doc.scope d = "global" \/ Doc.scope d = "agent".
Proof.
  intros H Hin. apply search_body_returned in H as (_ & docs & -> & Hdocs).
  apply in_map_iff in Hin as [d' [E Hd']]. apply ordered_matches in Hd'.
  destruct (Hdocs d' Hd') as [_ He]. apply eligibleb_spec in He as [_ He].
  assert (Es : Doc.scope d' = Doc.scope d) by (unfold project in E; now injection E).
  rewrite <- Es. tauto.
Qed.

(** X10. The tool refuses a scope outside [global]/[agent] without touching
    the state, the route stores and indexes the record with whatever scope
    string it is given, and no search by the tool or the route ever returns a
    record whose scope is neither [global] nor [agent]. *)
Theorem scope_outside_the_enum (env : Env) (w : World) :
  (forall args : AddArgs.t,
     AddArgs.scope args <> "global" -> AddArgs.scope args <> "agent" ->
     add_memory env args w = (Returned InvalidParams, w)) /\
  (forall (body : AddBody.t) (u s t : string) (v : Vec) (c : Collection),
     AddBody.user_id body = Some u -> AddBody.scope body = Some s ->
     AddBody.encrypted_text body = Some t ->
     AddBody.embedding body = Some (NumberArray v) -> v <> [] ->
     db w = Some c -> driver env = Healthy ->
     post_memories env body w =
     (Returned (MemoryId (uuidv4 env)),
      {| db := Some (c ++ [new_doc env u (AddBody.agent_id body) s t v
                             (AddBody.embedding_model body)]);
         vectorIndex := upsert (uuidv4 env) v (vectorIndex w) |})) /\
  (forall (args : SearchArgs.t) (body : SearchBody.t) (w' : World)
          (ms : list (list (string * Json))) (d : Doc.t),
     search_memories env args w = (Returned (Memories ms), w') \/
     post_search env body w = (Returned (Memories ms), w') ->
     Doc.scope d <> "global" -> Doc.scope d <> "agent" -> ~ In (project d) ms).
Proof.
  split; [| split].
  - intros args Hg Ha. unfold add_memory, add_schema.
    apply String.eqb_neq in Hg, Ha. now rewrite Hg, Ha.
  - intros body u s t v c Hu Hs Ht Hv Hne Hdb Hdr.
    unfold post_memories. rewrite Hu, Hs, Ht, Hv.
    destruct v as [| x v]; [contradiction |]. cbn [List.length Nat.eqb].
    unfold add_body, await_insertOne, driver_write, bind, memoryCollection, write_collection,
      vectorIndex_upsert, modify_index, ret.
    rewrite Hdb, Hdr. reflexivity.
  - intros args body w' ms d H Hg Ha Hin.
    assert (Hs : Doc.scope d = "global" \/ Doc.scope d = "agent"); [| tauto].
    destruct H as [H | H].
    + unfold search_memories in H. destruct (search_schema args); [| discriminate].
      eapply returned_scope; eassumption.
    + unfold post_search in H. destruct (falsy _); [discriminate |].
      destruct (SearchBody.query_embedding body) as [[| q] |]; try discriminate.
      destruct (Nat.eqb _ 0); [discriminate |].
      eapply returned_scope; eassumption.
Qed.

Lemma scope_outside_the_enum_witness :
  add_memory (healthy "t1") (add_args "alice" None "team" [1; 0]%float) started
    = (Returned InvalidParams, started) /\
  post_memories (healthy "t1")
    {| AddBody.user_id := Some "alice"; AddBody.agent_id := None;
       AddBody.scope := Some "team"; AddBody.encrypted_text := Some "ciphertext";
       AddBody.embedding := Some (NumberArray [1; 0]%float);
       AddBody.embedding_model := None |} started
    = (Returned (MemoryId "t1"),
       {| db := Some [doc "t1" "alice" None "team" [1; 0]%float];
          vectorIndex := [("t1", [1; 0]%float)] |}) /\
  ~ In (project (doc "t1" "alice" None "team" [1; 0]%float))
       [project (doc "r1" "alice" None "global" [0.9; 0.1]%float)].
Proof.
  split; [| split].
  - destruct (scope_outside_the_enum (healthy "t1") started) as (H & _).
    apply H; discriminate.
  - destruct (scope_outside_the_enum (healthy "t1") started) as (_ & H & _).
    apply (H {| AddBody.user_id := Some "alice"; AddBody.agent_id := None;
                AddBody.scope := Some "team"; AddBody.encrypted_text := Some "ciphertext";
                AddBody.embedding := Some (NumberArray [1; 0]%float);
                AddBody.embedding_model := None |} "alice" "team" "ciphertext" [1; 0]%float []);
      try reflexivity. discriminate.
  - destruct (scope_outside_the_enum (healthy "") shared_world) as (_ & _ & H).
    apply (H (search_args "alice" None [1; 0]%float 2)
             {| SearchBody.user_id := None; SearchBody.agent_id := None;
                SearchBody.query_embedding := None; SearchBody.top_k := None |}
             shared_world); [left; reflexivity | discriminate | discriminate].
Defined.

Lemma fold_apply_clear (l : list Op) (map : LocalVectorIndex) :
  fold_left apply (Clear :: l) map = run l.
Proof. reflexivity. Qed.

Lemma live_among_upserts (id : string) (v : Vec) (l : list Op) :
  In (Upsert id v) l -> Forall (fun o => exists i u, o = Upsert i u) l -> live id l.
Proof.
  intros Hin Hall. apply in_split in Hin as (before & after & ->).
  exists before, v, after. split; [reflexivity |].
  apply Forall_app in Hall as [_ Hall]. inversion Hall as [| ? ? _ Hafter]; subst.
  eapply Forall_impl; [| exact Hafter]. intros o (i & u & ->). split; discriminate.
Qed.

Lemma delete_memory_healthy (env : Env) (w : World) (c : Collection) (u id : string) :
  db w = Some c -> driver env = Healthy ->
  delete_memory env u id w =
  (Returned Deleted,
   {| db := Some (deleteOne (FAnd (FEq "user_id" (VString u)) (FEq "memory_id" (VString id))) c);
      vectorIndex := delete id (vectorIndex w) |}).
Proof.
  intros Hdb Hdr.
  unfold delete_memory, delete_body, await_deleteOne, driver_write, bind, memoryCollection.
  rewrite Hdb, Hdr. reflexivity.
Qed.

Lemma deleteOne_nomatch (f : Filter) (c : Collection) :
  (forall d, In d c -> matches f d = false) -> deleteOne f c = c.
Proof.
  induction c as [| d c IH]; intro H; cbn [deleteOne]; [reflexivity |].
  rewrite (H d (or_introl eq_refl)). f_equal. apply IH. intros x Hx. apply H. now right.
Qed.

(** X11. A delete hides the id from every later search, whoever issued it:
    after [delete_memory(user_id, memory_id)] no search returns a memory with
    that id.  When the caller does not own the record the collection keeps
    it, so another user's memory disappears from search while it stays
    stored; and the next rebuild puts every stored, indexable record of that
    id back into the index. *)
Theorem delete_hides_until_rebuild (env : Env) (w : World) (c : Collection) (u id : string) :
  db w = Some c -> driver env = Healthy ->
  (forall (env' : Env) (args : SearchArgs.t) (w' : World) (ms : list (list (string * Json)))
          (d : Doc.t),
     search_memories env' args (snd (delete_memory env u id w)) = (Returned (Memories ms), w') ->
     Doc.memory_id d = id -> ~ In (project d) ms) /\
  ((forall d, In d c -> ~ owned_by u id d) -> db (snd (delete_memory env u id w)) = Some c) /\
  (forall (env' : Env) (d : Doc.t),
     driver env' = Healthy ->
     In d (nullish (db (snd (delete_memory env u id w))) []) ->
     Doc.memory_id d = id -> indexable d = true ->
     In id (JsMap.keys
              (vectorIndex (snd (rebuildLocalVectorIndex env' (snd (delete_memory env u id w))))))).
Proof.
  intros Hdb Hdr. rewrite (delete_memory_healthy env w c u id Hdb Hdr). cbn [snd].
  split; [| split].
  - intros env' args w' ms d H Hid Hin.
    unfold search_memories in H. destruct (search_schema args); [| discriminate].
    apply search_body_returned in H as (_ & docs & -> & _).
    apply in_map_iff in Hin as [d' [E Hd']]. apply project_memory_id in E.
    apply ordered_ranked, search_ids_In in Hd'. cbn [vectorIndex] in Hd'.
    unfold delete in Hd'. apply keys_delete in Hd' as [Hne _]. congruence.
  - intro Hnone. cbn [db]. f_equal. apply deleteOne_nomatch.
    intros d Hd. destruct (matches _ d) eqn:E; [| reflexivity].
    apply matches_owned in E. now apply Hnone in E.
  - intros env' d Hdr' Hd Hid Hix. cbn [db nullish] in Hd.
    erewrite rebuild_healthy; [| reflexivity | exact Hdr']. cbn [snd vectorIndex].
    rewrite fold_apply_clear. apply live_run.
    apply (live_among_upserts id (nullish (Doc.embedding d) [])).
    + apply in_map_iff. exists d. split; [now rewrite Hid |].
      apply filter_In. now split.
    + apply Forall_forall. intros o Ho. apply in_map_iff in Ho as [d' [<- _]]. eauto.
Qed.

Lemma delete_hides_until_rebuild_witness :
  db (snd (delete_memory (healthy "") "bob" "r1" shared_world)) = db shared_world /\
  ~ In (project (doc "r1" "alice" None "global" [0.9; 0.1]%float))
       [project (doc "r2" "alice" None "global" [0; 1]%float)] /\
  In "r1" (JsMap.keys
             (vectorIndex
                (snd (rebuildLocalVectorIndex (healthy "")
                        (snd (delete_memory (healthy "") "bob" "r1" shared_world)))))).
Proof.
  destruct (delete_hides_until_rebuild (healthy "") shared_world
              (nullish (db shared_world) []) "bob" "r1" eq_refl eq_refl) as (H1 & H2 & H3).
  split; [| split].
  - apply H2. intros d Hd [Hu Hi]. vm_compute in Hd.
    destruct Hd as [<- | [<- | [<- | []]]]; discriminate.
  - apply (H1 (healthy "") (search_args "alice" None [1; 0]%float 2)
              (snd (delete_memory (healthy "") "bob" "r1" shared_world))); reflexivity.
  - apply (H3 (healthy "") (doc "r1" "alice" None "global" [0.9; 0.1]%float));
      try reflexivity. vm_compute. tauto.
Defined.

Lemma set_length {V : Type} (m : JsMap.t V) (k : string) (v : V) :
  List.length (JsMap.set k v m) <= S (List.length m).
Proof.
  induction m as [| [k0 v0] m IH]; cbn; [lia |].
  destruct (String.eqb k0 k); cbn; lia.
Qed.

Lemma unique_ids_snoc (c : Collection) (d : Doc.t) :
  unique_ids c -> ~ In (Doc.memory_id d) (List.map Doc.memory_id c) -> unique_ids (c ++ [d]).
Proof.
  unfold unique_ids. intros Hu Hnew. rewrite map_app. cbn.
  apply NoDup_app; [assumption | repeat constructor; intros [] |].
  intros x Hx [<- | []]. contradiction.
Qed.

(** X12. Add then search: a memory added with a new id to a store whose
    index holds fewer than [top_k] entries is returned to its owner by the
    next search, for every query, when it is global or when the searching
    agent is the storing agent. *)
Theorem add_then_search_finds_it
  (env env' : Env) (w : World) (c : Collection) (args : AddArgs.t) (sargs : SearchArgs.t) :
  db w = Some c -> unique_ids c -> ~ In (uuidv4 env) (List.map Doc.memory_id c) ->
  driver env = Healthy -> driver env' = Healthy ->
  add_schema args = true -> search_schema sargs = true ->
  SearchArgs.user_id sargs = AddArgs.user_id args ->
  AddArgs.scope args = "global" \/ SearchArgs.agent_id sargs = AddArgs.agent_id args ->
  (Z.of_nat (List.length (vectorIndex w)) < nullish (SearchArgs.top_k sargs) 5)%Z ->
  exists ms,
    search_memories env' sargs (snd (add_memory env args w)) =
      (Returned (Memories ms), snd (add_memory env args w)) /\
    In (project (new_doc env (AddArgs.user_id args) (AddArgs.agent_id args)
                   (AddArgs.scope args) (AddArgs.encrypted_text args)
                   (AddArgs.embedding args) (AddArgs.embedding_model args))) ms.
Proof.
  intros Hdb Hu Hnew Hdr Hdr' Hs Hs' Huser Hscope Hk.
  set (d := new_doc env _ _ _ _ _ _).
  assert (Hw : snd (add_memory env args w) =
               {| db := Some (c ++ [d]);
                  vectorIndex := upsert (uuidv4 env) (AddArgs.embedding args) (vectorIndex w) |}).
  { unfold add_memory. rewrite Hs.
    unfold add_body, await_insertOne, driver_write, bind, memoryCollection, write_collection,
      vectorIndex_upsert, modify_index, ret.
    rewrite Hdb, Hdr. reflexivity. }
  rewrite Hw.
  assert (Hu' : unique_ids (c ++ [d])) by now apply unique_ids_snoc.
  eexists. split.
  - apply (search_memories_healthy env' _ (c ++ [d])); try assumption; reflexivity.
  - cbn [vectorIndex]. apply in_map, filter_In. split.
    + apply candidates_In; [assumption |]. split; [apply in_or_app; right; now left |].
      unfold search. rewrite slice0_all.
      * apply (Permutation_in _ (Permutation_sym (ids_sort_perm _ _))).
        unfold upsert. apply keys_set. now left.
      * rewrite scored_length.
        pose proof (set_length (vectorIndex w) (uuidv4 env) (AddArgs.embedding args)) as Hl.
        unfold upsert. lia.
    + apply eligibleb_spec. split; [now rewrite Huser |].
      cbn [d new_doc Doc.scope Doc.agent_id].
      unfold add_schema in Hs. apply andb_true_iff in Hs as [Hs _].
      apply orb_true_iff in Hs. rewrite !String.eqb_eq in Hs.
      destruct Hscope as [Hg | Ha]; [now left |].
      destruct Hs as [Hg | Hag]; [now left | right; now split].
Qed.

Lemma add_then_search_finds_it_witness :
  exists ms,
    search_memories (healthy "")
      (search_args "alice" (Some "clerk") [0; 7]%float 5)
      (snd (add_memory (healthy "n1") (add_args "alice" (Some "clerk") "agent" [1; 0]%float)
              shared_world)) =
    (Returned (Memories ms),
     snd (add_memory (healthy "n1") (add_args "alice" (Some "clerk") "agent" [1; 0]%float)
            shared_world)) /\
    In (project (new_doc (healthy "n1") "alice" (Some "clerk") "agent" "ciphertext"
                   [1; 0]%float None)) ms.
Proof.
  apply (add_then_search_finds_it (healthy "n1") (healthy "") shared_world
           (nullish (db shared_world) [])
           (add_args "alice" (Some "clerk") "agent" [1; 0]%float)
           (search_args "alice" (Some "clerk") [0; 7]%float 5)); try reflexivity.
  - exact unique_ids_shared_world.
  - vm_compute. intuition discriminate.
  - right. reflexivity.
Defined.

Lemma deleteOne_leaves_no_match (u id : string) (c : Collection) :
  unique_ids c ->
  forall d,
    In d (deleteOne (FAnd (FEq "user_id" (VString u)) (FEq "memory_id" (VString id))) c) ->
    matches (FAnd (FEq "user_id" (VString u)) (FEq "memory_id" (VString id))) d = false.
Proof.
  intros Hu d Hd.
  destruct (deleteOne_spec (FAnd (FEq "user_id" (VString u)) (FEq "memory_id" (VString id))) c)
    as [[E Hnone] | (pre & d0 & post & Ec & E & Hm & Hpre)]; rewrite E in Hd.
  - now apply Hnone.
  - destruct (matches _ d) eqn:Em; [| reflexivity]. exfalso.
    apply in_app_or in Hd as [Hd | Hd].
    + apply Hpre in Hd. congruence.
    + apply matches_owned in Hm as [_ Hid0]. apply matches_owned in Em as [_ Hid].
      unfold unique_ids in Hu. rewrite Ec, map_app in Hu. cbn in Hu.
      apply NoDup_remove_2 in Hu. apply Hu, in_or_app. right.
      rewrite Hid0, <- Hid. now apply in_map.
Qed.

(** X13. Deleting twice is deleting once: with unique ids, a second
    [delete_memory] with the same arguments answers [{deleted: true}] again
    and changes neither the collection nor the index. *)
Theorem delete_memory_twice (env env' : Env) (w : World) (c : Collection) (u id : string) :
  db w = Some c -> unique_ids c -> driver env = Healthy -> driver env' = Healthy ->
  delete_memory env' u id (snd (delete_memory env u id w)) =
  (Returned Deleted, snd (delete_memory env u id w)).
Proof.
  intros Hdb Hu Hdr Hdr'. rewrite (delete_memory_healthy env w c u id Hdb Hdr). cbn [snd].
  erewrite delete_memory_healthy; [| reflexivity | exact Hdr']. cbn [vectorIndex].
  rewrite (deleteOne_nomatch _ (deleteOne _ c)) by now apply deleteOne_leaves_no_match.
  unfold delete, JsMap.delete. now rewrite filter_idem.
Qed.

Lemma delete_memory_twice_witness :
  delete_memory (healthy "") "alice" "r1"
    (snd (delete_memory (healthy "") "alice" "r1" shared_world)) =
  (Returned Deleted, snd (delete_memory (healthy "") "alice" "r1" shared_world)).
Proof.
  apply (delete_memory_twice (healthy "") (healthy "") shared_world
           (nullish (db shared_world) [])); try reflexivity.
  exact unique_ids_shared_world.
Defined.

Lemma search_nonempty (q : Vec) (k : Z) (map : LocalVectorIndex) :
  (1 <= k)%Z -> map <> [] -> Nat.eqb (List.length (ids (search q k map))) 0 = false.
Proof.
  intros Hk Hm. apply Nat.eqb_neq. unfold ids. rewrite length_map.
  assert (H : Z.of_nat (List.length (search q k map)) =
              Z.min k (Z.of_nat (List.length map))).
  { unfold search. rewrite slice0_length, scored_length.
    destruct (Z.ltb_spec k 0); [lia | reflexivity]. }
  destruct map; [contradiction |]. cbn [List.length] in H. lia.
Qed.

(** X14. Before [connectMongo]: [memoryCollection()] throws, so an accepted
    add and every delete throw "Mongo not initialized" and leave the index
    as it was; a search throws the same error when the index ranks
    something, but answers with no memories, without an error, when the
    index is empty. *)
Theorem before_connectMongo (w : World) :
  db w = None ->
  (forall env args, add_schema args = true ->
     add_memory env args w = (Threw "Mongo not initialized", w)) /\
  (forall env u id, delete_memory env u id w = (Threw "Mongo not initialized", w)) /\
  (forall env args, search_schema args = true -> vectorIndex w <> [] ->
     search_memories env args w = (Threw "Mongo not initialized", w)) /\
  (forall env args, search_schema args = true -> vectorIndex w = [] ->
     search_memories env args w = (Returned (Memories []), w)).
Proof.
  intro Hdb. repeat split.
  - intros env args Hs. unfold add_memory. rewrite Hs.
    unfold add_body, await_insertOne, driver_write, bind, memoryCollection.
    now rewrite Hdb.
  - intros env u id.
    unfold delete_memory, delete_body, await_deleteOne, driver_write, bind, memoryCollection.
    now rewrite Hdb.
  - intros env args Hs Hix. unfold search_memories. rewrite Hs.
    unfold search_body, bind, vectorIndex_search, await_find, bind, memoryCollection.
    rewrite search_nonempty; [now rewrite Hdb | | assumption].
    unfold search_schema in Hs. apply andb_true_iff in Hs as [_ Hs].
    destruct (SearchArgs.top_k args); cbn [nullish]; lia.
  - intros env args Hs Hix. unfold search_memories. rewrite Hs.
    unfold search_body, bind, vectorIndex_search. rewrite Hix.
    replace (ids (search _ _ [])) with (@nil string); [reflexivity |].
    unfold search, slice0. cbn. now destruct (Z.to_nat _).
Qed.

Lemma before_connectMongo_witness :
  add_memory (healthy "m") (add_args "alice" None "global" [1]%float)
    {| db := None; vectorIndex := [] |}
  = (Threw "Mongo not initialized", {| db := None; vectorIndex := [] |}) /\
  search_memories (healthy "") (search_args "alice" None [1]%float 3)
    {| db := None; vectorIndex := [] |}
  = (Returned (Memories []), {| db := None; vectorIndex := [] |}).
Proof.
  destruct (before_connectMongo {| db := None; vectorIndex := [] |} eq_refl)
    as (H1 & _ & _ & H4).
  split; [apply H1 | apply H4]; reflexivity.
Defined.

(** X15. A rebuild that cannot read the collection (not connected, or the
    driver rejects) throws after it cleared the index: the index is empty
    afterwards, whatever it held, and every accepted search then answers
    with no memories and no error. *)
Theorem failed_rebuild_empties_the_index (env : Env) (w : World) :
  db w = None \/ driver env <> Healthy ->
  (exists error,
     rebuildLocalVectorIndex env w = (Threw error, {| db := db w; vectorIndex := [] |})) /\
  (forall env' args, search_schema args = true ->
     search_memories env' args (snd (rebuildLocalVectorIndex env w)) =
     (Returned (Memories []), snd (rebuildLocalVectorIndex env w))).
Proof.
  intro H.
  assert (E : exists error,
             rebuildLocalVectorIndex env w = (Threw error, {| db := db w; vectorIndex := [] |})).
  { unfold rebuildLocalVectorIndex, bind, vectorIndex_clear, modify_index, await_find, bind,
      memoryCollection, throw. cbn [db vectorIndex clear].
    destruct (db w) as [c |]; [| eexists; reflexivity].
    destruct H as [H | H]; [discriminate |].
    destruct (driver env); [contradiction | |]; eexists; reflexivity. }
  split; [exact E |].
  destruct E as [error ->]. cbn [snd]. intros env' args Hs.
  unfold search_memories. rewrite Hs.
  unfold search_body, bind, vectorIndex_search. cbn [vectorIndex].
  replace (ids (search _ _ [])) with (@nil string); [reflexivity |].
  unfold search, slice0. cbn. now destruct (Z.to_nat _).
Qed.

Lemma failed_rebuild_empties_the_index_witness :
  exists error,
    rebuildLocalVectorIndex {| uuidv4 := ""; now := 0; driver := FailsBeforeWrite |} shared_world
    = (Threw error, {| db := db shared_world; vectorIndex := [] |}).
Proof.
  apply (failed_rebuild_empties_the_index
           {| uuidv4 := ""; now := 0; driver := FailsBeforeWrite |} shared_world).
  right. discriminate.
Defined.

Lemma serve_mirrors (w : World) (r : Requests.Request) :
  mirrors w -> Requests.orderly w r -> mirrors (Requests.serve w r).
Proof.
  intros Hm Ho. destruct r as [env args | env args | env u id]; cbn [Requests.serve].
  - destruct Ho as (Hdr & Hs & Hnew). now apply add_memory_mirrors.
  - now rewrite search_memories_state.
  - destruct Ho as (Hdr & Hown). now apply delete_memory_mirrors.
Qed.

Lemma orderly_run_mirrors (rs : list Requests.Request) :
  forall w, mirrors w -> Requests.orderly_run w rs -> mirrors (fold_left Requests.serve rs w).
Proof.
  induction rs as [| r rs IH]; intros w Hm Ho; cbn [fold_left]; [assumption |].
  destruct Ho as [Ho Hrest]. apply IH; [now apply serve_mirrors | assumption].
Qed.

(** X16. Orderly runs keep the index in step with the collection: starting
    from a mirroring state (an empty store, or the state a rebuild left),
    after any sequence of tool calls in which the driver answers, each add
    draws an unused id and each delete names the caller's own memory or no
    stored one, the index holds exactly the stored records, in the order of
    the collection; a restart (rebuild) then changes nothing. *)
Theorem orderly_run_keeps_the_mirror (w : World) (rs : list Requests.Request) :
  mirrors w -> Requests.orderly_run w rs ->
  mirrors (fold_left Requests.serve rs w) /\
  vectorIndex (fold_left Requests.serve rs w) =
    List.map entry (nullish (db (fold_left Requests.serve rs w)) []) /\
  (forall env, driver env = Healthy ->
     rebuildLocalVectorIndex env (fold_left Requests.serve rs w) =
     (Returned tt, fold_left Requests.serve rs w)).
Proof.
  intros Hm Ho. pose proof (orderly_run_mirrors rs w Hm Ho) as H.
  split; [exact H |]. split.
  - destruct H as (c & Hdb & _ & Hix & _). now rewrite Hdb.
  - intros env Hdr. now apply rebuild_mirrors.
Qed.

Lemma orderly_run_keeps_the_mirror_witness :
  mirrors
    (fold_left Requests.serve
       [Requests.Add (healthy "a1") (add_args "alice" None "global" [1; 0]%float);
        Requests.Add (healthy "b1") (add_args "bob" None "global" [0; 1]%float);
        Requests.Search (healthy "") (search_args "alice" None [1; 0]%float 5);
        Requests.Delete (healthy "") "alice" "a1"] started).
Proof.
  apply orderly_run_keeps_the_mirror.
  - exists []. repeat split; constructor.
  - cbn. repeat split; try reflexivity; try tauto.
    + intros [H | []]. discriminate.
    + intros d [<- | [<- | []]]; [reflexivity | discriminate].
Defined.

(** ** The tool logic of the bootstrap file *)

Lemma find_ids_length (ids : list string) (c : list Bootstrap.Document) :
  NoDup (List.map Bootstrap.document_id c) ->
  List.length (Bootstrap.find_ids ids c) <= List.length ids.
Proof.
  intro Hn. unfold Bootstrap.find_ids.
  rewrite <- (length_map Bootstrap.document_id).
  apply NoDup_incl_length.
  - induction c as [| d c IH]; cbn; [constructor |].
    inversion Hn as [| ? ? Hout Hn']; subst.
    destruct (existsb _ ids); cbn; [| now apply IH].
    constructor; [| now apply IH]. intro Hin. apply Hout.
    apply in_map_iff in Hin as [d' [E Hd']]. apply filter_In in Hd' as [Hd' _].
    rewrite <- E. now apply in_map.
  - intros id Hin. apply in_map_iff in Hin as [d [<- Hd]].
    apply filter_In in Hd as [_ Hd]. apply existsb_exists in Hd as [i [Hi E]].
    apply String.eqb_eq in E. now rewrite E.
Qed.

(** X17. The search of [/mcp] does not look at the owner: with the store
    and the embedding model answering, the facts it returns are those of
    the stored documents whose id the index ranked, in the order of the
    collection and not of the ranking, so a document is returned whoever
    owns it, and the answer is the same for every [user_id] in the call. *)
Theorem mcp_search_returns_any_owner
  (env : Bootstrap.Env) (args : Bootstrap.Args.t) (s : Bootstrap.State)
  (c : list Bootstrap.Document) (q : Vec) :
  Bootstrap.db s = Some c -> Bootstrap.driver env = Healthy ->
  Bootstrap.embedder env (Bootstrap.Args.query_text args) = Some q ->
  exists facts,
    Bootstrap.call_tool env "search_memories" args s = (Returned (Bootstrap.Facts facts), s) /\
    facts =
      List.map Bootstrap.view
        (filter
           (fun d =>
              existsb (String.eqb (Bootstrap.document_id d))
                (ids (search q (Bootstrap.top_k_or_5 (Bootstrap.Args.top_k args))
                        (Bootstrap.vectorIndex s)))) c) /\
    (forall d, In d c ->
       In (Bootstrap.document_id d)
          (ids (search q (Bootstrap.top_k_or_5 (Bootstrap.Args.top_k args))
                  (Bootstrap.vectorIndex s))) ->
       In (Bootstrap.view d) facts) /\
    (forall user_id,
       Bootstrap.call_tool env "search_memories"
         {| Bootstrap.Args.user_id := user_id;
            Bootstrap.Args.text := Bootstrap.Args.text args;
            Bootstrap.Args.scope := Bootstrap.Args.scope args;
            Bootstrap.Args.query_text := Bootstrap.Args.query_text args;
            Bootstrap.Args.top_k := Bootstrap.Args.top_k args |} s =
       (Returned (Bootstrap.Facts facts), s)).
Proof.
  intros Hdb Hdr Hq. eexists. split; [| split; [reflexivity | split]].
  - unfold Bootstrap.call_tool, Bootstrap.call_search_memories. cbn [String.eqb Ascii.eqb Bool.eqb].
    rewrite Hq, Hdb, Hdr. reflexivity.
  - intros d Hd Hid. apply in_map, filter_In. split; [assumption |].
    now apply existsb_eqb_In.
  - intro user_id. unfold Bootstrap.call_tool, Bootstrap.call_search_memories.
    cbn [String.eqb Ascii.eqb Bool.eqb Bootstrap.Args.query_text Bootstrap.Args.top_k].
    rewrite Hq, Hdb, Hdr. reflexivity.
Qed.

(** X18. With document ids unique in the collection, the search of [/mcp]
    returns at most as many facts as the index holds entries; when
    [top_k || 5] is not negative that is at most [top_k || 5], which is [5]
    when [top_k] is absent or [0]. *)
Theorem mcp_search_at_most_k
  (env : Bootstrap.Env) (args : Bootstrap.Args.t) (s : Bootstrap.State)
  (c : list Bootstrap.Document) (facts : list Bootstrap.FactView) :
  Bootstrap.db s = Some c ->
  NoDup (List.map Bootstrap.document_id c) ->
  fst (Bootstrap.call_tool env "search_memories" args s) = Returned (Bootstrap.Facts facts) ->
  (List.length facts <= List.length (Bootstrap.vectorIndex s))%nat /\
  ((0 <= Bootstrap.top_k_or_5 (Bootstrap.Args.top_k args))%Z ->
   (Z.of_nat (List.length facts) <= Bootstrap.top_k_or_5 (Bootstrap.Args.top_k args))%Z) /\
  (Bootstrap.Args.top_k args = None \/ Bootstrap.Args.top_k args = Some 0%Z ->
   (List.length facts <= 5)%nat).
Proof.
  intros Hdb Hn Hret.
  unfold Bootstrap.call_tool, Bootstrap.call_search_memories in Hret.
  cbn [String.eqb Ascii.eqb Bool.eqb] in Hret.
  destruct (Bootstrap.embedder env _) as [q |]; [| discriminate].
  rewrite Hdb in Hret. destruct (Bootstrap.driver env); try discriminate.
  cbn [fst] in Hret. injection Hret as <-.
  rewrite length_map.
  set (k := Bootstrap.top_k_or_5 (Bootstrap.Args.top_k args)).
  pose proof (find_ids_length (ids (search q k (Bootstrap.vectorIndex s))) c Hn) as Hle.
  unfold ids in Hle at 2. rewrite length_map in Hle.
  assert (Hlen : Z.of_nat (List.length (search q k (Bootstrap.vectorIndex s))) =
                 if (k <? 0)%Z
                 then Z.max (Z.of_nat (List.length (Bootstrap.vectorIndex s)) + k) 0
                 else Z.min k (Z.of_nat (List.length (Bootstrap.vectorIndex s))))
    by (unfold search; now rewrite slice0_length, scored_length).
  assert (Hk5 : Bootstrap.Args.top_k args = None \/ Bootstrap.Args.top_k args = Some 0%Z ->
                k = 5%Z)
    by (subst k; intros [-> | ->]; reflexivity).
  destruct (Z.ltb_spec k 0) as [Hneg | Hpos].
  - split; [lia | split; [lia |]]. intro H. apply Hk5 in H. lia.
  - split; [lia | split; [lia |]]. intro H. apply Hk5 in H. lia.
Qed.

Lemma mcp_search_at_most_k_witness :
  (Z.of_nat (List.length [{| Bootstrap.fact := Some "likes tea"; Bootstrap.when := 1%Z |}]) <= 1)%Z.
Proof.
  refine (proj1 (proj2 (mcp_search_at_most_k
    {| Bootstrap.randomUUID := "m3"; Bootstrap.now := 3%Z;
       Bootstrap.driver := Healthy;
       Bootstrap.embedder := fun _ => Some [1; 0]%float |}
    {| Bootstrap.Args.user_id := "bob"; Bootstrap.Args.text := "";
       Bootstrap.Args.scope := ""; Bootstrap.Args.query_text := "tea";
       Bootstrap.Args.top_k := Some 1%Z |}
    {| Bootstrap.db :=
         Some [Bootstrap.Plaintext
                 {| Bootstrap.Plain.memory_id := "m1";
                    Bootstrap.Plain.user_id := "alice";
                    Bootstrap.Plain.text := "likes tea";
                    Bootstrap.Plain.embedding := [1; 0]%float;
                    Bootstrap.Plain.created_at := 1%Z |};
               Bootstrap.Plaintext
                 {| Bootstrap.Plain.memory_id := "m2";
                    Bootstrap.Plain.user_id := "bob";
                    Bootstrap.Plain.text := "likes rye";
                    Bootstrap.Plain.embedding := [0; 1]%float;
                    Bootstrap.Plain.created_at := 2%Z |}];
       Bootstrap.vectorIndex := [("m1", [1; 0]%float); ("m2", [0; 1]%float)] |}
    _ [{| Bootstrap.fact := Some "likes tea"; Bootstrap.when := 1%Z |}]
    eq_refl _ _)) _).
  - cbn. repeat constructor; cbn; intuition discriminate.
  - vm_compute. reflexivity.
  - cbn. lia.
Defined.

Lemma mcp_search_returns_any_owner_witness :
  exists facts,
    Bootstrap.call_tool
      {| Bootstrap.randomUUID := "m3"; Bootstrap.now := 3%Z;
         Bootstrap.driver := Healthy;
         Bootstrap.embedder := fun _ => Some [1; 0]%float |}
      "search_memories"
      {| Bootstrap.Args.user_id := "bob"; Bootstrap.Args.text := "";
         Bootstrap.Args.scope := ""; Bootstrap.Args.query_text := "tea";
         Bootstrap.Args.top_k := Some 1%Z |}
      {| Bootstrap.db :=
           Some [Bootstrap.Plaintext
                   {| Bootstrap.Plain.memory_id := "m1";
                      Bootstrap.Plain.user_id := "alice";
                      Bootstrap.Plain.text := "likes tea";
                      Bootstrap.Plain.embedding := [1; 0]%float;
                      Bootstrap.Plain.created_at := 1%Z |}];
         Bootstrap.vectorIndex := [("m1", [1; 0]%float)] |}
    = (Returned (Bootstrap.Facts facts),
       {| Bootstrap.db :=
            Some [Bootstrap.Plaintext
                    {| Bootstrap.Plain.memory_id := "m1";
                       Bootstrap.Plain.user_id := "alice";
                       Bootstrap.Plain.text := "likes tea";
                       Bootstrap.Plain.embedding := [1; 0]%float;
                       Bootstrap.Plain.created_at := 1%Z |}];
          Bootstrap.vectorIndex := [("m1", [1; 0]%float)] |}) /\
    In {| Bootstrap.fact := Some "likes tea"; Bootstrap.when := 1%Z |} facts.
Proof.
  destruct (mcp_search_returns_any_owner
    {| Bootstrap.randomUUID := "m3"; Bootstrap.now := 3%Z;
       Bootstrap.driver := Healthy;
       Bootstrap.embedder := fun _ => Some [1; 0]%float |}
    {| Bootstrap.Args.user_id := "bob"; Bootstrap.Args.text := "";
       Bootstrap.Args.scope := ""; Bootstrap.Args.query_text := "tea";
       Bootstrap.Args.top_k := Some 1%Z |}
    {| Bootstrap.db :=
         Some [Bootstrap.Plaintext
                 {| Bootstrap.Plain.memory_id := "m1";
                    Bootstrap.Plain.user_id := "alice";
                    Bootstrap.Plain.text := "likes tea";
                    Bootstrap.Plain.embedding := [1; 0]%float;
                    Bootstrap.Plain.created_at := 1%Z |}];
       Bootstrap.vectorIndex := [("m1", [1; 0]%float)] |}
    _ [1; 0]%float eq_refl eq_refl eq_refl) as (facts & Hcall & _ & Hin & _).
  exists facts. split; [exact Hcall |].
  apply (Hin (Bootstrap.Plaintext
                {| Bootstrap.Plain.memory_id := "m1";
                   Bootstrap.Plain.user_id := "alice";
                   Bootstrap.Plain.text := "likes tea";
                   Bootstrap.Plain.embedding := [1; 0]%float;
                   Bootstrap.Plain.created_at := 1%Z |})).
  - left. reflexivity.
  - vm_compute. left. reflexivity.
Defined.

(** X19. [add_memory] of [/mcp] stores before it indexes and never stores
    a scope: on success the collection gained one plaintext document with
    the caller's [user_id], the text and its embedding under the fresh id,
    and the index that id; when the call throws the index is as before, and
    the collection too unless the insert was applied before it failed; the
    outcome is the same for every [scope] argument; and a tool name other
    than the two served throws "Tool not found" and changes nothing. *)
Theorem mcp_add_stores_then_indexes
  (env : Bootstrap.Env) (args : Bootstrap.Args.t) (s : Bootstrap.State) :
  let r := Bootstrap.call_tool env "add_memory" args s in
  (forall a, fst r = Returned a ->
     a = Bootstrap.Saved /\
     exists c v,
       Bootstrap.embedder env (Bootstrap.Args.text args) = Some v /\
       Bootstrap.db s = Some c /\
       Bootstrap.db (snd r) =
         Some (c ++ [Bootstrap.Plaintext
                       {| Bootstrap.Plain.memory_id := Bootstrap.randomUUID env;
                          Bootstrap.Plain.user_id := Bootstrap.Args.user_id args;
                          Bootstrap.Plain.text := Bootstrap.Args.text args;
                          Bootstrap.Plain.embedding := v;
                          Bootstrap.Plain.created_at := Bootstrap.now env |}]) /\
       Bootstrap.vectorIndex (snd r) =
         upsert (Bootstrap.randomUUID env) v (Bootstrap.vectorIndex s)) /\
  (forall e, fst r = Threw e ->
     Bootstrap.vectorIndex (snd r) = Bootstrap.vectorIndex s /\
     (Bootstrap.db (snd r) = Bootstrap.db s \/ Bootstrap.driver env = FailsAfterWrite)) /\
  (Bootstrap.vectorIndex (snd r) <> Bootstrap.vectorIndex s ->
   exists c d,
     Bootstrap.db (snd r) = Some c /\ In d c /\
     Bootstrap.document_id d = Bootstrap.randomUUID env /\
     Bootstrap.document_owner d = Bootstrap.Args.user_id args) /\
  (forall scope,
     Bootstrap.call_tool env "add_memory"
       {| Bootstrap.Args.user_id := Bootstrap.Args.user_id args;
          Bootstrap.Args.text := Bootstrap.Args.text args;
          Bootstrap.Args.scope := scope;
          Bootstrap.Args.query_text := Bootstrap.Args.query_text args;
          Bootstrap.Args.top_k := Bootstrap.Args.top_k args |} s = r) /\
  (forall name, name <> "add_memory" -> name <> "search_memories" ->
     Bootstrap.call_tool env name args s = (Threw "Tool not found", s)).
Proof.
  cbv zeta. unfold Bootstrap.call_tool.
  change (String.eqb "add_memory" "add_memory") with true. cbv iota.
  unfold Bootstrap.call_add_memory. cbn [Bootstrap.Args.text Bootstrap.Args.user_id].
  repeat split.
  - destruct (Bootstrap.embedder env _), (Bootstrap.db s), (Bootstrap.driver env);
      cbn in H; try discriminate. now injection H as <-.
  - destruct (Bootstrap.embedder env _) as [v |], (Bootstrap.db s) as [c |],
      (Bootstrap.driver env); cbn in H; try discriminate.
    exists c, v. cbn. repeat split.
  - destruct (Bootstrap.embedder env _), (Bootstrap.db s), (Bootstrap.driver env);
      cbn in H |- *; try discriminate; reflexivity.
  - destruct (Bootstrap.embedder env _), (Bootstrap.db s) as [c |] eqn:Edb,
      (Bootstrap.driver env); cbn in H |- *; try discriminate; auto.
  - intro H.
    destruct (Bootstrap.embedder env _) as [v |], (Bootstrap.db s) as [c |],
      (Bootstrap.driver env); cbn in H |- *; try (now contradiction H).
    eexists _, _. split; [reflexivity |]. split; [apply in_or_app; right; left; reflexivity |].
    split; reflexivity.
  - intros name H1 H2.
    apply String.eqb_neq in H1, H2. now rewrite H1, H2.
Qed.

(** X20. A fact saved through [/mcp] is returned to whoever searches next:
    when the index held fewer entries than the search's [top_k || 5] and
    the store and the embedding model answer both calls, the next
    [search_memories] returns the text just added, whatever [user_id] the
    two calls carry. *)
Theorem mcp_fact_reaches_every_user
  (env1 env2 : Bootstrap.Env) (args1 args2 : Bootstrap.Args.t) (s : Bootstrap.State)
  (c : list Bootstrap.Document) (v q : Vec) :
  Bootstrap.db s = Some c ->
  Bootstrap.driver env1 = Healthy -> Bootstrap.driver env2 = Healthy ->
  Bootstrap.embedder env1 (Bootstrap.Args.text args1) = Some v ->
  Bootstrap.embedder env2 (Bootstrap.Args.query_text args2) = Some q ->
  (Z.of_nat (List.length (Bootstrap.vectorIndex s)) <
   Bootstrap.top_k_or_5 (Bootstrap.Args.top_k args2))%Z ->
  exists facts,
    fst (Bootstrap.call_tool env2 "search_memories" args2
           (snd (Bootstrap.call_tool env1 "add_memory" args1 s))) =
      Returned (Bootstrap.Facts facts) /\
    In {| Bootstrap.fact := Some (Bootstrap.Args.text args1);
          Bootstrap.when := Bootstrap.now env1 |} facts.
Proof.
  intros Hdb Hd1 Hd2 Hv Hq Hk.
  unfold Bootstrap.call_tool.
  change (String.eqb "add_memory" "add_memory") with true.
  change (String.eqb "search_memories" "add_memory") with false.
  change (String.eqb "search_memories" "search_memories") with true. cbv iota.
  unfold Bootstrap.call_add_memory. rewrite Hv, Hdb, Hd1. cbn [snd].
  unfold Bootstrap.call_search_memories. rewrite Hq.
  cbn [Bootstrap.db Bootstrap.vectorIndex]. rewrite Hd2. cbn [fst].
  eexists. split; [reflexivity |].
  set (d := Bootstrap.Plaintext _).
  change {| Bootstrap.fact := Some (Bootstrap.Args.text args1);
            Bootstrap.when := Bootstrap.now env1 |} with (Bootstrap.view d).
  apply in_map. apply filter_In. split; [apply in_or_app; right; left; reflexivity |].
  apply existsb_eqb_In. subst d. cbn [Bootstrap.document_id Bootstrap.Plain.memory_id].
  unfold search. rewrite slice0_all.
  - apply (Permutation_in _ (Permutation_sym (ids_sort_perm q _))).
    apply JsMapFacts.keys_set. now left.
  - rewrite scored_length.
    pose proof (set_length (Bootstrap.vectorIndex s) (Bootstrap.randomUUID env1) v).
    unfold upsert. lia.
Qed.

Lemma mcp_fact_reaches_every_user_witness :
  exists facts,
    fst (Bootstrap.call_tool
           {| Bootstrap.randomUUID := "m2"; Bootstrap.now := 2%Z;
              Bootstrap.driver := Healthy;
              Bootstrap.embedder := fun _ => Some [0; 1]%float |}
           "search_memories"
           {| Bootstrap.Args.user_id := "bob"; Bootstrap.Args.text := "";
              Bootstrap.Args.scope := ""; Bootstrap.Args.query_text := "drinks";
              Bootstrap.Args.top_k := None |}
           (snd (Bootstrap.call_tool
                   {| Bootstrap.randomUUID := "m1"; Bootstrap.now := 1%Z;
                      Bootstrap.driver := Healthy;
                      Bootstrap.embedder := fun _ => Some [1; 0]%float |}
                   "add_memory"
                   {| Bootstrap.Args.user_id := "alice"; Bootstrap.Args.text := "likes tea";
                      Bootstrap.Args.scope := "global"; Bootstrap.Args.query_text := "";
                      Bootstrap.Args.top_k := None |}
                   {| Bootstrap.db := Some []; Bootstrap.vectorIndex := [] |}))) =
      Returned (Bootstrap.Facts facts) /\
    In {| Bootstrap.fact := Some "likes tea"; Bootstrap.when := 1%Z |} facts.
Proof.
  apply (mcp_fact_reaches_every_user
    {| Bootstrap.randomUUID := "m1"; Bootstrap.now := 1%Z;
       Bootstrap.driver := Healthy;
       Bootstrap.embedder := fun _ => Some [1; 0]%float |}
    {| Bootstrap.randomUUID := "m2"; Bootstrap.now := 2%Z;
       Bootstrap.driver := Healthy;
       Bootstrap.embedder := fun _ => Some [0; 1]%float |}
    {| Bootstrap.Args.user_id := "alice"; Bootstrap.Args.text := "likes tea";
       Bootstrap.Args.scope := "global"; Bootstrap.Args.query_text := "";
       Bootstrap.Args.top_k := None |}
    {| Bootstrap.Args.user_id := "bob"; Bootstrap.Args.text := "";
       Bootstrap.Args.scope := ""; Bootstrap.Args.query_text := "drinks";
       Bootstrap.Args.top_k := None |}
    {| Bootstrap.db := Some []; Bootstrap.vectorIndex := [] |}
    [] [1; 0]%float [0; 1]%float); try reflexivity.
Defined.
